(** * DAGMC geometry import (src/src/dagmc.cpp): a shallow embedding

    The import builds engine cells and surfaces from a CAD-derived mesh
    and registers them in the simulation-wide collections.  The
    embedding follows dagmc.cpp function by function:
    [dagmc_ids_for_dim], [legacy_assign_material], the XML constructor
    of [DAGUniverse], [read_uwuw_materials] and [initialize]; then
    [read_dagmc_universes], the constructor from a file name, the two
    writers of the material library's XML, and the entry point of
    src/src/main.cpp.

    Conventions.
    - C++ [int] / [int32_t] values are [Z]; the two places that do
      arithmetic on them ([stop_id + 1], [next_*_id++]) go through
      [wrap32].
    - [double] is the kernel's binary64 [float].
    - [std::unordered_map<int32_t,int32_t>] is [gmap Z nat].
    - [openmc::fatal_error] ends the process; uncaught C++ exceptions do
      too.  Both are results of the error monad [M], which keeps the
      global model as it was when the process stopped. *)

From Stdlib Require Import ZArith List String Ascii Lia Bool.
From Stdlib Require Import PrimFloat.
From stdpp Require Import gmap strings list pretty sorting.
From Equations Require Import Equations.

Local Open Scope Z_scope.

(** ** Machine integers *)

Definition INT_MIN : Z := - 2 ^ 31.
Definition INT_MAX : Z := 2 ^ 31 - 1.

Definition in_int (z : Z) : Prop := INT_MIN ≤ z ≤ INT_MAX.

(** Two's complement reduction of a mathematical integer to [int]. *)
Definition wrap32 (z : Z) : Z := (z + 2 ^ 31) `mod` 2 ^ 32 - 2 ^ 31.

(** ** Strings *)

(** Modelled from the spec: [to_lower] of openmc/string_utils.h is not
    under src/; the spec calls the comparison case-insensitive and the
    tag "lowered to lower case".  It maps [std::tolower] (C locale) over
    the bytes: 'A'..'Z' move to 'a'..'z', every other byte stays. *)
Definition tolower (c : ascii) : ascii :=
  let n := nat_of_ascii c in
  if (65 <=? n)%nat && (n <=? 90)%nat then ascii_of_nat (n + 32) else c.

Fixpoint to_lower (s : string) : string :=
  match s with
  | EmptyString => EmptyString
  | String c s' => String (tolower c) (to_lower s')
  end.

(** [operator<<] on an [int]: decimal digits, a leading '-' when
    negative. *)
Definition show_int (z : Z) : string := pretty z.

(** *** [std::stoi]

    [std::stoi(str)] is [strtol] in base 10: leading white space is
    skipped, one sign is accepted, then the longest run of decimal
    digits is converted and whatever follows is ignored.  No digit at
    all throws [std::invalid_argument]; a value outside [int] throws
    [std::out_of_range]. *)

Inductive conv (A : Type) : Type :=
| conv_value (v : A)
| conv_invalid_argument
| conv_out_of_range.
Arguments conv_value {A} v.
Arguments conv_invalid_argument {A}.
Arguments conv_out_of_range {A}.

Definition isspace (c : ascii) : bool :=
  let n := nat_of_ascii c in
  (n =? 32)%nat || ((9 <=? n)%nat && (n <=? 13)%nat).

Definition digit_of (c : ascii) : option Z :=
  let n := nat_of_ascii c in
  if (48 <=? n)%nat && (n <=? 57)%nat then Some (Z.of_nat n - 48) else None.

Fixpoint skip_space (s : string) : string :=
  match s with
  | String c s' => if isspace c then skip_space s' else s
  | EmptyString => s
  end.

(** The digits at the front of [s], most significant first. *)
Fixpoint leading_digits (s : string) : list Z :=
  match s with
  | String c s' =>
      match digit_of c with
      | Some d => d :: leading_digits s'
      | None => []
      end
  | EmptyString => []
  end.

Definition digits_value (ds : list Z) : Z :=
  fold_left (λ acc d, 10 * acc + d) ds 0.

Definition strip_sign (s : string) : bool * string :=
  match s with
  | String "-"%char s' => (true, s')
  | String "+"%char s' => (false, s')
  | _ => (false, s)
  end.

Definition stoi (str : string) : conv Z :=
  let '(neg, body) := strip_sign (skip_space str) in
  match leading_digits body with
  | [] => conv_invalid_argument
  | ds =>
      let v := if neg then - digits_value ds else digits_value ds in
      if (INT_MIN <=? v) && (v <=? INT_MAX) then conv_value v
      else conv_out_of_range
  end.

(** ** DAGUniverse::dagmc_ids_for_dim (dagmc.cpp:50-89)

    [ids] are the values [id_by_index(dim, 1)], ..., [id_by_index(dim,
    n_cells)] in enumeration order.  [id_vec[k]] is unchecked: for
    [k] at or beyond the size it reads whatever lies behind the
    vector's storage, which is the parameter [past_end].  The loop also
    records, as a ghost value, every index it reads. *)

Section RangeFormatter.
Variable past_end : nat → Z.

Definition vec_at (id_vec : list Z) (k : nat) : Z :=
  default (past_end k) (id_vec !! k).

(** The text written for one block (lines 73-80). *)
Definition emit_block (out : string) (start_id stop_id : Z)
    (i n_cells : nat) : string :=
  let out1 :=
    if decide (start_id ≠ stop_id)
    then out +:+ show_int start_id +:+ "-" +:+ show_int stop_id
    else out +:+ show_int start_id in
  if decide (Z.of_nat i < Z.of_nat n_cells - 1) then out1 +:+ ", " else out1.

(** The [while] loop of lines 69-86; it stops because [i] grows. *)
Equations? ids_loop (id_vec : list Z) (n_cells i : nat) (start_id : Z)
    (out : string) (reads : list nat) : string * list nat
    by wf (n_cells - i)%nat lt :=
  ids_loop id_vec n_cells i start_id out reads with decide (i < n_cells)%nat => {
    | right _ := (out, reads);
    | left _ :=
        let stop_id := vec_at id_vec i in
        if decide (wrap32 (stop_id + 1) < vec_at id_vec (i + 1))
        then
          ids_loop id_vec n_cells (i + 1 + 1)
            (vec_at id_vec (i + 1))
            (emit_block out start_id stop_id i n_cells)
            (reads ++ [i; (i + 1)%nat; (i + 1)%nat])
        else
          ids_loop id_vec n_cells (i + 1) start_id out
            (reads ++ [i; (i + 1)%nat]) }.
Proof. all: lia. Qed.

(** The function: the text, and the indices of [id_vec] it read. *)
Definition dagmc_ids_trace (ids : list Z) : string * list nat :=
  let n_cells := length ids in
  let id_vec := merge_sort Z.le ids in
  ids_loop id_vec n_cells 0 (vec_at id_vec 0) "" [0%nat].

Definition dagmc_ids_for_dim (ids : list Z) : string :=
  fst (dagmc_ids_trace ids).

(** The indices read at or beyond the vector's size. *)
Definition reads_past_end (ids : list Z) : list nat :=
  filter (λ k, length ids ≤ k)%nat (snd (dagmc_ids_trace ids)).
End RangeFormatter.

(** The sorted vector ends in two adjacent ids, or has one element. *)
Definition ends_adjacent (id_vec : list Z) : Prop :=
  length id_vec = 1%nat
  ∨ ∃ a, id_vec !! (length id_vec - 2)%nat = Some a
         ∧ id_vec !! (length id_vec - 1)%nat = Some (a + 1).

(** The walk of the loop over the sorted vector, read off lines 69-86:
    from an id followed by a gap the index advances by two and jumps
    over the next id, otherwise by one.  [true]: the walk lands on the
    last index; [false]: it jumps over it (or the vector is empty). *)
Fixpoint lands_on_last (id_vec : list Z) : bool :=
  match id_vec with
  | [] => false
  | x :: tl =>
      match tl with
      | [] => true
      | y :: rest =>
          if decide (wrap32 (x + 1) < y) then lands_on_last rest
          else lands_on_last tl
      end
  end.

(** *** The reader of the specification's round trip

    This follows the specification's words, not the code: the text is
    split at commas, blanks are dropped, a token "start-end" stands for
    the integers start..end and any other token for one integer. *)

Fixpoint split_commas (s : string) : list string :=
  match s with
  | EmptyString => [EmptyString]
  | String c s' =>
      if decide (c = ","%char) then EmptyString :: split_commas s'
      else match split_commas s' with
           | t :: ts => String c t :: ts
           | [] => [String c EmptyString]
           end
  end.

Fixpoint drop_blanks (s : string) : string :=
  match s with
  | EmptyString => EmptyString
  | String c s' =>
      if decide (c = " "%char) then drop_blanks s' else String c (drop_blanks s')
  end.

(** The text before the first '-', and the text after it if there is one. *)
Fixpoint split_dash (s : string) : string * option string :=
  match s with
  | EmptyString => (EmptyString, None)
  | String c s' =>
      if decide (c = "-"%char) then (EmptyString, Some s')
      else let '(a, b) := split_dash s' in (String c a, b)
  end.

Definition spec_parse_id (t : string) : option Z :=
  let ds := leading_digits t in
  if decide (ds ≠ [] ∧ length ds = String.length t) then Some (digits_value ds)
  else None.

Definition spec_parse_token (t : string) : option (list Z) :=
  let t := drop_blanks t in
  if decide (t = EmptyString) then Some []
  else match split_dash t with
       | (a, None) => x ← spec_parse_id a; Some [x]
       | (a, Some b) =>
           x ← spec_parse_id a; y ← spec_parse_id b;
           Some (seqZ x (y - x + 1))
       end.

Definition spec_reparse_ranges (s : string) : option (list Z) :=
  mjoin <$> mapM spec_parse_token (split_commas s).

(** ** Data model *)

(** What the import reads of an engine [Material]: [id_], [name()] and
    [temperature()]. *)
Record Material := {
  mat_id_ : Z;
  mat_name : string;
  mat_temperature : float
}.

(** The members of a cell that the import sets.  [dagmc_ptr_], the
    shared handle to the mesh, is left out: the import only copies it. *)
Record DAGCell := {
  dag_index_ : Z;
  id_ : Z;
  universe_ : Z;
  fill_ : Z;
  material_ : list Z;
  sqrtkT_ : list float
}.

Inductive BoundaryCondition : Type := VacuumBC | ReflectiveBC.

(** [bc_] is a pointer: [None] is the null pointer, transmission. *)
Record DAGSurface := {
  surf_dag_index_ : Z;
  surf_id_ : Z;
  bc_ : option BoundaryCondition
}.

(** A line on the terminal, from [warning] or from [write_message]. *)
Inductive printed : Type :=
| printed_warning (msg : string)
| printed_message (msg : string) (level : Z).

(** The simulation-wide collections of namespace [model], and what
    [warning] and [write_message] were called with. *)
Record Model := {
  cells : list DAGCell;
  cell_map : gmap Z nat;
  surfaces : list DAGSurface;
  surface_map : gmap Z nat;
  materials : list Material;
  material_map : gmap Z nat;
  overlap_check_count : list Z;
  output : list printed
}.

(** A volume (dimension 3 entity) of the loaded mesh with its metadata:
    [entity_by_index], [id_by_index], the "material" property, the entry
    of [volume_material_property_data_eh], and the "temp" property when
    [has_prop] holds. *)
Record Volume := {
  vol_handle : Z;
  vol_id : Z;
  vol_material : string;
  vol_uwuw_key : string;
  vol_temp : option string
}.

(** A surface (dimension 2 entity): handle, [id_by_index], the
    "boundary" property and [get_parent_meshsets]. *)
Record Surface := {
  surf_handle : Z;
  surf_id : Z;
  surf_boundary : string;
  surf_parent_vols : list Z
}.

(** What a geometry file holds: the UWUW material library, as key and
    "mat_number" in key order, and the mesh entities in enumeration
    order. *)
Record H5M := {
  h5m_library : list (string * Z);
  h5m_volumes : list Volume;
  h5m_surfaces : list Surface
}.

Record DAGUniverse := {
  univ_id_ : Z;
  filename_ : string;
  adjust_geometry_ids_ : bool;
  adjust_material_ids_ : bool;
  cell_idx_offset_ : nat;
  surf_idx_offset_ : nat;
  uwuw_library : list (string * Z);
  dagmc_instance_ : H5M
}.

(** The parts of the program that dagmc.cpp uses and src/ does not
    hold: constants of openmc/constants.h, the variables of namespace
    [settings], [std::stod], the files on disk, the construction of
    engine materials from the library's XML rendering ([None]: the XML
    does not load), and the memory behind a vector. *)
Class Env := {
  MATERIAL_VOID : Z;
  C_NONE : Z;
  K_BOLTZMANN : float;
  settings_verbosity : Z;
  settings_temperature_default : float;
  settings_check_overlaps : bool;
  stod : string → conv float;
  load_file : string → H5M;
  uwuw_materials : list (string * Z) → option (list Material);
  past_end : nat → Z
}.

(** ** The error monad *)

Inductive failure : Type :=
| fatal_error (msg : string)
| uncaught_invalid_argument
| uncaught_out_of_range
| undefined_behaviour.

Inductive result (A : Type) : Type :=
| Ok (a : A)
| Stop (f : failure).
Arguments Ok {A} a.
Arguments Stop {A} f.

Definition M (A : Type) : Type := Model → result A * Model.

Definition ret {A} (a : A) : M A := λ m, (Ok a, m).

Definition bind {A B} (c : M A) (k : A → M B) : M B :=
  λ m, match c m with
       | (Ok a, m') => k a m'
       | (Stop f, m') => (Stop f, m')
       end.

Definition stop {A} (f : failure) : M A := λ m, (Stop f, m).
Definition gets {A} (f : Model → A) : M A := λ m, (Ok (f m), m).
Definition modify (f : Model → Model) : M unit := λ m, (Ok tt, f m).

Declare Scope M_scope.
Delimit Scope M_scope with M.
Notation "'let*' x ':=' c 'in' k" := (bind c (λ x, k))
  (at level 10, x name, c at level 100, k at level 200) : M_scope.
Notation "'let*' ' p ':=' c 'in' k" := (bind c (λ x, match x with p => k end))
  (at level 10, p pattern, c at level 100, k at level 200) : M_scope.
Notation "'do' c 'then' k" := (bind c (λ _, k))
  (at level 10, c at level 100, k at level 200) : M_scope.
Local Open Scope M_scope.

Definition when (b : bool) (c : M unit) : M unit := if b then c else ret tt.

(** [v[k]] on a vector read in bounds by construction in the program;
    out of bounds it is undefined behaviour. *)
Definition index {A} (v : list A) (k : nat) : M A :=
  match v !! k with
  | Some a => ret a
  | None => stop undefined_behaviour
  end.

(** [std::unordered_map::at]: throws [std::out_of_range]. *)
Definition map_at (f : Model → gmap Z nat) (k : Z) : M nat :=
  let* m := gets f in
  match m !! k with
  | Some v => ret v
  | None => stop uncaught_out_of_range
  end.

Definition set_output (f : list printed → list printed) (m : Model) : Model :=
  {| cells := cells m; cell_map := cell_map m;
     surfaces := surfaces m; surface_map := surface_map m;
     materials := materials m; material_map := material_map m;
     overlap_check_count := overlap_check_count m;
     output := f (output m) |}.

Definition set_cell_map (f : gmap Z nat → gmap Z nat) (m : Model) : Model :=
  {| cells := cells m; cell_map := f (cell_map m);
     surfaces := surfaces m; surface_map := surface_map m;
     materials := materials m; material_map := material_map m;
     overlap_check_count := overlap_check_count m;
     output := output m |}.

Definition set_cells (f : list DAGCell → list DAGCell) (m : Model) : Model :=
  {| cells := f (cells m); cell_map := cell_map m;
     surfaces := surfaces m; surface_map := surface_map m;
     materials := materials m; material_map := material_map m;
     overlap_check_count := overlap_check_count m;
     output := output m |}.

Definition set_surface_map (f : gmap Z nat → gmap Z nat) (m : Model) : Model :=
  {| cells := cells m; cell_map := cell_map m;
     surfaces := surfaces m; surface_map := f (surface_map m);
     materials := materials m; material_map := material_map m;
     overlap_check_count := overlap_check_count m;
     output := output m |}.

Definition set_surfaces (f : list DAGSurface → list DAGSurface) (m : Model) : Model :=
  {| cells := cells m; cell_map := cell_map m;
     surfaces := f (surfaces m); surface_map := surface_map m;
     materials := materials m; material_map := material_map m;
     overlap_check_count := overlap_check_count m;
     output := output m |}.

Definition set_materials (f : list Material → list Material) (m : Model) : Model :=
  {| cells := cells m; cell_map := cell_map m;
     surfaces := surfaces m; surface_map := surface_map m;
     materials := f (materials m); material_map := material_map m;
     overlap_check_count := overlap_check_count m;
     output := output m |}.

Definition set_overlap_check_count (f : list Z → list Z) (m : Model) : Model :=
  {| cells := cells m; cell_map := cell_map m;
     surfaces := surfaces m; surface_map := surface_map m;
     materials := materials m; material_map := material_map m;
     overlap_check_count := f (overlap_check_count m);
     output := output m |}.

(** [warning] and [write_message] are functions of openmc/error.h,
    which is not under src/: the model records the call, and leaves to
    the reader of [output] what the verbosity lets through. *)
Definition warning (msg : string) : M unit :=
  modify (set_output (λ o, o ++ [printed_warning msg])).

Definition write_message (msg : string) (level : Z) : M unit :=
  modify (set_output (λ o, o ++ [printed_message msg level])).

Definition fatal {A} (msg : string) : M A := stop (fatal_error msg).

Definition push_material (c : DAGCell) (id : Z) : DAGCell :=
  {| dag_index_ := dag_index_ c; id_ := id_ c; universe_ := universe_ c;
     fill_ := fill_ c; material_ := material_ c ++ [id];
     sqrtkT_ := sqrtkT_ c |}.

Definition push_sqrtkT (c : DAGCell) (x : float) : DAGCell :=
  {| dag_index_ := dag_index_ c; id_ := id_ c; universe_ := universe_ c;
     fill_ := fill_ c; material_ := material_ c;
     sqrtkT_ := sqrtkT_ c ++ [x] |}.

Definition set_bc (s : DAGSurface) (bc : BoundaryCondition) : DAGSurface :=
  {| surf_dag_index_ := surf_dag_index_ s; surf_id_ := surf_id_ s;
     bc_ := Some bc |}.

Definition dquote : string := String (ascii_of_nat 34) EmptyString.

Section Initialize.
Context `{Env}.

(** *** DAGUniverse::legacy_assign_material (dagmc.cpp:132-179) *)

(** The loop of lines 139-155 over [model::materials], from the state
    [mat_found_by_name] and the cell under construction. *)
Fixpoint match_by_name (mat_string : string) (ms : list Material)
    (mat_found_by_name : bool) (c : DAGCell) : M (bool * DAGCell) :=
  match ms with
  | [] => ret (mat_found_by_name, c)
  | m :: ms' =>
      let m_name := to_lower (mat_name m) in
      if decide (mat_string = m_name) then
        if negb mat_found_by_name then
          match_by_name mat_string ms' true (push_material c (mat_id_ m))
        else
          fatal ("More than one material found with name '" +:+ mat_string
                 +:+ "'. Please ensure materials "
                 +:+ "have unique names if using this property to assign materials.")
      else match_by_name mat_string ms' mat_found_by_name c
  end.

Definition legacy_assign_material (mat_string : string) (c : DAGCell)
    : M DAGCell :=
  let mat_string := to_lower mat_string in
  let* ms := gets materials in
  let* '(mat_found_by_name, c) := match_by_name mat_string ms false c in
  let* c :=
    if negb mat_found_by_name then
      match stoi mat_string with
      | conv_value id => ret (push_material c id)
      | conv_invalid_argument =>
          fatal ("No material '" +:+ mat_string
                 +:+ "' found for volume (cell) " +:+ show_int (id_ c))
      | conv_out_of_range => stop uncaught_out_of_range
      end
    else ret c in
  do (if bool_decide (10 ≤ settings_verbosity) then
        let* m0 := index (material_ c) 0 in
        let* k := map_at material_map m0 in
        let* ms := gets materials in
        let* m := index ms k in
        write_message
          ("DAGMC material " +:+ mat_string +:+ " was assigned"
           +:+ (if mat_found_by_name
                then " using material name: " +:+ mat_name m
                else " using material id: " +:+ show_int (mat_id_ m)))
          10
      else ret tt)
  then ret c.

(** *** DAGUniverse::uses_uwuw (dagmc.cpp:91-95) *)
Definition uses_uwuw (u : DAGUniverse) : bool :=
  negb (bool_decide (uwuw_library u = [])).

Definition set_offsets (u : DAGUniverse) (nc ns : nat) : DAGUniverse :=
  {| univ_id_ := univ_id_ u; filename_ := filename_ u;
     adjust_geometry_ids_ := adjust_geometry_ids_ u;
     adjust_material_ids_ := adjust_material_ids_ u;
     cell_idx_offset_ := nc; surf_idx_offset_ := ns;
     uwuw_library := uwuw_library u;
     dagmc_instance_ := dagmc_instance_ u |}.

Definition set_uwuw (u : DAGUniverse) (lib : list (string * Z)) : DAGUniverse :=
  {| univ_id_ := univ_id_ u; filename_ := filename_ u;
     adjust_geometry_ids_ := adjust_geometry_ids_ u;
     adjust_material_ids_ := adjust_material_ids_ u;
     cell_idx_offset_ := cell_idx_offset_ u;
     surf_idx_offset_ := surf_idx_offset_ u;
     uwuw_library := lib;
     dagmc_instance_ := dagmc_instance_ u |}.

Definition set_dagmc_instance (u : DAGUniverse) (f : H5M) : DAGUniverse :=
  {| univ_id_ := univ_id_ u; filename_ := filename_ u;
     adjust_geometry_ids_ := adjust_geometry_ids_ u;
     adjust_material_ids_ := adjust_material_ids_ u;
     cell_idx_offset_ := cell_idx_offset_ u;
     surf_idx_offset_ := surf_idx_offset_ u;
     uwuw_library := uwuw_library u;
     dagmc_instance_ := f |}.

(** *** DAGUniverse::read_uwuw_materials (dagmc.cpp:433-470) *)

(** Lines 447-451: every entry gets the next material id. *)
Fixpoint renumber (next_material_id : Z) (lib : list (string * Z))
    : list (string * Z) :=
  match lib with
  | [] => []
  | (k, _) :: lib' =>
      (k, next_material_id) :: renumber (wrap32 (next_material_id + 1)) lib'
  end.

Definition read_uwuw_materials (u : DAGUniverse) : M DAGUniverse :=
  let* ms := gets materials in
  let next_material_id :=
    fold_left (λ n m, Z.max (mat_id_ m) n) ms 0 in
  let next_material_id := wrap32 (next_material_id + 1) in
  let mat_lib := h5m_library (load_file (filename_ u)) in
  if bool_decide (length mat_lib = 0%nat) then ret (set_uwuw u mat_lib)
  else
    let mat_lib :=
      if adjust_material_ids_ u then renumber next_material_id mat_lib
      else mat_lib in
    match uwuw_materials mat_lib with
    | None =>
        fatal "Error processing XML created using DAGMC UWUW materials."
    | Some new =>
        do modify (set_materials (λ ms, ms ++ new))
        then ret (set_uwuw u mat_lib)
    end.

(** *** DAGUniverse::initialize (dagmc.cpp:229-431) *)

(** Lines 233-236 and 241-244: the largest id, not below 0. *)
Definition highest_id {A} (id : A → Z) (l : list A) : Z :=
  fold_left (λ next x, if decide (id x > next) then id x else next) l 0.

Definition library_number (lib : list (string * Z)) (key : string)
    : option Z :=
  snd <$> find (λ e, bool_decide (fst e = key)) lib.

(** Lines 298-305: the probe of [model::cell_map]. *)
Definition register_cell (u : DAGUniverse) (c : DAGCell) : M unit :=
  let* in_map := gets (λ m, cell_map m !! id_ c) in
  match in_map with
  | None =>
      let* n := gets (λ m, length (cells m)) in
      modify (set_cell_map <[id_ c := n]>)
  | Some _ =>
      do warning ("DAGMC Cell IDs: "
                  +:+ dagmc_ids_for_dim past_end
                        (vol_id <$> h5m_volumes (dagmc_instance_ u)))
      then fatal ("Cell ID " +:+ show_int (id_ c)
                  +:+ " exists in both DAGMC Universe "
                  +:+ show_int (univ_id_ u) +:+ " and the CSG geometry.")
  end.

(** Lines 323-340: the material of a volume. *)
Definition assign_material (u : DAGUniverse) (using_uwuw : bool)
    (vol : Volume) (mat_str : string) (c : DAGCell) : M DAGCell :=
  if bool_decide (mat_str = "void") || bool_decide (mat_str = "vacuum")
     || bool_decide (mat_str = "graveyard")
  then ret (push_material c MATERIAL_VOID)
  else if using_uwuw then
    let uwuw_mat := vol_uwuw_key vol in
    match library_number (uwuw_library u) uwuw_mat with
    | Some mat_number => ret (push_material c mat_number)
    | None =>
        fatal ("Material with value '" +:+ mat_str +:+ "' not found in the "
               +:+ "UWUW material library")
    end
  else legacy_assign_material mat_str c.

(** Lines 352-362: the temperature of a cell that is not void. *)
Definition assign_temperature (vol : Volume) (c : DAGCell) : M DAGCell :=
  let* m0 := index (material_ c) 0 in
  let* k := map_at material_map m0 in
  let* ms := gets materials in
  let* mat := index ms k in
  match vol_temp vol with
  | Some temp_value =>
      match stod temp_value with
      | conv_value temp =>
          ret (push_sqrtkT c (PrimFloat.sqrt (K_BOLTZMANN * temp)))
      | conv_invalid_argument => stop uncaught_invalid_argument
      | conv_out_of_range => stop uncaught_out_of_range
      end
  | None =>
      if (0 <? mat_temperature mat)%float then
        ret (push_sqrtkT c (PrimFloat.sqrt (K_BOLTZMANN * mat_temperature mat)))
      else
        ret (push_sqrtkT c
               (PrimFloat.sqrt (K_BOLTZMANN * settings_temperature_default)))
  end.

(** One turn of the loop of lines 287-365.  [i] counts from 0; the
    values carried from turn to turn are [next_cell_id] and
    [graveyard]. *)
Definition init_cell (u : DAGUniverse) (using_uwuw : bool) (i : nat)
    (vol : Volume) (next_cell_id graveyard : Z) : M (Z * Z) :=
  let c := {| dag_index_ := Z.of_nat i + 1;
              id_ := if adjust_geometry_ids_ u then next_cell_id
                     else vol_id vol;
              universe_ := univ_id_ u;
              fill_ := C_NONE;
              material_ := [];
              sqrtkT_ := [] |} in
  let next_cell_id :=
    if adjust_geometry_ids_ u then wrap32 (next_cell_id + 1)
    else next_cell_id in
  do register_cell u c then
  let mat_str := vol_material vol in
  do when (bool_decide (mat_str = ""))
       (fatal ("Volume " +:+ show_int (id_ c)
               +:+ " has no material assignment."))
  then
  let mat_str := to_lower mat_str in
  let graveyard :=
    if bool_decide (mat_str = "graveyard") then vol_handle vol
    else graveyard in
  let* c := assign_material u using_uwuw vol mat_str c in
  let* m0 := index (material_ c) 0 in
  if bool_decide (m0 = MATERIAL_VOID) then
    do modify (set_cells (λ cs, cs ++ [c]))
    then ret (next_cell_id, graveyard)
  else
    let* c := assign_temperature vol c in
    do modify (set_cells (λ cs, cs ++ [c]))
    then ret (next_cell_id, graveyard).

Fixpoint init_cells (u : DAGUniverse) (using_uwuw : bool) (i : nat)
    (vols : list Volume) (next_cell_id graveyard : Z) : M (Z * Z) :=
  match vols with
  | [] => ret (next_cell_id, graveyard)
  | vol :: vols' =>
      let* '(next_cell_id, graveyard) :=
        init_cell u using_uwuw i vol next_cell_id graveyard in
      init_cells u using_uwuw (S i) vols' next_cell_id graveyard
  end.

(** Lines 391-404: the boundary condition named by the tag. *)
Definition classify_bc (bc_value : string) (s : DAGSurface)
    : M DAGSurface :=
  if bool_decide (bc_value = "") || bool_decide (bc_value = "transmit")
     || bool_decide (bc_value = "transmission")
  then ret s
  else if bool_decide (bc_value = "vacuum") then ret (set_bc s VacuumBC)
  else if bool_decide (bc_value = "reflective")
          || bool_decide (bc_value = "reflect")
          || bool_decide (bc_value = "reflecting")
  then ret (set_bc s ReflectiveBC)
  else if bool_decide (bc_value = "periodic") then
    fatal "Periodic boundary condition not supported in DAGMC."
  else
    fatal ("Unknown boundary condition " +:+ dquote +:+ bc_value +:+ dquote
           +:+ " specified " +:+ "on surface " +:+ show_int (surf_id_ s)).

(** Lines 406-415: surfaces of the graveyard become vacuum. *)
Definition graveyard_check (graveyard : Z) (parent_vols : list Z)
    (s : DAGSurface) : DAGSurface :=
  if negb (bool_decide (graveyard = 0))
     && bool_decide (graveyard ∈ parent_vols)
  then set_bc s VacuumBC else s.

(** Lines 419-426: the probe of [model::surface_map]. *)
Definition register_surface (u : DAGUniverse) (s : DAGSurface) : M unit :=
  let* in_map := gets (λ m, surface_map m !! surf_id_ s) in
  match in_map with
  | None =>
      let* n := gets (λ m, length (surfaces m)) in
      modify (set_surface_map <[surf_id_ s := n]>)
  | Some _ =>
      do warning ("DAGMC Surface IDs: "
                  +:+ dagmc_ids_for_dim past_end
                        (surf_id <$> h5m_surfaces (dagmc_instance_ u)))
      then fatal ("Surface ID " +:+ show_int (surf_id_ s)
                  +:+ " exists in both Universe "
                  +:+ show_int (univ_id_ u) +:+ " and the CSG geometry.")
  end.

(** One turn of the loop of lines 381-430. *)
Definition init_surface (u : DAGUniverse) (i : nat) (surf : Surface)
    (next_surf_id graveyard : Z) : M Z :=
  let s := {| surf_dag_index_ := Z.of_nat i + 1;
              surf_id_ := if adjust_geometry_ids_ u then next_surf_id
                          else surf_id surf;
              bc_ := None |} in
  let next_surf_id :=
    if adjust_geometry_ids_ u then wrap32 (next_surf_id + 1)
    else next_surf_id in
  let bc_value := to_lower (surf_boundary surf) in
  let* s := classify_bc bc_value s in
  let s := graveyard_check graveyard (surf_parent_vols surf) s in
  do register_surface u s then
  do modify (set_surfaces (λ ss, ss ++ [s])) then
  ret next_surf_id.

Fixpoint init_surfaces (u : DAGUniverse) (i : nat) (surfs : list Surface)
    (next_surf_id graveyard : Z) : M Z :=
  match surfs with
  | [] => ret next_surf_id
  | surf :: surfs' =>
      let* next_surf_id := init_surface u i surf next_surf_id graveyard in
      init_surfaces u (S i) surfs' next_surf_id graveyard
  end.

(** [std::vector::resize(n, 0)]. *)
Definition resize0 (n : nat) (v : list Z) : list Z :=
  take n v ++ replicate (n - length v) 0.

Definition initialize (u : DAGUniverse) : M DAGUniverse :=
  let* cs := gets cells in
  let next_cell_id := highest_id id_ cs in
  let next_cell_id := wrap32 (next_cell_id + 1) in
  let* ss := gets surfaces in
  let next_surf_id := highest_id surf_id_ ss in
  let u := set_offsets u (length cs) (length ss) in
  let next_surf_id := wrap32 (next_surf_id + 1) in
  let* u := read_uwuw_materials u in
  let using_uwuw := uses_uwuw u in
  do when using_uwuw
       (write_message "Found UWUW Materials in the DAGMC geometry file." 6)
  then
  let u := set_dagmc_instance u (load_file (filename_ u)) in
  let* '(_, graveyard) :=
    init_cells u using_uwuw 0 (h5m_volumes (dagmc_instance_ u))
      next_cell_id 0 in
  do when settings_check_overlaps
       (let* n := gets (λ m, length (cells m)) in
        modify (set_overlap_check_count (resize0 n)))
  then
  do when (bool_decide (graveyard = 0))
       (warning ("No graveyard volume found in the DagMC model. "
                 +:+ "This may result in lost particles and rapid simulation failure."))
  then
  do init_surfaces u 0 (h5m_surfaces (dagmc_instance_ u)) next_surf_id
       graveyard
  then ret u.
End Initialize.

(** *** DAGUniverse::DAGUniverse(pugi::xml_node) (dagmc.cpp:188-212)

    The helpers of openmc/xml_interface.h are not under src/; the
    constructor is stated over any implementation of them. *)
Class XmlInterface (xml_node : Type) := {
  check_for_node : xml_node → string → bool;
  get_node_value : xml_node → string → string;
  get_node_value_bool : xml_node → string → bool
}.

Section Constructor.
Context `{Env} `{XmlInterface xml_node}.

(** Lines 189-209: the members read from the node.  The members that
    [initialize] fills start empty. *)
Definition configure (node : xml_node) : M DAGUniverse :=
  let* id_ :=
    if check_for_node node "id" then
      match stoi (get_node_value node "id") with
      | conv_value v => ret v
      | conv_invalid_argument => stop uncaught_invalid_argument
      | conv_out_of_range => stop uncaught_out_of_range
      end
    else fatal "Must specify the id of the DAGMC universe" in
  let* filename_ :=
    if check_for_node node "filename" then
      ret (get_node_value node "filename")
    else fatal "Must specify a file for the DAGMC universe" in
  let adjust_geometry_ids_ := false in
  let adjust_geometry_ids_ :=
    if check_for_node node "auto_geom_ids"
    then get_node_value_bool node "auto_geom_ids"
    else adjust_geometry_ids_ in
  let adjust_material_ids_ := false in
  let adjust_geometry_ids_ :=
    if check_for_node node "auto_mat_ids"
    then get_node_value_bool node "auto_mat_ids"
    else adjust_geometry_ids_ in
  ret {| univ_id_ := id_; filename_ := filename_;
         adjust_geometry_ids_ := adjust_geometry_ids_;
         adjust_material_ids_ := adjust_material_ids_;
         cell_idx_offset_ := 0; surf_idx_offset_ := 0;
         uwuw_library := [];
         dagmc_instance_ := {| h5m_library := []; h5m_volumes := [];
                               h5m_surfaces := [] |} |}.

Definition DAGUniverse_xml (node : xml_node) : M DAGUniverse :=
  let* u := configure node in
  initialize u.
End Constructor.

(** *** read_dagmc_universes (dagmc.cpp:181-186) and
    DAGUniverse::DAGUniverse(const std::string&, bool) (dagmc.cpp:214-227)

    [model::universes] holds the universes of every geometry model; of
    a universe that is not a DAGMC universe the import reads the id
    only. *)
Inductive Universe : Type :=
| CSG_universe (id : Z)
| DAG_universe (u : DAGUniverse).

Definition universe_id (x : Universe) : Z :=
  match x with
  | CSG_universe id => id
  | DAG_universe u => univ_id_ u
  end.

Record Universes := {
  universes : list Universe;
  universe_map : gmap Z nat
}.

Section Universes.
Context `{Env} `{XmlInterface xml_node}.

(** [dag_nodes] are the children of the node that are named "dagmc",
    in document order. *)
Fixpoint read_dagmc_universes (dag_nodes : list xml_node) (us : Universes)
    : M Universes :=
  match dag_nodes with
  | [] => ret us
  | dag_node :: rest =>
      let* u := DAGUniverse_xml dag_node in
      let universes := universes us ++ [DAG_universe u] in
      read_dagmc_universes rest
        {| universes := universes;
           universe_map :=
             <[univ_id_ u := (length universes - 1)%nat]> (universe_map us) |}
  end.

(** The constructor leaves [adjust_material_ids_] as the class
    declaration of openmc/dagmc.h (not under src/) initialises it:
    that value is [declared_adjust_material_ids]. *)
Definition DAGUniverse_file (filename : string) (auto_geom_ids : bool)
    (declared_adjust_material_ids : bool) (us : list Universe)
    : M DAGUniverse :=
  let next_univ_id := highest_id universe_id us in
  let next_univ_id := wrap32 (next_univ_id + 1) in
  initialize
    {| univ_id_ := next_univ_id; filename_ := filename;
       adjust_geometry_ids_ := auto_geom_ids;
       adjust_material_ids_ := declared_adjust_material_ids;
       cell_idx_offset_ := 0; surf_idx_offset_ := 0;
       uwuw_library := [];
       dagmc_instance_ := {| h5m_library := []; h5m_volumes := [];
                             h5m_surfaces := [] |} |}.
End Universes.

(** *** DAGUniverse::get_uwuw_materials_xml (dagmc.cpp:97-116) and
    DAGUniverse::write_uwuw_materials_xml (dagmc.cpp:118-130)

    Both throw [std::runtime_error] to their caller.  The rendering of
    a library entry, [openmc("atom")], and whether a file can be opened
    for writing are not under src/. *)
Inductive thrown (A : Type) : Type :=
| returned (a : A)
| runtime_error (what : string).
Arguments returned {A} a.
Arguments runtime_error {A} what.

Class UwuwOutput := {
  openmc_atom : string * Z → string;
  ofstream_opens : string → bool
}.

Definition newline : string := String (ascii_of_nat 10) EmptyString.

Section UwuwOutput.
Context `{UwuwOutput}.

Definition get_uwuw_materials_xml (u : DAGUniverse) : thrown string :=
  if negb (uses_uwuw u) then
    runtime_error "This DAGMC Universe does not use UWUW materials"
  else
    let ss := "<?xml version=" +:+ dquote +:+ "1.0" +:+ dquote +:+ "?>"
              +:+ newline in
    let ss := ss +:+ "<materials>" +:+ newline in
    let ss := fold_left (λ ss mat, ss +:+ openmc_atom mat) (uwuw_library u) ss in
    let ss := ss +:+ "</materials>" in
    returned ss.

(** The files are a map from path to content; a stream that does not
    open drops what is written to it. *)
Definition write_uwuw_materials_xml (u : DAGUniverse) (outfile : string)
    (files : gmap string string) : thrown (gmap string string) :=
  if negb (uses_uwuw u) then
    runtime_error "This DAGMC universe does not use UWUW materials."
  else
    match get_uwuw_materials_xml u with
    | runtime_error what => runtime_error what
    | returned xml_str =>
        returned (if ofstream_opens outfile then <[outfile := xml_str]> files
                  else files)
    end.
End UwuwOutput.

(** *** main and main_enzyme (src/src/main.cpp:22-87)

    The functions of the C API, the run mode and the solver type are
    not under src/.  Each function of the API is called at most once in
    a run, so its return value is a constant here; [openmc_err_msg] is
    read after the calls made so far.  [main_enzyme] runs through
    [__enzyme_truncate_op_func], which changes the floating point
    arithmetic of the callees and not the control flow modelled here.
    The enumerations may have more values than the code names:
    [other_run_mode] takes the [default] branch, [other_solver] falls
    through the inner [switch]. *)
Inductive RunMode : Type :=
| FIXED_SOURCE | EIGENVALUE | PLOTTING | PARTICLE | VOLUME | other_run_mode.

Inductive SolverType : Type := MONTE_CARLO | RANDOM_RAY | other_solver.

Inductive call : Type :=
| call_openmc_init
| call_openmc_run
| call_openmc_run_random_ray
| call_openmc_plot_geometry
| call_run_particle_restart
| call_openmc_calculate_volumes
| call_openmc_finalize
| call_MPI_Finalize.

Class Api := {
  OPENMC_MPI : bool;
  openmc_init : Z;
  settings_run_mode : RunMode;
  settings_solver_type : SolverType;
  mpi_master : bool;
  openmc_run : Z;
  openmc_plot_geometry : Z;
  openmc_calculate_volumes : Z;
  openmc_finalize : Z;
  openmc_err_msg : list call → string
}.

(** How the process ends: [main] returns a status, or [fatal_error]
    stops it with a message. *)
Inductive ending : Type :=
| exit_status (status : Z)
| fatal_exit (msg : string).

Section Main.
Context `{Api}.

(** The [switch] of lines 26-52: the new [err] and the calls made. *)
Definition run_mode_switch (err : Z) (calls : list call) : Z * list call :=
  match settings_run_mode with
  | FIXED_SOURCE | EIGENVALUE =>
      match settings_solver_type with
      | MONTE_CARLO => (openmc_run, calls ++ [call_openmc_run])
      | RANDOM_RAY => (0, calls ++ [call_openmc_run_random_ray])
      | other_solver => (err, calls)
      end
  | PLOTTING => (openmc_plot_geometry, calls ++ [call_openmc_plot_geometry])
  | PARTICLE =>
      (0, if mpi_master then calls ++ [call_run_particle_restart] else calls)
  | VOLUME =>
      (openmc_calculate_volumes, calls ++ [call_openmc_calculate_volumes])
  | other_run_mode => (err, calls)
  end.

(** [None]: the function returned. *)
Definition main_enzyme (err : Z) (calls : list call)
    : option string * list call :=
  let '(err, calls) := run_mode_switch err calls in
  if bool_decide (err ≠ 0) then (Some (openmc_err_msg calls), calls)
  else
    let calls := calls ++ [call_openmc_finalize] in
    let err := openmc_finalize in
    if bool_decide (err ≠ 0) then (Some (openmc_err_msg calls), calls)
    else (None, calls).

Definition main : ending * list call :=
  let calls := [call_openmc_init] in
  let err := openmc_init in
  if bool_decide (err = -1) then (exit_status 0, calls)
  else if bool_decide (err ≠ 0) then (fatal_exit (openmc_err_msg calls), calls)
  else
    match main_enzyme err calls with
    | (Some msg, calls) => (fatal_exit msg, calls)
    | (None, calls) =>
        (exit_status 0,
         if OPENMC_MPI then calls ++ [call_MPI_Finalize] else calls)
    end.
End Main.

(** ** Predicates of the statements *)

(** The collections and their id maps are the same in both models;
    only the terminal output and the overlap counters may differ. *)
Definition same_registries (m m' : Model) : Prop :=
  cells m' = cells m ∧ cell_map m' = cell_map m
  ∧ surfaces m' = surfaces m ∧ surface_map m' = surface_map m
  ∧ materials m' = materials m ∧ material_map m' = material_map m.

(** The lists of cells, surfaces and materials and the material map
    are the same in both models. *)
Definition same_collections (m m' : Model) : Prop :=
  cells m' = cells m ∧ surfaces m' = surfaces m
  ∧ materials m' = materials m ∧ material_map m' = material_map m.

(** The lists of cells and surfaces are the same in both models. *)
Definition same_geometry (m m' : Model) : Prop :=
  cells m' = cells m ∧ surfaces m' = surfaces m.

(** Every run of [c], returning or not, leaves models related by [P]. *)
Definition keeps {A} (P : Model → Model → Prop) (c : M A) : Prop :=
  ∀ m r m', c m = (r, m') → P m m'.

(** The material tags that line 323 maps to the void sentinel. *)
Definition void_tags : list string := ["void"; "vacuum"; "graveyard"].

(** The temperature [T] that lines 353-362 choose for a volume whose
    resolved material is [mat]. *)
Definition chosen_temperature `{Env} (vol : Volume) (mat : Material)
    (T : float) : Prop :=
  match vol_temp vol with
  | Some temp_value => stod temp_value = conv_value T
  | None =>
      T = if (0 <? mat_temperature mat)%float then mat_temperature mat
          else settings_temperature_default
  end.

(** The boundary tags that lines 393-398 accept. *)
Definition accepted_bc_tags : list string :=
  [""; "transmit"; "transmission"; "vacuum"; "reflective"; "reflect";
   "reflecting"].

(** The models differ in the terminal output at most. *)
Definition same_but_output (m m' : Model) : Prop :=
  same_registries m m' ∧ overlap_check_count m' = overlap_check_count m.

(** Every entry of an id map points at the position of an object with
    that id. *)
Definition registry_ok (ids : list Z) (mp : gmap Z nat) : Prop :=
  ∀ id k, mp !! id = Some k → ids !! k = Some id.

(** The handle that the volume loop holds in [graveyard] after the
    volumes [vols], starting from [g]. *)
Definition tracked_graveyard (vols : list Volume) (g : Z) : Z :=
  fold_left
    (λ g vol, if bool_decide (to_lower (vol_material vol) = "graveyard")
              then vol_handle vol else g)
    vols g.

(** The condition that lines 393-398 give a lowered boundary tag;
    [None] for the tags that end in a fatal error. *)
Definition tag_condition (bc_value : string)
    : option (option BoundaryCondition) :=
  if decide (bc_value ∈ [""; "transmit"; "transmission"]) then Some None
  else if decide (bc_value = "vacuum") then Some (Some VacuumBC)
  else if decide (bc_value ∈ ["reflective"; "reflect"; "reflecting"])
       then Some (Some ReflectiveBC)
  else None.

(** The id map [mp'] is [mp] with the ids [ids] entered at the
    positions from [n] on; the ids are pairwise distinct and none is a
    key of [mp]. *)
Definition appended (n : nat) (ids : list Z) (mp mp' : gmap Z nat) : Prop :=
  NoDup ids
  ∧ (∀ id, id ∈ ids → mp !! id = None)
  ∧ (∀ j id, ids !! j = Some id → mp' !! id = Some (n + j)%nat)
  ∧ (∀ id, id ∉ ids → mp' !! id = mp !! id).

(** The condition of a surface after the graveyard check of lines
    406-415, from the condition of its tag. *)
Definition surface_condition (graveyard : Z) (surf : Surface)
    (bc : option BoundaryCondition) : option BoundaryCondition :=
  if negb (bool_decide (graveyard = 0))
     && bool_decide (graveyard ∈ surf_parent_vols surf)
  then Some VacuumBC else bc.

(** The fatal errors of lines 300-305 and 421-426. *)
Definition cell_collision (u : DAGUniverse) (id : Z) : failure :=
  fatal_error ("Cell ID " +:+ show_int id
               +:+ " exists in both DAGMC Universe "
               +:+ show_int (univ_id_ u) +:+ " and the CSG geometry.").

Definition surface_collision (u : DAGUniverse) (id : Z) : failure :=
  fatal_error ("Surface ID " +:+ show_int id
               +:+ " exists in both Universe "
               +:+ show_int (univ_id_ u) +:+ " and the CSG geometry.").

Definition is_collision (f : failure) : Prop :=
  ∃ u id, f = cell_collision u id ∨ f = surface_collision u id.

(** Every failure of the computation satisfies [Q]. *)
Definition stops_only {A} (Q : failure → Prop) (c : M A) : Prop :=
  ∀ m f m', c m = (Stop f, m') → Q f.

(** The id map after the ids [ids] are entered one after the other at
    the positions from [n] on, a later entry replacing an earlier one
    with the same id. *)
Fixpoint entered (n : nat) (ids : list Z) (mp : gmap Z nat) : gmap Z nat :=
  match ids with
  | [] => mp
  | id :: ids' => entered (S n) ids' (<[id := n]> mp)
  end.

(** The numbers of volumes and of surfaces of the universe's file. *)
Definition n_volumes (u : DAGUniverse) : nat :=
  length (h5m_volumes (dagmc_instance_ u)).

Definition n_surfaces (u : DAGUniverse) : nat :=
  length (h5m_surfaces (dagmc_instance_ u)).

(** The largest material id, not below 0 (lines 436-439). *)
Definition highest_material_id (ms : list Material) : Z :=
  fold_left (λ n mt, Z.max (mat_id_ mt) n) ms 0.

(** The text of lines 105-113 for a library: header, the renderings of
    the entries in key order, footer. *)
Definition materials_xml `{UwuwOutput} (lib : list (string * Z)) : string :=
  "<?xml version=" +:+ dquote +:+ "1.0" +:+ dquote +:+ "?>" +:+ newline
  +:+ "<materials>" +:+ newline
  +:+ fold_right (λ mat text, openmc_atom mat +:+ text) "</materials>" lib.

(** The missing-graveyard warning of lines 373-374. *)
Definition no_graveyard_warning : printed :=
  printed_warning
    ("No graveyard volume found in the DagMC model. "
     +:+ "This may result in lost particles and rapid simulation failure.").

(** A line written by [write_message]. *)
Definition is_message (p : printed) : Prop :=
  match p with
  | printed_message _ _ => True
  | printed_warning _ => False
  end.

(** ** Example data

    A run of the import needs the values that src/ does not hold.  The
    constants are those of openmc/constants.h. *)
Module Example.
(** [std::stod] on the few texts the examples use. *)
Definition stod_table (s : string) : conv float :=
  if decide (s = "300") then conv_value 300%float
  else if decide (s = "600.5") then conv_value 600.5%float
  else conv_invalid_argument.

Definition env (verbosity : Z) (file : H5M) : Env :=
  {| MATERIAL_VOID := -1;
     C_NONE := -1;
     K_BOLTZMANN := 0x1.696fe94e12d2cp-14%float;  (* 8.617333262e-5 eV/K *)
     settings_verbosity := verbosity;
     settings_temperature_default := 0x1.259999999999ap+8%float;  (* 293.6 K *)
     settings_check_overlaps := false;
     stod := stod_table;
     load_file := λ _, file;
     uwuw_materials := λ _, Some [];
     past_end := λ _, 0 |}.

(** An XML node as its attributes; a flag is set by "true" or "1". *)
Definition attrs_lookup (node : list (string * string)) (name : string)
    : option string :=
  snd <$> find (λ e, bool_decide (fst e = name)) node.

Definition attrs : XmlInterface (list (string * string)) :=
  {| check_for_node node name := bool_decide (is_Some (attrs_lookup node name));
     get_node_value node name := default "" (attrs_lookup node name);
     get_node_value_bool node name :=
       bool_decide (attrs_lookup node name = Some "true"
                    ∨ attrs_lookup node name = Some "1") |}.

Definition empty_model : Model :=
  {| cells := []; cell_map := ∅; surfaces := []; surface_map := ∅;
     materials := []; material_map := ∅; overlap_check_count := [];
     output := [] |}.

Definition steel : Material :=
  {| mat_id_ := 40; mat_name := "Steel"; mat_temperature := 0%float |}.

Definition water : Material :=
  {| mat_id_ := 41; mat_name := "water"; mat_temperature := 550%float |}.

(** A model that already holds a CSG cell 42 and a surface 7. *)
Definition csg_model : Model :=
  {| cells := [ {| dag_index_ := 0; id_ := 42; universe_ := 0; fill_ := -1;
                   material_ := [40]; sqrtkT_ := [] |} ];
     cell_map := {[ 42 := 0%nat ]};
     surfaces := [ {| surf_dag_index_ := 0; surf_id_ := 7; bc_ := None |} ];
     surface_map := {[ 7 := 0%nat ]};
     materials := [steel; water];
     material_map := {[ 40 := 0%nat; 41 := 1%nat ]};
     overlap_check_count := [];
     output := [] |}.

(** A cell under construction, before its material is assigned. *)
Definition fresh_cell : DAGCell :=
  {| dag_index_ := 1; id_ := 5; universe_ := 1; fill_ := -1;
     material_ := []; sqrtkT_ := [] |}.

(** A model with materials and no geometry yet. *)
Definition materials_model : Model :=
  {| cells := []; cell_map := ∅; surfaces := []; surface_map := ∅;
     materials := [steel; water];
     material_map := {[ 40 := 0%nat; 41 := 1%nat ]};
     overlap_check_count := [];
     output := [] |}.

Definition volume (handle id : Z) (material : string) (temp : option string)
    : Volume :=
  {| vol_handle := handle; vol_id := id; vol_material := material;
     vol_uwuw_key := material; vol_temp := temp |}.

Definition surface (handle id : Z) (boundary : string) (parents : list Z)
    : Surface :=
  {| surf_handle := handle; surf_id := id; surf_boundary := boundary;
     surf_parent_vols := parents |}.

(** Two volumes, the second the graveyard, and two surfaces. *)
Definition mesh : H5M :=
  {| h5m_library := [];
     h5m_volumes := [ volume 101 5 "Steel" (Some "300");
                      volume 102 6 "Graveyard" None ];
     h5m_surfaces := [ surface 201 8 "" [101];
                       surface 202 9 "reflective" [101; 102] ] |}.

(** <dagmc id="1" filename="dagmc.h5m" auto_geom_ids="false"
    auto_mat_ids="true"/> *)
Definition node_auto_mat : list (string * string) :=
  [("id", "1"); ("filename", "dagmc.h5m"); ("auto_geom_ids", "false");
   ("auto_mat_ids", "true")].

(** One void volume with native id 5 and one untagged surface with
    native id 7. *)
Definition void_mesh : H5M :=
  {| h5m_library := [];
     h5m_volumes := [ volume 101 5 "void" None ];
     h5m_surfaces := [ surface 201 7 "" [101] ] |}.

(** Two materials whose names differ in case only. *)
Definition steel_twice : Model :=
  {| cells := []; cell_map := ∅; surfaces := []; surface_map := ∅;
     materials := [ steel;
                    {| mat_id_ := 42; mat_name := "steel";
                       mat_temperature := 0%float |} ];
     material_map := {[ 40 := 0%nat; 42 := 1%nat ]};
     overlap_check_count := [];
     output := [] |}.

Definition universe (file : H5M) (adjust : bool) : DAGUniverse :=
  {| univ_id_ := 1; filename_ := "dagmc.h5m";
     adjust_geometry_ids_ := adjust; adjust_material_ids_ := false;
     cell_idx_offset_ := 0; surf_idx_offset_ := 0;
     uwuw_library := []; dagmc_instance_ := file |}.

(** The same values with the overlap check switched on. *)
Definition env_overlaps (file : H5M) : Env :=
  {| MATERIAL_VOID := -1;
     C_NONE := -1;
     K_BOLTZMANN := 0x1.696fe94e12d2cp-14%float;
     settings_verbosity := 7;
     settings_temperature_default := 0x1.259999999999ap+8%float;
     settings_check_overlaps := true;
     stod := stod_table;
     load_file := λ _, file;
     uwuw_materials := λ _, Some [];
     past_end := λ _, 0 |}.

(** Two volumes tagged as graveyard, the first and the last, around a
    void volume; the first surface bounds the first graveyard volume
    only, the second the last one. *)
Definition two_graveyards : H5M :=
  {| h5m_library := [];
     h5m_volumes := [ volume 101 1 "graveyard" None;
                      volume 102 2 "void" None;
                      volume 103 3 "Graveyard" None ];
     h5m_surfaces := [ surface 201 1 "reflective" [101; 102];
                       surface 202 2 "" [102; 103] ] |}.

(** One void volume and one surface tagged as periodic. *)
Definition periodic_mesh : H5M :=
  {| h5m_library := [];
     h5m_volumes := [ volume 101 1 "void" None ];
     h5m_surfaces := [ surface 201 1 "Periodic" [101] ] |}.

(** A file with a material library of two entries, its volumes void. *)
Definition uwuw_mesh : H5M :=
  {| h5m_library := [("Fuel", 1); ("Water", 1)];
     h5m_volumes := [ volume 101 1 "void" None ];
     h5m_surfaces := [ surface 201 1 "" [101] ] |}.

Definition uwuw_universe : DAGUniverse :=
  {| univ_id_ := 1; filename_ := "dagmc.h5m";
     adjust_geometry_ids_ := true; adjust_material_ids_ := true;
     cell_idx_offset_ := 0; surf_idx_offset_ := 0;
     uwuw_library := []; dagmc_instance_ := uwuw_mesh |}.

(** <dagmc id="3" filename="a.h5m" auto_geom_ids="true"/> and
    <dagmc id="3" filename="b.h5m" auto_geom_ids="true"/>: the same id
    twice. *)
Definition node_a : list (string * string) :=
  [("id", "3"); ("filename", "a.h5m"); ("auto_geom_ids", "true")].

Definition node_b : list (string * string) :=
  [("id", "3"); ("filename", "b.h5m"); ("auto_geom_ids", "true")].

Definition no_universes : Universes :=
  {| universes := []; universe_map := ∅ |}.

(** A particle restart on a process that is not the master, with MPI;
    every function of the API reports the error 3 except
    [openmc_init] and [openmc_finalize]. *)
Definition restart_api : Api :=
  {| OPENMC_MPI := true; openmc_init := 0;
     settings_run_mode := PARTICLE; settings_solver_type := MONTE_CARLO;
     mpi_master := false;
     openmc_run := 3; openmc_plot_geometry := 3;
     openmc_calculate_volumes := 3; openmc_finalize := 0;
     openmc_err_msg := λ _, "error" |}.

(** An eigenvalue run with Monte Carlo that reports the error 3. *)
Definition failing_run_api : Api :=
  {| OPENMC_MPI := true; openmc_init := 0;
     settings_run_mode := EIGENVALUE; settings_solver_type := MONTE_CARLO;
     mpi_master := true;
     openmc_run := 3; openmc_plot_geometry := 0;
     openmc_calculate_volumes := 0; openmc_finalize := 0;
     openmc_err_msg := λ _, "error" |}.
End Example.

(** * Properties *)

Lemma wrap32_id z : in_int z → wrap32 z = z.
Proof.
  unfold in_int, INT_MIN, INT_MAX, wrap32. intros Hz.
  rewrite Z.mod_small; lia.
Qed.

Lemma wrap32_range z : in_int (wrap32 z).
Proof.
  unfold in_int, INT_MIN, INT_MAX, wrap32.
  pose proof (Z.mod_pos_bound (z + 2 ^ 31) (2 ^ 32)). lia.
Qed.

Example ids_1_2_3_5 :
  dagmc_ids_for_dim (λ _, INT_MAX) [5; 1; 3; 2] = "1-3, ".
Proof. vm_compute. reflexivity. Qed.

Example ids_1_2_3 :
  dagmc_ids_for_dim (λ _, INT_MAX) [2; 1; 3] = "1-3"
  ∧ dagmc_ids_for_dim (λ _, 0) [2; 1; 3] = "".
Proof. split; vm_compute; reflexivity. Qed.

Example ids_1_3 past_end :
  dagmc_ids_trace past_end [1; 3] = ("1, ", [0; 0; 1; 1]%nat).
Proof. reflexivity. Qed.

Example reparse_examples :
  spec_reparse_ranges "1-3, 5" = Some [1; 2; 3; 5]
  ∧ spec_reparse_ranges "7" = Some [7]
  ∧ spec_reparse_ranges "1, " = Some [1].
Proof. repeat split. Qed.

Example initialize_example :
  let H := Example.env 7 Example.mesh in
  ∃ u m, initialize (Example.universe Example.mesh false) Example.csg_model
         = (Ok u, m)
    ∧ id_ <$> cells m = [42; 5; 6]
    ∧ material_ <$> cells m = [[40]; [40]; [-1]]
    ∧ surf_id_ <$> surfaces m = [7; 8; 9]
    ∧ bc_ <$> surfaces m = [None; None; Some VacuumBC]
    ∧ output m = [].
Proof. do 2 eexists. split; [vm_compute; reflexivity|]. repeat split. Qed.

Example stoi_examples :
  stoi "12abc" = conv_value 12 ∧ stoi "  -7" = conv_value (-7)
  ∧ stoi "steel" = conv_invalid_argument ∧ stoi "" = conv_invalid_argument
  ∧ stoi "99999999999" = conv_out_of_range.
Proof. repeat split. Qed.

(** ** The range formatter *)

Section RangeFormatterFacts.
Variable past_end : nat → Z.

Lemma ids_loop_eq id_vec n_cells i start_id out reads :
  ids_loop past_end id_vec n_cells i start_id out reads =
  if decide (i < n_cells)%nat then
    let stop_id := vec_at past_end id_vec i in
    if decide (wrap32 (stop_id + 1) < vec_at past_end id_vec (i + 1))
    then ids_loop past_end id_vec n_cells (i + 1 + 1)
           (vec_at past_end id_vec (i + 1))
           (emit_block out start_id stop_id i n_cells)
           (reads ++ [i; (i + 1)%nat; (i + 1)%nat])
    else ids_loop past_end id_vec n_cells (i + 1) start_id out
           (reads ++ [i; (i + 1)%nat])
  else (out, reads).
Proof.
  rewrite ids_loop_unfold_eq at 1. unfold ids_loop_unfold.
  destruct (decide (i < n_cells)%nat); simpl; [|reflexivity].
  destruct (decide _); reflexivity.
Qed.

Lemma vec_at_lookup id_vec k x :
  id_vec !! k = Some x → vec_at past_end id_vec k = x.
Proof. unfold vec_at. intros ->. reflexivity. Qed.

Lemma vec_at_past id_vec k :
  (length id_vec ≤ k)%nat → vec_at past_end id_vec k = past_end k.
Proof.
  unfold vec_at. intros Hk. rewrite (lookup_ge_None_2 id_vec k Hk). reflexivity.
Qed.

(** The loop only adds to the record of reads. *)
Lemma ids_loop_reads_prefix id_vec n_cells i start_id out reads :
  reads `prefix_of` (ids_loop past_end id_vec n_cells i start_id out reads).2.
Proof.
  remember (n_cells - i)%nat as k eqn:Hk.
  revert i start_id out reads Hk.
  induction k as [k IH] using lt_wf_ind. intros i start_id out reads Hk.
  rewrite ids_loop_eq. destruct (decide (i < n_cells)%nat) as [Hi|Hi]; [|done].
  cbv zeta. destruct (decide _).
  - etrans; [|eapply (IH (n_cells - (i + 1 + 1))%nat); [lia|done]].
    by apply prefix_app_r.
  - etrans; [|eapply (IH (n_cells - (i + 1))%nat); [lia|done]].
    by apply prefix_app_r.
Qed.

Lemma ids_loop_reads_elem id_vec n_cells i start_id out reads k :
  k ∈ reads → k ∈ (ids_loop past_end id_vec n_cells i start_id out reads).2.
Proof.
  intros Hk.
  destruct (ids_loop_reads_prefix id_vec n_cells i start_id out reads) as [r ->].
  set_solver.
Qed.

(** From any index in bounds the loop arrives at [n_cells - 1] and
    reads [id_vec[n_cells]] there. *)
Lemma ids_loop_reads_size id_vec i start_id out reads :
  Forall in_int id_vec → ends_adjacent id_vec →
  (i < length id_vec)%nat →
  length id_vec ∈
    (ids_loop past_end id_vec (length id_vec) i start_id out reads).2.
Proof.
  intros Hint Hadj. set (n := length id_vec) in *.
  remember (n - i)%nat as k eqn:Hk.
  revert i start_id out reads Hk.
  induction k as [k IH] using lt_wf_ind. intros i start_id out reads Hk Hi.
  rewrite ids_loop_eq. destruct (decide (i < n)%nat) as [_|?]; [|lia].
  cbv zeta. destruct (decide _) as [Hgap|Hgap].
  - destruct (decide (i + 1 + 1 < n)%nat) as [Hlt|Hge].
    { eapply (IH (n - (i + 1 + 1))%nat); [lia|done|done]. }
    apply ids_loop_reads_elem.
    destruct (decide (i + 1 = n)%nat) as [<-|Hne]; [set_solver|].
    exfalso. assert (i = n - 2)%nat as -> by lia.
    destruct Hadj as [Hone|(a & Ha & Hb)]; [fold n in Hone; lia|].
    fold n in Ha, Hb.
    replace (n - 2 + 1)%nat with (n - 1)%nat in Hgap by lia.
    rewrite (vec_at_lookup _ _ _ Ha), (vec_at_lookup _ _ _ Hb) in Hgap.
    assert (in_int (a + 1)) as Hin.
    { eapply Forall_forall; [exact Hint|]. eapply list_elem_of_lookup_2, Hb. }
    rewrite wrap32_id in Hgap by done. lia.
  - destruct (decide (i + 1 < n)%nat) as [Hlt|Hge].
    { eapply (IH (n - (i + 1))%nat); [lia|done|done]. }
    apply ids_loop_reads_elem. assert (i + 1 = n)%nat as -> by lia. set_solver.
Qed.
End RangeFormatterFacts.

Lemma pretty_N_go_length x s :
  (String.length s ≤ String.length (pretty_N_go x s))%nat.
Proof.
  revert s. induction (N.lt_wf_0 x) as [x _ IH]. intros s.
  destruct (decide (x = 0)%N) as [->|Hx]; [by rewrite pretty_N_go_0|].
  rewrite pretty_N_go_step by lia.
  etrans; [|apply IH, N.div_lt; lia]. simpl. lia.
Qed.

Lemma show_int_nonempty z : show_int z ≠ "".
Proof.
  unfold show_int, pretty, pretty_Z. destruct z as [|p|p]; [done| |done].
  unfold pretty, pretty_positive, pretty, pretty_N.
  case_decide; [done|]. rewrite pretty_N_go_step by lia.
  intros Heq.
  pose proof (pretty_N_go_length (N.pos p `div` 10)
                (String (pretty_N_char (N.pos p `mod` 10)) "")) as Hlen.
  rewrite Heq in Hlen. simpl in Hlen. lia.
Qed.

Lemma append_nonempty_r (a b : string) : b ≠ "" → a +:+ b ≠ a.
Proof.
  intros Hb Heq. induction a as [|c a IH]; [done|].
  injection Heq as Heq. auto.
Qed.

Lemma append_cons c (a b : string) : String c a +:+ b = String c (a +:+ b).
Proof. reflexivity. Qed.

Lemma append_eq_nil_l (a b : string) : a +:+ b = "" → a = "".
Proof. destruct a; [done|]. rewrite append_cons. discriminate. Qed.

Lemma lands_on_last_drop (id_vec : list Z) (i : nat) (x y : Z) :
  id_vec !! i = Some x → id_vec !! (i + 1)%nat = Some y →
  lands_on_last (drop i id_vec)
  = if decide (wrap32 (x + 1) < y) then lands_on_last (drop (i + 1 + 1) id_vec)
    else lands_on_last (drop (i + 1) id_vec).
Proof.
  intros Hx Hy. rewrite (drop_S _ _ _ Hx).
  replace (S i) with (i + 1)%nat by lia. rewrite (drop_S _ _ _ Hy).
  replace (S (i + 1)) with (i + 1 + 1)%nat by lia. reflexivity.
Qed.

Lemma lands_on_last_at_end (id_vec : list Z) (i : nat) :
  (i + 1 = length id_vec)%nat → lands_on_last (drop i id_vec) = true.
Proof.
  intros Hi. destruct (lookup_lt_is_Some_2 id_vec i) as [x Hx]; [lia|].
  rewrite (drop_S _ _ _ Hx), drop_ge by lia. reflexivity.
Qed.

Lemma lands_on_last_behind (id_vec : list Z) (i : nat) :
  (length id_vec ≤ i)%nat → lands_on_last (drop i id_vec) = false.
Proof. intros Hi. by rewrite drop_ge. Qed.

(** The loop reads [id_vec[n]] from the index [i] on exactly when the
    walk from [i] lands on the last index. *)
Lemma ids_loop_lands past_end id_vec i start_id out reads :
  ∃ new,
    (ids_loop past_end id_vec (length id_vec) i start_id out reads).2
    = reads ++ new
    ∧ (length id_vec ∈ new ↔ lands_on_last (drop i id_vec) = true).
Proof.
  set (n := length id_vec).
  remember (n - i)%nat as k eqn:Hk.
  revert i start_id out reads Hk.
  induction k as [k IH] using lt_wf_ind. intros i start_id out reads Hk.
  rewrite ids_loop_eq. destruct (decide (i < n)%nat) as [Hi|Hi].
  2: { exists []. rewrite app_nil_r, lands_on_last_behind by (fold n; lia).
       split; [done|]. split; [by intros ?%elem_of_nil|done]. }
  cbv zeta. destruct (lookup_lt_is_Some_2 id_vec i Hi) as [x Hx].
  rewrite (vec_at_lookup _ _ _ _ Hx).
  destruct (decide (i + 1 < n)%nat) as [Hlt|Hge].
  - destruct (lookup_lt_is_Some_2 id_vec (i + 1) Hlt) as [y Hy].
    rewrite (vec_at_lookup _ _ _ _ Hy), (lands_on_last_drop _ _ _ _ Hx Hy).
    destruct (decide (wrap32 (x + 1) < y)).
    + edestruct (IH (n - (i + 1 + 1))%nat) as (new & -> & Hnew);
        [lia|reflexivity|].
      eexists. rewrite <-app_assoc. split; [reflexivity|].
      rewrite <-Hnew, elem_of_app, !elem_of_cons, elem_of_nil. fold n.
      intuition lia.
    + edestruct (IH (n - (i + 1))%nat) as (new & -> & Hnew);
        [lia|reflexivity|].
      eexists. rewrite <-app_assoc. split; [reflexivity|].
      rewrite <-Hnew, elem_of_app, !elem_of_cons, elem_of_nil. fold n.
      intuition lia.
  - assert (i + 1 = n)%nat as Hlast by lia.
    rewrite lands_on_last_at_end by done.
    destruct (decide _).
    + edestruct (IH (n - (i + 1 + 1))%nat) as (new & -> & _);
        [lia|reflexivity|].
      eexists. rewrite <-app_assoc. split; [reflexivity|].
      split; [done|]. intros _. rewrite Hlast.
      apply list_elem_of_further, list_elem_of_here.
    + edestruct (IH (n - (i + 1))%nat) as (new & -> & _);
        [lia|reflexivity|].
      eexists. rewrite <-app_assoc. split; [reflexivity|].
      split; [done|]. intros _. rewrite Hlast.
      apply list_elem_of_further, list_elem_of_here.
Qed.

(** Two memories that answer the comparison of the last turn alike,
    should the walk land there, give the same text. *)
Lemma ids_loop_text_same p1 p2 id_vec i s1 s2 out r1 r2 :
  ((i < length id_vec)%nat → s1 = s2) →
  (lands_on_last (drop i id_vec) = true →
   ∀ x, last id_vec = Some x →
        wrap32 (x + 1) < p1 (length id_vec)
        ↔ wrap32 (x + 1) < p2 (length id_vec)) →
  (ids_loop p1 id_vec (length id_vec) i s1 out r1).1
  = (ids_loop p2 id_vec (length id_vec) i s2 out r2).1.
Proof.
  set (n := length id_vec).
  remember (n - i)%nat as k eqn:Hk.
  revert i s1 s2 out r1 r2 Hk.
  induction k as [k IH] using lt_wf_ind. intros i s1 s2 out r1 r2 Hk Hs Hcmp.
  rewrite (ids_loop_eq p1), (ids_loop_eq p2).
  destruct (decide (i < n)%nat) as [Hi|Hi]; [|done].
  cbv zeta. rewrite <-(Hs Hi).
  destruct (lookup_lt_is_Some_2 id_vec i Hi) as [x Hx].
  rewrite !(vec_at_lookup _ _ _ _ Hx).
  destruct (decide (i + 1 < n)%nat) as [Hlt|Hge].
  - destruct (lookup_lt_is_Some_2 id_vec (i + 1) Hlt) as [y Hy].
    rewrite !(vec_at_lookup _ _ _ _ Hy).
    rewrite (lands_on_last_drop _ _ _ _ Hx Hy) in Hcmp.
    destruct (decide (wrap32 (x + 1) < y)).
    + by eapply (IH (n - (i + 1 + 1))%nat); [lia|..].
    + by eapply (IH (n - (i + 1))%nat); [lia|..].
  - assert (i + 1 = n)%nat as Hlast by lia.
    rewrite !vec_at_past by (fold n; lia). rewrite Hlast.
    assert (last id_vec = Some x) as Hx'.
    { rewrite last_lookup. fold n. by replace (pred n) with i by lia. }
    specialize (Hcmp (lands_on_last_at_end _ _ Hlast) x Hx').
    destruct (decide (wrap32 (x + 1) < p1 n)) as [H1|H1],
             (decide (wrap32 (x + 1) < p2 n)) as [H2|H2]; try tauto.
    + eapply (IH (n - (n + 1))%nat); [lia|lia|lia|].
      by rewrite lands_on_last_behind by (fold n; lia).
    + eapply (IH (n - n)%nat); [lia|lia|lia|].
      by rewrite lands_on_last_behind by (fold n; lia).
Qed.

(** When the walk lands on the last index and the memories answer the
    comparison there differently, one text has the last block and the
    other has not. *)
Lemma ids_loop_text_differs p1 p2 id_vec i start_id out r1 r2 x :
  (i < length id_vec)%nat →
  lands_on_last (drop i id_vec) = true → last id_vec = Some x →
  wrap32 (x + 1) < p1 (length id_vec) →
  ¬ wrap32 (x + 1) < p2 (length id_vec) →
  ∃ t, t ≠ "" ∧
    (ids_loop p1 id_vec (length id_vec) i start_id out r1).1
    = (ids_loop p2 id_vec (length id_vec) i start_id out r2).1 +:+ t.
Proof.
  set (n := length id_vec). intros Hi Hland Hx' H1 H2.
  remember (n - i)%nat as k eqn:Hk.
  revert i start_id out r1 r2 Hk Hi Hland.
  induction k as [k IH] using lt_wf_ind.
  intros i start_id out r1 r2 Hk Hi Hland.
  assert (∀ j, lands_on_last (drop j id_vec) = true → (j < n)%nat) as Hin.
  { intros j Hj. destruct (decide (j < n)%nat); [done|].
    rewrite lands_on_last_behind in Hj by (fold n; lia). discriminate. }
  rewrite (ids_loop_eq p1), (ids_loop_eq p2).
  destruct (decide (i < n)%nat) as [_|?]; [|lia]. cbv zeta.
  destruct (lookup_lt_is_Some_2 id_vec i Hi) as [z Hz].
  rewrite !(vec_at_lookup _ _ _ _ Hz).
  destruct (decide (i + 1 < n)%nat) as [Hlt|Hge].
  - destruct (lookup_lt_is_Some_2 id_vec (i + 1) Hlt) as [y Hy].
    rewrite !(vec_at_lookup _ _ _ _ Hy).
    rewrite (lands_on_last_drop _ _ _ _ Hz Hy) in Hland.
    destruct (decide (wrap32 (z + 1) < y)).
    + eapply (IH (n - (i + 1 + 1))%nat); [lia|done|by apply Hin|done].
    + eapply (IH (n - (i + 1))%nat); [lia|done|by apply Hin|done].
  - assert (i + 1 = n)%nat as Hlast by lia.
    rewrite !vec_at_past by (fold n; lia). rewrite Hlast.
    assert (z = x) as ->.
    { rewrite last_lookup in Hx'. fold n in Hx'.
      replace (pred n) with i in Hx' by lia. congruence. }
    destruct (decide (wrap32 (x + 1) < p1 n)); [|done].
    destruct (decide (wrap32 (x + 1) < p2 n)); [done|].
    rewrite (ids_loop_eq p1), (ids_loop_eq p2).
    destruct (decide (n + 1 < n)%nat); [lia|].
    destruct (decide (n < n)%nat); [lia|]. simpl.
    unfold emit_block.
    destruct (decide (Z.of_nat i < Z.of_nat n - 1)); [lia|].
    destruct (decide (start_id ≠ x)).
    * eexists. split; [|reflexivity].
      intros Heq. apply append_eq_nil_l in Heq.
      by apply show_int_nonempty in Heq.
    * eexists. split; [|reflexivity]. apply show_int_nonempty.
Qed.

Lemma merge_sort_length (ids : list Z) :
  length (merge_sort Z.le ids) = length ids.
Proof. apply Permutation_length, merge_sort_Permutation. Qed.

(** C2, at the input {1, 3}: whatever lies behind the vector, the text
    is "1, ": the id 3 is never written, and the specification's reader
    gets {1} back, not {1, 3}. *)
Theorem dagmc_ids_1_3_drops_3 (past_end : nat → Z) :
  dagmc_ids_for_dim past_end [1; 3] = "1, "
  ∧ spec_reparse_ranges (dagmc_ids_for_dim past_end [1; 3]) = Some [1].
Proof. split; reflexivity. Qed.

(** C9 as stated fails at {1, 3}: the loop stops after the turn with
    [i = 0], every read is inside the vector, and the text does not
    depend on the memory behind it. *)
Lemma dagmc_ids_1_3_in_bounds :
  (∀ past_end, reads_past_end past_end [1; 3] = []
               ∧ dagmc_ids_for_dim past_end [1; 3] = "1, ")
  ∧ ¬ (∀ (past_end : nat → Z) (ids : list Z),
         ids ≠ [] → length ids ∈ (dagmc_ids_trace past_end ids).2).
Proof.
  split; [intros past_end; split; reflexivity|].
  intros Hall. specialize (Hall (λ _, 0) [1; 3]).
  assert (2%nat ∈ [0; 0; 1; 1]%nat) as Hin by (apply Hall; done).
  revert Hin. rewrite !elem_of_cons, elem_of_nil. lia.
Qed.

(** C9, amended.  On the empty input the function reads [id_vec[0]]
    behind the vector.  On a non-empty input of size n it reads
    [id_vec[n]], one behind the end, exactly when the walk of the loop
    lands on the last index (the index advances by two after a gap and
    can jump over it, as on {1, 3}); it lands there, for one, when the
    two largest ids are adjacent or there is one id.  The text is the
    same for two memories exactly when the walk does not land on the
    last index or both memories answer the comparison made there
    alike; so when the walk lands there the text is not determined by
    the ids, unless the largest id is 2147483646 and no [int] is above
    its successor. *)
Theorem dagmc_ids_reads_past_end (ids : list Z) :
  let id_vec := merge_sort Z.le ids in
  let n := length ids in
  (ids = [] → ∀ past_end, 0%nat ∈ reads_past_end past_end ids)
  ∧ (ids ≠ [] →
     (∀ past_end,
        n ∈ reads_past_end past_end ids ↔ lands_on_last id_vec = true)
     ∧ (∀ p1 p2,
          dagmc_ids_for_dim p1 ids = dagmc_ids_for_dim p2 ids
          ↔ (lands_on_last id_vec = true →
             ∀ x, last id_vec = Some x →
                  wrap32 (x + 1) < p1 n ↔ wrap32 (x + 1) < p2 n))
     ∧ (lands_on_last id_vec = true →
        ∀ x, last id_vec = Some x → wrap32 (x + 1) < INT_MAX →
             dagmc_ids_for_dim (λ _, INT_MAX) ids
             ≠ dagmc_ids_for_dim (λ _, INT_MIN) ids)
     ∧ (Forall in_int ids → ends_adjacent id_vec →
        lands_on_last id_vec = true)).
Proof.
  intros id_vec n. split.
  { intros -> past_end. vm_compute. set_solver. }
  intros Hne.
  assert (length id_vec = n) as Hlen by apply merge_sort_length.
  assert (0 < n)%nat as Hpos by (subst n; destruct ids; [done|simpl; lia]).
  assert (∀ past_end,
            n ∈ reads_past_end past_end ids ↔ lands_on_last id_vec = true)
    as Hread.
  { intros past_end. unfold reads_past_end, dagmc_ids_trace.
    fold id_vec n. rewrite <-Hlen.
    destruct (ids_loop_lands past_end id_vec 0 (vec_at past_end id_vec 0) ""
                [0%nat]) as (new & -> & Hnew).
    rewrite drop_0 in Hnew. rewrite <-Hnew, list_elem_of_filter.
    rewrite elem_of_app, list_elem_of_singleton, Hlen. split.
    - intros [_ [?|?]]; [lia|done].
    - intros Hin. split; [done|by right]. }
  assert (∀ p1 p2,
            dagmc_ids_for_dim p1 ids = dagmc_ids_for_dim p2 ids
            ↔ (lands_on_last id_vec = true →
               ∀ x, last id_vec = Some x →
                    wrap32 (x + 1) < p1 n ↔ wrap32 (x + 1) < p2 n))
    as Htext.
  { intros p1 p2. unfold dagmc_ids_for_dim, dagmc_ids_trace.
    fold id_vec n. rewrite <-Hlen.
    destruct (lookup_lt_is_Some_2 id_vec 0) as [x0 Hx0]; [lia|].
    rewrite !(vec_at_lookup _ _ _ _ Hx0). split.
    - intros Heq Hland x Hx.
      destruct (decide (wrap32 (x + 1) < p1 (length id_vec))) as [H1|H1],
               (decide (wrap32 (x + 1) < p2 (length id_vec))) as [H2|H2];
        try tauto; exfalso.
      + destruct (ids_loop_text_differs p1 p2 id_vec 0 x0 "" [0%nat] [0%nat] x)
          as (t & Ht & Hdiff); [lia|by rewrite drop_0|done..|].
        rewrite Hdiff in Heq. by apply append_nonempty_r in Heq.
      + destruct (ids_loop_text_differs p2 p1 id_vec 0 x0 "" [0%nat] [0%nat] x)
          as (t & Ht & Hdiff); [lia|by rewrite drop_0|done..|].
        rewrite Hdiff in Heq. symmetry in Heq.
        by apply append_nonempty_r in Heq.
    - intros Hcmp. apply ids_loop_text_same; [done|by rewrite drop_0]. }
  split; [exact Hread|]. split; [exact Htext|]. split.
  - intros Hland x Hx Hmax Heq.
    pose proof (proj1 (Htext (λ _, INT_MAX) (λ _, INT_MIN)) Heq Hland x Hx)
      as Hiff.
    pose proof (wrap32_range (x + 1)) as [Hlo _]. simpl in Hiff. lia.
  - intros Hint Hadj. apply (Hread (λ _, 0)).
    unfold reads_past_end, dagmc_ids_trace. fold id_vec n.
    apply list_elem_of_filter. split; [done|].
    rewrite <-Hlen. apply ids_loop_reads_size; [|done|lia].
    unfold id_vec. by rewrite merge_sort_Permutation.
Qed.

Lemma dagmc_ids_reads_past_end_witness :
  (3%nat ∈ reads_past_end (λ _, 0) [2; 1; 3]
   ∧ dagmc_ids_for_dim (λ _, INT_MAX) [2; 1; 3]
     ≠ dagmc_ids_for_dim (λ _, INT_MIN) [2; 1; 3])
  ∧ (3%nat ∈ reads_past_end (λ _, 0) [5; 1; 3]
     ∧ dagmc_ids_for_dim (λ _, INT_MAX) [5; 1; 3]
       ≠ dagmc_ids_for_dim (λ _, INT_MIN) [5; 1; 3])
  ∧ (2%nat ∉ reads_past_end (λ _, 0) [3; 1]).
Proof.
  split; [|split].
  - destruct (dagmc_ids_reads_past_end [2; 1; 3]) as [_ Hrun].
    destruct Hrun as (Hread & _ & Hdiff & _); [done|].
    split; [by apply Hread|]. by apply (Hdiff eq_refl 3).
  - destruct (dagmc_ids_reads_past_end [5; 1; 3]) as [_ Hrun].
    destruct Hrun as (Hread & _ & Hdiff & _); [done|].
    split; [by apply Hread|]. by apply (Hdiff eq_refl 5).
  - destruct (dagmc_ids_reads_past_end [3; 1]) as [_ Hrun].
    destruct Hrun as (Hread & _); [done|].
    intros Hin. apply Hread in Hin. discriminate.
Defined.

(** ** The error monad *)

Lemma bind_eq {A B} (c : M A) (k : A → M B) (m : Model) :
  bind c k m = match c m with
               | (Ok a, m') => k a m'
               | (Stop f, m') => (Stop f, m')
               end.
Proof. reflexivity. Qed.

Lemma bind_ok_inv {A B} (c : M A) (k : A → M B) (m m' : Model) (b : B) :
  bind c k m = (Ok b, m') →
  ∃ a m1, c m = (Ok a, m1) ∧ k a m1 = (Ok b, m').
Proof.
  rewrite bind_eq. destruct (c m) as [[a|f] m1]; [eauto|discriminate].
Qed.

(** Splits the first [bind] of a hypothesis that says a computation
    returned. *)
Tactic Notation "bind_inv" hyp(H) "as" simple_intropattern(a)
    simple_intropattern(m) simple_intropattern(Ha) :=
  apply bind_ok_inv in H as (a & m & Ha & H).

Lemma ret_inv {A} (a b : A) (m m' : Model) :
  ret a m = (Ok b, m') → b = a ∧ m' = m.
Proof. unfold ret. intros [= -> ->]. done. Qed.

Lemma ret_inv' {A} (a : A) (r : result A) (m m' : Model) :
  ret a m = (r, m') → r = Ok a ∧ m' = m.
Proof. unfold ret. intros [= <- <-]. done. Qed.

Lemma gets_inv {A} (f : Model → A) (b : A) (m m' : Model) :
  gets f m = (Ok b, m') → b = f m ∧ m' = m.
Proof. unfold gets. intros [= <- <-]. done. Qed.

Lemma modify_inv (f : Model → Model) (b : unit) (m m' : Model) :
  modify f m = (Ok b, m') → m' = f m.
Proof. unfold modify. intros [= <-]. done. Qed.

(** ** The XML constructor *)

Section ConstructorFacts.
Context `{Env} `{XmlInterface xml_node}.

Lemma configure_flags (node : xml_node) (m m' : Model) (u : DAGUniverse) :
  configure node m = (Ok u, m') →
  adjust_material_ids_ u = false
  ∧ adjust_geometry_ids_ u =
      if check_for_node node "auto_mat_ids"
      then get_node_value_bool node "auto_mat_ids"
      else if check_for_node node "auto_geom_ids"
           then get_node_value_bool node "auto_geom_ids"
           else false.
Proof.
  unfold configure. intros Hc.
  bind_inv Hc as id m1 _. bind_inv Hc as file m2 _.
  apply ret_inv in Hc as [-> _]. done.
Qed.

Lemma read_uwuw_materials_flags (u u' : DAGUniverse) (m m' : Model) :
  read_uwuw_materials u m = (Ok u', m') →
  adjust_geometry_ids_ u' = adjust_geometry_ids_ u
  ∧ adjust_material_ids_ u' = adjust_material_ids_ u
  ∧ filename_ u' = filename_ u ∧ univ_id_ u' = univ_id_ u.
Proof.
  unfold read_uwuw_materials. intros Hr. bind_inv Hr as ms m1 _.
  case_bool_decide; [by apply ret_inv in Hr as [-> _]|].
  destruct (uwuw_materials _); [|discriminate].
  bind_inv Hr as [] m2 _. by apply ret_inv in Hr as [-> _].
Qed.

Lemma initialize_flags (u u' : DAGUniverse) (m m' : Model) :
  initialize u m = (Ok u', m') →
  adjust_geometry_ids_ u' = adjust_geometry_ids_ u
  ∧ adjust_material_ids_ u' = adjust_material_ids_ u.
Proof.
  unfold initialize. intros Hi.
  bind_inv Hi as cs m1 _. bind_inv Hi as ss m2 _.
  bind_inv Hi as u1 m3 Hread.
  apply read_uwuw_materials_flags in Hread as (Hg & Hm & _).
  bind_inv Hi as [] m4 _. bind_inv Hi as [next graveyard] m5 _.
  bind_inv Hi as [] m6 _. bind_inv Hi as [] m7 _. bind_inv Hi as next' m8 _.
  apply ret_inv in Hi as [-> _]. simpl. by rewrite Hg, Hm.
Qed.

(** C1 fails on the code.  A universe built from a node has
    [adjust_material_ids_] false whatever the node says, and a node that
    sets auto_mat_ids gets its value in [adjust_geometry_ids_], over the
    value of auto_geom_ids: line 208 assigns the wrong member. *)
Theorem auto_mat_ids_sets_geometry_flag (node : xml_node) (m m' : Model)
    (u : DAGUniverse) :
  DAGUniverse_xml node m = (Ok u, m') →
  adjust_material_ids_ u = false
  ∧ (check_for_node node "auto_mat_ids" = true →
     adjust_geometry_ids_ u = get_node_value_bool node "auto_mat_ids").
Proof.
  unfold DAGUniverse_xml. intros Hc. bind_inv Hc as u0 m1 Hconf.
  apply configure_flags in Hconf as [Hm Hg].
  apply initialize_flags in Hc as [-> ->].
  split; [done|]. intros Hset. by rewrite Hg, Hset.
Qed.
End ConstructorFacts.

Lemma auto_mat_ids_sets_geometry_flag_witness :
  let H := Example.env 7 Example.mesh in
  let X := Example.attrs in
  ∃ u m', DAGUniverse_xml Example.node_auto_mat Example.csg_model = (Ok u, m')
    ∧ adjust_material_ids_ u = false ∧ adjust_geometry_ids_ u = true.
Proof.
  intros H X.
  destruct (DAGUniverse_xml Example.node_auto_mat Example.csg_model)
    as [[u|f] m'] eqn:Hrun; [|vm_compute in Hrun; discriminate].
  exists u, m'. split; [reflexivity|].
  destruct (auto_mat_ids_sets_geometry_flag _ _ _ _ Hrun) as [Hm Hg].
  split; [exact Hm|]. rewrite Hg; reflexivity.
Defined.

(** ** Registries *)

Lemma same_registries_output (f : list printed → list printed) (m : Model) :
  same_registries m (set_output f m).
Proof. by repeat split. Qed.

Section SurfaceFacts.
Context `{Env}.

Lemma classify_bc_ok_inv (bc_value : string) (s s' : DAGSurface) (m m' : Model) :
  classify_bc bc_value s m = (Ok s', m') →
  m' = m ∧ surf_id_ s' = surf_id_ s ∧ surf_dag_index_ s' = surf_dag_index_ s.
Proof.
  unfold classify_bc, fatal, stop, ret. intros Hc.
  repeat case_match; try discriminate; by injection Hc as <- <-.
Qed.

Lemma classify_bc_accepted (bc_value : string) (s : DAGSurface) (m : Model) :
  bc_value ∈ accepted_bc_tags →
  ∃ s', classify_bc bc_value s m = (Ok s', m).
Proof.
  unfold accepted_bc_tags. rewrite !elem_of_cons, elem_of_nil.
  intros [->|[->|[->|[->|[->|[->|[->|[]]]]]]]]; eexists; reflexivity.
Qed.

Lemma graveyard_check_vacuum (graveyard : Z) (parent_vols : list Z)
    (s : DAGSurface) :
  graveyard ≠ 0 → graveyard ∈ parent_vols →
  graveyard_check graveyard parent_vols s = set_bc s VacuumBC.
Proof.
  intros Hg Hin. unfold graveyard_check.
  rewrite (bool_decide_eq_false_2 _ Hg), (bool_decide_eq_true_2 _ Hin).
  reflexivity.
Qed.

Lemma graveyard_check_id (graveyard : Z) (parent_vols : list Z) (s : DAGSurface) :
  surf_id_ (graveyard_check graveyard parent_vols s) = surf_id_ s.
Proof. unfold graveyard_check. by case_match. Qed.

Lemma register_surface_free (u : DAGUniverse) (s : DAGSurface) (m : Model) :
  surface_map m !! surf_id_ s = None →
  register_surface u s m
  = (Ok tt, set_surface_map <[surf_id_ s := length (surfaces m)]> m).
Proof.
  intros Hfree. unfold register_surface.
  rewrite bind_eq. unfold gets at 1. rewrite Hfree. reflexivity.
Qed.

Lemma register_surface_taken (u : DAGUniverse) (s : DAGSurface) (m : Model) :
  is_Some (surface_map m !! surf_id_ s) →
  register_surface u s m
  = (Stop (fatal_error
             ("Surface ID " +:+ show_int (surf_id_ s)
              +:+ " exists in both Universe "
              +:+ show_int (univ_id_ u) +:+ " and the CSG geometry.")),
     set_output
       (λ o, o ++ [printed_warning
                     ("DAGMC Surface IDs: "
                      +:+ dagmc_ids_for_dim past_end
                            (surf_id <$> h5m_surfaces (dagmc_instance_ u)))]) m).
Proof.
  intros [k Hk]. unfold register_surface.
  rewrite bind_eq. unfold gets at 1. rewrite Hk. reflexivity.
Qed.

Lemma register_cell_free (u : DAGUniverse) (c : DAGCell) (m : Model) :
  cell_map m !! id_ c = None →
  register_cell u c m
  = (Ok tt, set_cell_map <[id_ c := length (cells m)]> m).
Proof.
  intros Hfree. unfold register_cell.
  rewrite bind_eq. unfold gets at 1. rewrite Hfree. reflexivity.
Qed.

Lemma register_cell_taken (u : DAGUniverse) (c : DAGCell) (m : Model) :
  is_Some (cell_map m !! id_ c) →
  register_cell u c m
  = (Stop (fatal_error
             ("Cell ID " +:+ show_int (id_ c)
              +:+ " exists in both DAGMC Universe "
              +:+ show_int (univ_id_ u) +:+ " and the CSG geometry.")),
     set_output
       (λ o, o ++ [printed_warning
                     ("DAGMC Cell IDs: "
                      +:+ dagmc_ids_for_dim past_end
                            (vol_id <$> h5m_volumes (dagmc_instance_ u)))]) m).
Proof.
  intros [k Hk]. unfold register_cell.
  rewrite bind_eq. unfold gets at 1. rewrite Hk. reflexivity.
Qed.
End SurfaceFacts.

(** C3.  A surface whose parent volumes contain the tracked graveyard
    (a handle other than 0) gets the vacuum condition whenever the turn
    of the surface loop completes, whatever its tag; and the turn
    completes for every tag the classification accepts, "reflective" and
    the empty tag among them, when the id is free.  For the tags the
    classification rejects the fatal error comes first and no
    condition is resolved. *)
Theorem graveyard_surface_is_vacuum `{Env} (u : DAGUniverse) (i : nat)
    (surf : Surface) (next_surf_id graveyard : Z) (m : Model) :
  graveyard ≠ 0 → graveyard ∈ surf_parent_vols surf →
  (∀ next' m',
     init_surface u i surf next_surf_id graveyard m = (Ok next', m') →
     ∃ s, surfaces m' = surfaces m ++ [s] ∧ bc_ s = Some VacuumBC)
  ∧ (to_lower (surf_boundary surf) ∈ accepted_bc_tags →
     surface_map m !! (if adjust_geometry_ids_ u then next_surf_id
                       else surf_id surf) = None →
     ∃ next' m',
       init_surface u i surf next_surf_id graveyard m = (Ok next', m')).
Proof.
  intros Hg Hin. split.
  - intros next' m' Hrun. unfold init_surface in Hrun.
    bind_inv Hrun as s1 m1 Hcl.
    apply classify_bc_ok_inv in Hcl as (-> & _ & _).
    rewrite graveyard_check_vacuum in Hrun by done.
    bind_inv Hrun as [] m2 Hreg. bind_inv Hrun as [] m3 Hmod.
    apply ret_inv in Hrun as [_ ->]. apply modify_inv in Hmod as ->.
    destruct (surface_map m !! surf_id_ (set_bc s1 VacuumBC)) as [k|] eqn:Hk.
    { rewrite register_surface_taken in Hreg by eauto. discriminate. }
    rewrite register_surface_free in Hreg by done.
    injection Hreg as <-. eexists. split; reflexivity.
  - intros Htag Hfree. unfold init_surface.
    edestruct classify_bc_accepted as [s' Hs']; [exact Htag|].
    rewrite bind_eq, Hs'.
    apply classify_bc_ok_inv in Hs' as (_ & Hid & _). simpl in Hid.
    rewrite bind_eq, register_surface_free
      by (by rewrite graveyard_check_id, Hid).
    eexists _, _. reflexivity.
Qed.

Lemma graveyard_surface_is_vacuum_witness :
  let H := Example.env 7 Example.mesh in
  ∃ next' m' s,
    init_surface (H := H) (Example.universe Example.mesh false) 1
      (Example.surface 202 9 "reflective" [101; 102]) 1 102
      Example.empty_model = (Ok next', m')
    ∧ surfaces m' = [s] ∧ bc_ s = Some VacuumBC.
Proof.
  intros H.
  destruct (graveyard_surface_is_vacuum (H := H)
              (Example.universe Example.mesh false) 1
              (Example.surface 202 9 "reflective" [101; 102]) 1 102
              Example.empty_model) as [Hvac Hruns].
  - lia.
  - apply list_elem_of_further, list_elem_of_here.
  - destruct Hruns as (next' & m' & Hrun).
    + do 4 apply list_elem_of_further. apply list_elem_of_here.
    + reflexivity.
    + destruct (Hvac _ _ Hrun) as (s & Hs & Hbc).
      exists next', m', s. repeat split; assumption.
Defined.

(** C4.  A candidate id that the registry already holds ends the import
    with the collision error, and the model it leaves has the same
    collections and id maps: nothing is inserted for the id and no
    mapping changes.  For a cell the probe is the first act of the turn;
    for a surface it follows the classification of the tag. *)
Theorem collision_is_fatal `{Env} (u : DAGUniverse) (m : Model) :
  (∀ using_uwuw i vol next_cell_id graveyard,
     is_Some (cell_map m !! (if adjust_geometry_ids_ u then next_cell_id
                             else vol_id vol)) →
     ∃ m',
       init_cell u using_uwuw i vol next_cell_id graveyard m
       = (Stop (fatal_error
                  ("Cell ID "
                   +:+ show_int (if adjust_geometry_ids_ u then next_cell_id
                                 else vol_id vol)
                   +:+ " exists in both DAGMC Universe "
                   +:+ show_int (univ_id_ u) +:+ " and the CSG geometry.")),
          m')
       ∧ same_registries m m')
  ∧ (∀ s,
       is_Some (surface_map m !! surf_id_ s) →
       ∃ m',
         register_surface u s m
         = (Stop (fatal_error
                    ("Surface ID " +:+ show_int (surf_id_ s)
                     +:+ " exists in both Universe "
                     +:+ show_int (univ_id_ u) +:+ " and the CSG geometry.")),
            m')
         ∧ same_registries m m')
  ∧ (∀ i surf next_surf_id graveyard,
       to_lower (surf_boundary surf) ∈ accepted_bc_tags →
       is_Some (surface_map m !! (if adjust_geometry_ids_ u then next_surf_id
                                  else surf_id surf)) →
       ∃ m',
         init_surface u i surf next_surf_id graveyard m
         = (Stop (fatal_error
                    ("Surface ID "
                     +:+ show_int (if adjust_geometry_ids_ u then next_surf_id
                                   else surf_id surf)
                     +:+ " exists in both Universe "
                     +:+ show_int (univ_id_ u) +:+ " and the CSG geometry.")),
            m')
         ∧ same_registries m m').
Proof.
  split; [|split].
  - intros using_uwuw i vol next_cell_id graveyard Htaken.
    unfold init_cell. rewrite bind_eq, register_cell_taken by exact Htaken.
    eexists. split; [reflexivity|]. apply same_registries_output.
  - intros s Htaken. rewrite register_surface_taken by exact Htaken.
    eexists. split; [reflexivity|]. apply same_registries_output.
  - intros i surf next_surf_id graveyard Htag Htaken. unfold init_surface.
    edestruct classify_bc_accepted as [s' Hs']; [exact Htag|].
    rewrite bind_eq, Hs'.
    apply classify_bc_ok_inv in Hs' as (_ & Hid & _). simpl in Hid.
    rewrite bind_eq, register_surface_taken
      by (by rewrite graveyard_check_id, Hid).
    rewrite graveyard_check_id, Hid.
    eexists. split; [reflexivity|]. apply same_registries_output.
Qed.

Lemma collision_is_fatal_witness :
  let H := Example.env 7 Example.mesh in
  ∃ m',
    init_cell (H := H) (Example.universe Example.mesh false) false 0
      (Example.volume 101 42 "Steel" None) 1 0 Example.csg_model
    = (Stop (fatal_error
               "Cell ID 42 exists in both DAGMC Universe 1 and the CSG geometry."),
       m')
    ∧ same_registries Example.csg_model m'.
Proof.
  intros H.
  destruct (collision_is_fatal (H := H) (Example.universe Example.mesh false)
              Example.csg_model) as (Hcell & _ & _).
  apply (Hcell false 0%nat (Example.volume 101 42 "Steel" None) 1 0).
  exists 0%nat. reflexivity.
Defined.

(** ** Legacy material resolution *)

Section LegacyFacts.
Context `{Env}.

Lemma no_name_match (mat_string : string) (ms : list Material) :
  Forall (λ mt, to_lower (mat_name mt) ≠ mat_string) ms →
  filter (λ mt, mat_string = to_lower (mat_name mt)) ms = [].
Proof.
  induction 1 as [|mt ms Hne _ IH]; [done|].
  rewrite filter_cons_False by (intros Heq; by apply Hne). exact IH.
Qed.

(** The loop over the materials, by the list of materials whose
    lowered name is the tag. *)
Lemma match_by_name_spec (mat_string : string) (ms : list Material)
    (found : bool) (c : DAGCell) (m : Model) :
  match_by_name mat_string ms found c m =
  match filter (λ mt, mat_string = to_lower (mat_name mt)) ms, found with
  | [], _ => (Ok (found, c), m)
  | [mt], false => (Ok (true, push_material c (mat_id_ mt)), m)
  | _, _ =>
      (Stop (fatal_error
               ("More than one material found with name '" +:+ mat_string
                +:+ "'. Please ensure materials "
                +:+ "have unique names if using this property to assign materials.")),
       m)
  end.
Proof.
  revert found c. induction ms as [|mt ms IH]; intros found c; [done|].
  cbn [match_by_name]. rewrite filter_cons.
  destruct (decide (mat_string = to_lower (mat_name mt))) as [Heq|Hne].
  - destruct found; simpl; [unfold fatal, stop; by destruct (filter _ ms)|].
    rewrite IH. by destruct (filter _ ms) as [|? [|? ?]].
  - apply IH.
Qed.

Lemma match_by_name_none (mat_string : string) (ms : list Material)
    (found : bool) (c : DAGCell) (m : Model) :
  Forall (λ mt, to_lower (mat_name mt) ≠ mat_string) ms →
  match_by_name mat_string ms found c m = (Ok (found, c), m).
Proof.
  intros Hnone. by rewrite match_by_name_spec, no_name_match.
Qed.

(** No digit after the blanks and the sign: [std::stoi] throws
    [std::invalid_argument], and only then. *)
Lemma stoi_invalid_iff (str : string) :
  stoi str = conv_invalid_argument
  ↔ leading_digits (strip_sign (skip_space str)).2 = [].
Proof.
  unfold stoi. destruct (strip_sign (skip_space str)) as [neg body]. simpl.
  destruct (leading_digits body) as [|d ds]; [done|].
  split; [|done]. by case_match.
Qed.

(** The verbose report of lines 168-178 never ends in [fatal_error]. *)
Lemma legacy_report_not_fatal (mat_string : string) (found : bool)
    (c : DAGCell) (m m' : Model) (msg : string) :
  (if bool_decide (10 ≤ settings_verbosity) then
     let* m0 := index (material_ c) 0 in
     let* k := map_at material_map m0 in
     let* ms := gets materials in
     let* mt := index ms k in
     write_message
       ("DAGMC material " +:+ mat_string +:+ " was assigned"
        +:+ (if found
             then " using material name: " +:+ mat_name mt
             else " using material id: " +:+ show_int (mat_id_ mt)))
       10
   else ret tt) m ≠ (Stop (fatal_error msg), m').
Proof.
  case_bool_decide; [|done].
  rewrite bind_eq. unfold index at 1.
  destruct (material_ c !! 0%nat); [|done]. unfold ret at 1.
  rewrite bind_eq. unfold map_at. rewrite bind_eq. unfold gets at 1.
  destruct (material_map m !! z); [|done]. unfold ret at 1.
  rewrite bind_eq. unfold gets at 1. rewrite bind_eq. unfold index.
  destruct (materials m !! n); [|done]. unfold ret at 1.
  done.
Qed.

(** The resolution with the report switched off, case by case. *)
Lemma legacy_assign_material_quiet (tag : string) (c : DAGCell) (m : Model) :
  settings_verbosity < 10 →
  legacy_assign_material tag c m =
  match filter (λ mt, to_lower tag = to_lower (mat_name mt)) (materials m) with
  | [] =>
      match stoi (to_lower tag) with
      | conv_value id => (Ok (push_material c id), m)
      | conv_invalid_argument =>
          (Stop (fatal_error
                   ("No material '" +:+ to_lower tag
                    +:+ "' found for volume (cell) " +:+ show_int (id_ c))), m)
      | conv_out_of_range => (Stop uncaught_out_of_range, m)
      end
  | [mt] => (Ok (push_material c (mat_id_ mt)), m)
  | _ =>
      (Stop (fatal_error
               ("More than one material found with name '" +:+ to_lower tag
                +:+ "'. Please ensure materials "
                +:+ "have unique names if using this property to assign materials.")),
       m)
  end.
Proof.
  intros Hquiet. unfold legacy_assign_material.
  rewrite bind_eq. unfold gets at 1. rewrite bind_eq, match_by_name_spec.
  rewrite (bool_decide_eq_false_2 (10 ≤ settings_verbosity)) by lia.
  destruct (filter _ (materials m)) as [|mt [|mt' l]]; [|done..].
  simpl. by destruct (stoi (to_lower tag)).
Qed.
End LegacyFacts.

(** C5 fails on the code at a tag whose digits do not fit an [int]:
    [std::stoi] throws [std::out_of_range], the handler of line 162
    catches [std::invalid_argument] only, and the exception leaves
    [legacy_assign_material] in place of the fatal error that names the
    tag and the cell. *)
Theorem legacy_out_of_range_escapes `{Env} (c : DAGCell) (m : Model) :
  Forall (λ mt, to_lower (mat_name mt) ≠ "99999999999") (materials m) →
  legacy_assign_material "99999999999" c m = (Stop uncaught_out_of_range, m).
Proof.
  intros Hnone. unfold legacy_assign_material.
  rewrite bind_eq. unfold gets at 1.
  rewrite bind_eq, match_by_name_none by exact Hnone. reflexivity.
Qed.

Lemma legacy_out_of_range_escapes_witness :
  legacy_assign_material (H := Example.env 7 Example.mesh)
    "99999999999" Example.fresh_cell Example.csg_model
  = (Stop uncaught_out_of_range, Example.csg_model).
Proof.
  apply (legacy_out_of_range_escapes (H := Example.env 7 Example.mesh)).
  repeat constructor; discriminate.
Defined.

(** C10.  With no material of that name, a tag that starts with an
    integer in range is assigned that integer, whatever follows the
    digits: at any verbosity every run that returns has appended the
    integer to the cell's materials, and no run ends in [fatal_error].
    The run returns when the report is off (verbosity below 10), and
    at any verbosity when the cell's first material is the id of a
    material of the model, which the report looks up.  The fatal error
    that names the tag is raised exactly when no digit follows the
    blanks and the sign. *)
Theorem legacy_accepts_leading_integer `{Env} (tag : string) (c : DAGCell)
    (m : Model) :
  Forall (λ mt, to_lower (mat_name mt) ≠ to_lower tag) (materials m) →
  (∀ id, stoi (to_lower tag) = conv_value id →
     (∀ c' m', legacy_assign_material tag c m = (Ok c', m') →
               c' = push_material c id)
     ∧ (settings_verbosity < 10 →
        legacy_assign_material tag c m = (Ok (push_material c id), m))
     ∧ (∀ m0 k mt,
          material_ (push_material c id) !! 0%nat = Some m0 →
          material_map m !! m0 = Some k → materials m !! k = Some mt →
          ∃ m', legacy_assign_material tag c m
                = (Ok (push_material c id), m'))
     ∧ ∀ msg m', legacy_assign_material tag c m ≠ (Stop (fatal_error msg), m'))
  ∧ ((∃ msg m', legacy_assign_material tag c m = (Stop (fatal_error msg), m'))
     ↔ leading_digits (strip_sign (skip_space (to_lower tag))).2 = [])
  ∧ (leading_digits (strip_sign (skip_space (to_lower tag))).2 = [] →
     legacy_assign_material tag c m
     = (Stop (fatal_error
                ("No material '" +:+ to_lower tag
                 +:+ "' found for volume (cell) " +:+ show_int (id_ c))), m)).
Proof.
  intros Hnone.
  assert (Hfatal : leading_digits (strip_sign (skip_space (to_lower tag))).2 = [] →
     legacy_assign_material tag c m
     = (Stop (fatal_error
                ("No material '" +:+ to_lower tag
                 +:+ "' found for volume (cell) " +:+ show_int (id_ c))), m)).
  { intros Hno. apply stoi_invalid_iff in Hno.
    unfold legacy_assign_material. rewrite bind_eq. unfold gets at 1.
    rewrite bind_eq, match_by_name_none by exact Hnone. simpl.
    rewrite Hno. reflexivity. }
  split; [|split; [split|]]; [| |eauto|exact Hfatal].
  - intros id Hid. split; [|split; [|split]].
    + intros c' m'. unfold legacy_assign_material.
      rewrite bind_eq. unfold gets at 1.
      rewrite bind_eq, match_by_name_none by exact Hnone. simpl.
      rewrite Hid. rewrite bind_eq. unfold ret at 1. rewrite bind_eq.
      match goal with
      | |- context [(if bool_decide _ then ?a else ?b) m] =>
          destruct ((if bool_decide (10 ≤ settings_verbosity) then a else b) m)
            as [[[]|f] m1]
      end.
      * by intros [= <- _].
      * discriminate.
    + intros Hquiet. rewrite legacy_assign_material_quiet by done.
      by rewrite no_name_match, Hid.
    + intros m0 k mt Hm0 Hk Hmt. unfold legacy_assign_material.
      rewrite bind_eq. unfold gets at 1.
      rewrite bind_eq, match_by_name_none by exact Hnone. simpl.
      rewrite Hid. rewrite bind_eq. unfold ret at 1. rewrite bind_eq.
      case_bool_decide; [|by eexists].
      unfold index, map_at. rewrite Hm0.
      unfold bind, gets, ret. cbv beta iota. rewrite Hk.
      cbv beta iota. rewrite Hmt. by eexists.
    + intros msg m'. unfold legacy_assign_material.
      rewrite bind_eq. unfold gets at 1.
      rewrite bind_eq, match_by_name_none by exact Hnone. simpl.
      rewrite Hid. rewrite bind_eq. unfold ret at 1. rewrite bind_eq.
      match goal with
      | |- context [(if bool_decide _ then ?a else ?b) m] =>
          pose proof (legacy_report_not_fatal (to_lower tag) false
                        (push_material c id) m) as Hrep;
          destruct ((if bool_decide (10 ≤ settings_verbosity) then a else b) m)
            as [[[]|f] m1] eqn:Hr
      end.
      * discriminate.
      * intros [= -> ->]. by eapply Hrep.
  - intros (msg & m' & Hrun). apply stoi_invalid_iff.
    destruct (stoi (to_lower tag)) as [id| |] eqn:Hid; [|done|].
    + exfalso. revert Hrun. unfold legacy_assign_material.
      rewrite bind_eq. unfold gets at 1.
      rewrite bind_eq, match_by_name_none by exact Hnone. simpl.
      rewrite Hid. rewrite bind_eq. unfold ret at 1. rewrite bind_eq.
      match goal with
      | |- context [(if bool_decide _ then ?a else ?b) m] =>
          pose proof (legacy_report_not_fatal (to_lower tag) false
                        (push_material c id) m) as Hrep;
          destruct ((if bool_decide (10 ≤ settings_verbosity) then a else b) m)
            as [[[]|f] m1] eqn:Hr
      end.
      * discriminate.
      * intros [= -> ->]. by eapply Hrep.
    + exfalso. revert Hrun. unfold legacy_assign_material.
      rewrite bind_eq. unfold gets at 1.
      rewrite bind_eq, match_by_name_none by exact Hnone. simpl.
      rewrite Hid. discriminate.
Qed.

Lemma legacy_accepts_leading_integer_witness :
  legacy_assign_material (H := Example.env 7 Example.mesh)
    "12abc" Example.fresh_cell Example.csg_model
  = (Ok (push_material Example.fresh_cell 12), Example.csg_model)
  ∧ ∃ m',
      legacy_assign_material (H := Example.env 10 Example.mesh)
        "41abc" Example.fresh_cell Example.csg_model
      = (Ok (push_material Example.fresh_cell 41), m').
Proof.
  split.
  - destruct (legacy_accepts_leading_integer (H := Example.env 7 Example.mesh)
                "12abc" Example.fresh_cell Example.csg_model)
      as (Hint & _ & _).
    + repeat constructor; discriminate.
    + destruct (Hint 12) as (_ & Hrun & _); [reflexivity|].
      apply Hrun. simpl. lia.
  - destruct (legacy_accepts_leading_integer (H := Example.env 10 Example.mesh)
                "41abc" Example.fresh_cell Example.csg_model)
      as (Hint & _ & _).
    + repeat constructor; discriminate.
    + destruct (Hint 41) as (_ & _ & Hrun & _); [reflexivity|].
      apply (Hrun 41 1%nat Example.water); reflexivity.
Defined.

(** ** What a computation leaves alone *)

Section Keeps.
Context {P : Model → Model → Prop} `{!Reflexive P, !Transitive P}.

Lemma keeps_ret {A} (a : A) : keeps P (ret a).
Proof. intros m r m' [= _ <-]. reflexivity. Qed.

Lemma keeps_stop {A} (f : failure) : keeps (A := A) P (stop f).
Proof. intros m r m' [= _ <-]. reflexivity. Qed.

Lemma keeps_gets {A} (f : Model → A) : keeps P (gets f).
Proof. intros m r m' [= _ <-]. reflexivity. Qed.

Lemma keeps_modify (f : Model → Model) :
  (∀ m, P m (f m)) → keeps P (modify f).
Proof. intros Hf m r m' [= _ <-]. apply Hf. Qed.

Lemma keeps_bind {A B} (c : M A) (k : A → M B) :
  keeps P c → (∀ a, keeps P (k a)) → keeps P (bind c k).
Proof.
  intros Hc Hk m r m'. rewrite bind_eq.
  destruct (c m) as [[a|f] m1] eqn:Hrun.
  - intros Hrest. etrans; [eapply Hc, Hrun|eapply Hk, Hrest].
  - intros [= _ <-]. eapply Hc, Hrun.
Qed.

Lemma keeps_when (b : bool) (c : M unit) : keeps P c → keeps P (when b c).
Proof. destruct b; [done|]. intros _. apply keeps_ret. Qed.

Lemma keeps_index {A} (v : list A) (k : nat) : keeps P (index v k).
Proof. unfold index. destruct (v !! k); [apply keeps_ret|apply keeps_stop]. Qed.

Lemma keeps_map_at (f : Model → gmap Z nat) (k : Z) : keeps P (map_at f k).
Proof.
  unfold map_at. apply keeps_bind; [apply keeps_gets|].
  intros mp. destruct (mp !! k); [apply keeps_ret|apply keeps_stop].
Qed.
End Keeps.

#[local] Instance same_collections_refl : Reflexive same_collections.
Proof. by repeat split. Qed.

#[local] Instance same_collections_trans : Transitive same_collections.
Proof.
  unfold same_collections. intros m1 m2 m3 (?&?&?&?) (?&?&?&?).
  repeat split; congruence.
Qed.

(** One step of a proof that a computation keeps a relation: by the
    shape of the computation. *)
Ltac keeps_step :=
  lazymatch goal with
  | |- keeps _ (ret _) => apply keeps_ret
  | |- keeps _ (stop _) => apply keeps_stop
  | |- keeps _ (fatal _) => apply keeps_stop
  | |- keeps _ (gets _) => apply keeps_gets
  | |- keeps _ (index _ _) => apply keeps_index
  | |- keeps _ (map_at _ _) => apply keeps_map_at
  | |- keeps _ (bind _ _) => apply keeps_bind; [|intros ?; cbv beta]
  | |- keeps _ (when _ _) => apply keeps_when
  | |- keeps _ (modify _) => apply keeps_modify; intros ?; by repeat split
  | |- keeps _ (match ?x with _ => _ end) => destruct x
  | |- keeps _ _ => solve [eauto]
  end.

Ltac keeps_tac := repeat keeps_step.

Section CellFacts.
Context `{Env}.

Lemma keeps_warning (msg : string) : keeps same_collections (warning msg).
Proof. unfold warning. keeps_tac. Qed.

Lemma keeps_write_message (msg : string) (level : Z) :
  keeps same_collections (write_message msg level).
Proof. unfold write_message. keeps_tac. Qed.

Lemma keeps_match_by_name (mat_string : string) (ms : list Material)
    (found : bool) (c : DAGCell) :
  keeps same_collections (match_by_name mat_string ms found c).
Proof.
  revert found c. induction ms as [|mt ms IH]; intros found c; simpl;
    keeps_tac.
Qed.

Lemma keeps_legacy_assign_material (tag : string) (c : DAGCell) :
  keeps same_collections (legacy_assign_material tag c).
Proof.
  unfold legacy_assign_material.
  pose proof keeps_match_by_name. pose proof keeps_write_message.
  keeps_tac.
Qed.

Lemma keeps_register_cell (u : DAGUniverse) (c : DAGCell) :
  keeps same_collections (register_cell u c).
Proof.
  unfold register_cell. pose proof keeps_warning. keeps_tac.
Qed.

Lemma keeps_register_surface (u : DAGUniverse) (s : DAGSurface) :
  keeps same_collections (register_surface u s).
Proof.
  unfold register_surface. pose proof keeps_warning. keeps_tac.
Qed.

Lemma keeps_assign_material (u : DAGUniverse) (using_uwuw : bool)
    (vol : Volume) (mat_str : string) (c : DAGCell) :
  keeps same_collections (assign_material u using_uwuw vol mat_str c).
Proof.
  unfold assign_material. pose proof keeps_legacy_assign_material.
  keeps_tac.
Qed.

Lemma keeps_assign_temperature (vol : Volume) (c : DAGCell) :
  keeps same_collections (assign_temperature vol c).
Proof. unfold assign_temperature. keeps_tac. Qed.

Lemma keeps_classify_bc (bc_value : string) (s : DAGSurface) :
  keeps same_collections (classify_bc bc_value s).
Proof. unfold classify_bc. keeps_tac. Qed.
End CellFacts.

(** ** One volume *)

Section VolumeFacts.
Context `{Env}.

Lemma legacy_assign_material_ok_inv (tag : string) (c c' : DAGCell)
    (m m' : Model) :
  legacy_assign_material tag c m = (Ok c', m') →
  ∃ id, c' = push_material c id.
Proof.
  unfold legacy_assign_material. intros Hrun.
  bind_inv Hrun as ms m1 Hms. apply gets_inv in Hms as [-> ->].
  bind_inv Hrun as [found c1] m2 Hloop. rewrite match_by_name_spec in Hloop.
  bind_inv Hrun as c2 m3 Hid. bind_inv Hrun as [] m4 _.
  apply ret_inv in Hrun as [-> _].
  destruct (filter _ (materials m)) as [|mt [|mt' l]];
    [| |discriminate]; injection Hloop as <- <- <-; simpl in Hid.
  - destruct (stoi (to_lower tag)); [|discriminate..].
    apply ret_inv in Hid as [-> _]. eauto.
  - apply ret_inv in Hid as [-> _]. eauto.
Qed.

Lemma assign_material_ok_inv (u : DAGUniverse) (using_uwuw : bool)
    (vol : Volume) (mat_str : string) (c c' : DAGCell) (m m' : Model) :
  assign_material u using_uwuw vol mat_str c m = (Ok c', m') →
  ∃ id, c' = push_material c id ∧ (mat_str ∈ void_tags → id = MATERIAL_VOID).
Proof.
  unfold assign_material. intros Hrun.
  destruct (bool_decide (mat_str = "void") || bool_decide (mat_str = "vacuum")
            || bool_decide (mat_str = "graveyard")) eqn:Hvoid.
  { apply ret_inv in Hrun as [-> _]. eauto. }
  assert (mat_str ∉ void_tags) as Hnot.
  { unfold void_tags. rewrite !elem_of_cons, elem_of_nil.
    apply orb_false_elim in Hvoid as [Hvoid Hg].
    apply orb_false_elim in Hvoid as [Hv Hc].
    apply bool_decide_eq_false in Hv, Hc, Hg. tauto. }
  destruct using_uwuw.
  - destruct (library_number _ _) as [n|]; [|discriminate].
    apply ret_inv in Hrun as [-> _]. exists n. split; [done|]. intros; tauto.
  - apply legacy_assign_material_ok_inv in Hrun as [id ->].
    exists id. split; [done|]. intros; tauto.
Qed.

Lemma assign_material_void (u : DAGUniverse) (using_uwuw : bool)
    (vol : Volume) (mat_str : string) (c : DAGCell) (m : Model) :
  mat_str ∈ void_tags →
  assign_material u using_uwuw vol mat_str c m
  = (Ok (push_material c MATERIAL_VOID), m).
Proof.
  unfold void_tags. rewrite !elem_of_cons, elem_of_nil.
  intros [->|[->|[->|[]]]]; reflexivity.
Qed.

Lemma assign_temperature_run (vol : Volume) (c : DAGCell) (m : Model)
    (mid : Z) (k : nat) (mat : Material) (T : float) :
  material_ c !! 0%nat = Some mid → material_map m !! mid = Some k →
  materials m !! k = Some mat → chosen_temperature vol mat T →
  assign_temperature vol c m
  = (Ok (push_sqrtkT c (PrimFloat.sqrt (K_BOLTZMANN * T))), m).
Proof.
  intros Hmid Hk Hmat HT.
  unfold assign_temperature, index, map_at, bind, gets, ret.
  rewrite Hmid, Hk, Hmat.
  unfold chosen_temperature in HT. destruct (vol_temp vol) as [tv|].
  - rewrite HT. reflexivity.
  - rewrite HT. destruct (0 <? mat_temperature mat)%float; reflexivity.
Qed.

Lemma assign_temperature_ok_inv (vol : Volume) (c c' : DAGCell)
    (m m' : Model) :
  assign_temperature vol c m = (Ok c', m') →
  m' = m
  ∧ ∃ mid k mat T,
      material_ c !! 0%nat = Some mid ∧ material_map m !! mid = Some k
      ∧ materials m !! k = Some mat ∧ chosen_temperature vol mat T
      ∧ c' = push_sqrtkT c (PrimFloat.sqrt (K_BOLTZMANN * T)).
Proof.
  unfold assign_temperature. intros Hrun.
  bind_inv Hrun as mid m1 Hmid. unfold index in Hmid.
  destruct (material_ c !! 0%nat) as [mid'|] eqn:Hc; [|discriminate].
  apply ret_inv in Hmid as [-> ->].
  bind_inv Hrun as k m2 Hk. unfold map_at in Hk.
  bind_inv Hk as mp m3 Hmp. apply gets_inv in Hmp as [-> ->].
  destruct (material_map m !! mid') as [k'|] eqn:Hmap; [|discriminate].
  apply ret_inv in Hk as [-> ->].
  bind_inv Hrun as ms m4 Hms. apply gets_inv in Hms as [-> ->].
  bind_inv Hrun as mat m5 Hmat. unfold index in Hmat.
  destruct (materials m !! k') as [mat'|] eqn:Hmats; [|discriminate].
  apply ret_inv in Hmat as [-> ->].
  unfold chosen_temperature.
  destruct (vol_temp vol) as [tv|].
  - destruct (stod tv) as [T| |] eqn:HT; [|discriminate..].
    apply ret_inv in Hrun as [-> ->]. split; [done|].
    exists mid', k', mat', T. by repeat split.
  - split; [by destruct (0 <? mat_temperature mat')%float;
            apply ret_inv in Hrun as [_ ->]|].
    exists mid', k', mat', (if (0 <? mat_temperature mat')%float
                            then mat_temperature mat'
                            else settings_temperature_default).
    repeat split; try done.
    by destruct (0 <? mat_temperature mat')%float;
      apply ret_inv in Hrun as [-> _].
Qed.

(** The id that line 293 gives the cell. *)
Lemma init_cell_ok_inv (u : DAGUniverse) (using_uwuw : bool) (i : nat)
    (vol : Volume) (next_cell_id graveyard next' graveyard' : Z)
    (m m' : Model) :
  init_cell u using_uwuw i vol next_cell_id graveyard m
  = (Ok (next', graveyard'), m') →
  ∃ c mid,
    cells m' = cells m ++ [c] ∧ surfaces m' = surfaces m
    ∧ materials m' = materials m ∧ material_map m' = material_map m
    ∧ id_ c = (if adjust_geometry_ids_ u then next_cell_id else vol_id vol)
    ∧ next' = (if adjust_geometry_ids_ u then wrap32 (next_cell_id + 1)
               else next_cell_id)
    ∧ dag_index_ c = Z.of_nat i + 1
    ∧ material_ c = [mid]
    ∧ (to_lower (vol_material vol) ∈ void_tags → mid = MATERIAL_VOID)
    ∧ (mid = MATERIAL_VOID → sqrtkT_ c = [])
    ∧ (mid ≠ MATERIAL_VOID →
       ∃ k mat T,
         material_map m !! mid = Some k ∧ materials m !! k = Some mat
         ∧ chosen_temperature vol mat T
         ∧ sqrtkT_ c = [PrimFloat.sqrt (K_BOLTZMANN * T)]).
Proof.
  unfold init_cell. intros Hrun.
  set (c0 := {| dag_index_ := Z.of_nat i + 1;
                id_ := if adjust_geometry_ids_ u then next_cell_id
                       else vol_id vol;
                universe_ := univ_id_ u; fill_ := C_NONE;
                material_ := []; sqrtkT_ := [] |}) in *.
  bind_inv Hrun as [] m1 Hreg.
  pose proof (keeps_register_cell u c0 m _ _ Hreg) as Hm1.
  assert (cell_map m !! id_ c0 = None) as Hfree.
  { destruct (cell_map m !! id_ c0) eqn:Hk; [|done].
    rewrite register_cell_taken in Hreg by eauto. discriminate. }
  bind_inv Hrun as [] m2 Hempty.
  pose proof (keeps_when (P := same_collections) _ _ (keeps_stop _)
                m1 _ _ Hempty) as Hm2.
  bind_inv Hrun as c1 m3 Hmat.
  pose proof (keeps_assign_material _ _ _ _ _ _ _ _ Hmat) as Hm3.
  apply assign_material_ok_inv in Hmat as (mid & -> & Hvoid).
  bind_inv Hrun as mid' m4 Hidx. apply ret_inv in Hidx as [-> ->].
  assert (same_collections m m3) as (Hc & Hs & Hms & Hmm)
    by (etrans; [exact Hm1|]; etrans; [exact Hm2|exact Hm3]).
  case_bool_decide as Hv.
  - bind_inv Hrun as [] m5 Hmod. apply modify_inv in Hmod as ->.
    apply ret_inv in Hrun as [[= -> ->] ->].
    exists (push_material c0 mid), mid. simpl. rewrite Hc, Hs, Hms, Hmm.
    repeat split; try done.
  - bind_inv Hrun as c2 m5 Htemp.
    apply assign_temperature_ok_inv in Htemp
      as (-> & mid' & k & mat & T & Hmid & Hk & Hmat & HT & ->).
    injection Hmid as <-.
    bind_inv Hrun as [] m6 Hmod. apply modify_inv in Hmod as ->.
    apply ret_inv in Hrun as [[= -> ->] ->].
    exists (push_sqrtkT (push_material c0 mid) (PrimFloat.sqrt (K_BOLTZMANN * T))),
      mid. simpl. rewrite Hc, Hs, Hms, Hmm.
    repeat split; try done.
    intros _. exists k, mat, T. by rewrite <-Hmm, <-Hms.
Qed.

Lemma init_cell_stop (u : DAGUniverse) (using_uwuw : bool) (i : nat)
    (vol : Volume) (next_cell_id graveyard : Z) (f : failure) (m m' : Model) :
  init_cell u using_uwuw i vol next_cell_id graveyard m = (Stop f, m') →
  same_collections m m'.
Proof.
  unfold init_cell.
  set (c0 := {| dag_index_ := Z.of_nat i + 1;
                id_ := if adjust_geometry_ids_ u then next_cell_id
                       else vol_id vol;
                universe_ := univ_id_ u; fill_ := C_NONE;
                material_ := []; sqrtkT_ := [] |}).
  rewrite bind_eq.
  destruct (register_cell u c0 m) as [[[]|f1] m1] eqn:Hreg;
    pose proof (keeps_register_cell _ _ _ _ _ Hreg) as Hm1;
    [|by intros [= _ <-]].
  rewrite bind_eq.
  destruct (when _ _ m1) as [[[]|f2] m2] eqn:Hempty;
    pose proof (keeps_when (P := same_collections) _ _ (keeps_stop _)
                  _ _ _ Hempty) as Hm2;
    [|intros [= _ <-]; by etrans].
  rewrite bind_eq.
  destruct (assign_material _ _ _ _ _ m2) as [[c1|f3] m3] eqn:Hmat;
    pose proof (keeps_assign_material _ _ _ _ _ _ _ _ Hmat) as Hm3;
    [|intros [= _ <-]; etrans; [exact Hm1|by etrans]].
  rewrite bind_eq.
  destruct (index (material_ c1) 0 m3) as [[mid|f4] m4] eqn:Hidx;
    pose proof (keeps_index (P := same_collections) _ _ _ _ _ Hidx) as Hm4;
    [|intros [= _ <-]; etrans; [exact Hm1|]; etrans; [exact Hm2|by etrans]].
  destruct (bool_decide (mid = MATERIAL_VOID)); [discriminate|].
  rewrite bind_eq.
  destruct (assign_temperature vol c1 m4) as [[c2|f5] m5] eqn:Htemp;
    pose proof (keeps_assign_temperature _ _ _ _ _ Htemp) as Hm5;
    [discriminate|].
  intros [= _ <-].
  etrans; [exact Hm1|]; etrans; [exact Hm2|]; etrans; [exact Hm3|by etrans].
Qed.
End VolumeFacts.

(** C6, amended.  A cell that the volume loop builds has one material.
    For the tags "void", "vacuum" and "graveyard" (in any case) it is
    the void sentinel, and such a cell is built whenever its id is
    free.  The temperature list is empty when the material is the void
    sentinel and has one entry otherwise: the test of line 346 is on
    the resolved material, not on the tag. *)
Theorem void_cell_invariant `{Env} (u : DAGUniverse) (using_uwuw : bool)
    (i : nat) (vol : Volume) (next_cell_id graveyard : Z) (m : Model) :
  (∀ next' graveyard' m',
     init_cell u using_uwuw i vol next_cell_id graveyard m
     = (Ok (next', graveyard'), m') →
     ∃ c mid,
       cells m' = cells m ++ [c] ∧ material_ c = [mid]
       ∧ (to_lower (vol_material vol) ∈ void_tags → mid = MATERIAL_VOID)
       ∧ (mid = MATERIAL_VOID → sqrtkT_ c = [])
       ∧ (mid ≠ MATERIAL_VOID → length (sqrtkT_ c) = 1%nat))
  ∧ (to_lower (vol_material vol) ∈ void_tags →
     cell_map m !! (if adjust_geometry_ids_ u then next_cell_id
                    else vol_id vol) = None →
     ∃ r m', init_cell u using_uwuw i vol next_cell_id graveyard m
             = (Ok r, m')).
Proof.
  split.
  - intros next' graveyard' m' Hrun.
    apply init_cell_ok_inv in Hrun
      as (c & mid & Hc & _ & _ & _ & _ & _ & _ & Hmat & Hvoid & Hnone & Hone).
    exists c, mid. repeat split; try done.
    intros Hne. destruct (Hone Hne) as (k & mat & T & _ & _ & _ & ->). done.
  - intros Htag Hfree. unfold init_cell.
    rewrite bind_eq, register_cell_free by exact Hfree.
    assert (vol_material vol ≠ "") as Hne.
    { intros Heq. rewrite Heq in Htag. revert Htag. unfold void_tags.
      rewrite !elem_of_cons, elem_of_nil. simpl.
      intros [?|[?|[?|[]]]]; discriminate. }
    rewrite (bool_decide_eq_false_2 _ Hne). unfold when. rewrite bind_eq.
    unfold ret at 1. rewrite bind_eq, assign_material_void by exact Htag.
    rewrite bind_eq. unfold index, push_material. simpl. unfold ret at 1.
    rewrite bool_decide_eq_true_2 by done. eexists _, _. reflexivity.
Qed.

Lemma void_cell_invariant_witness :
  let H := Example.env 7 Example.mesh in
  ∃ r m' c,
    init_cell (H := H) (Example.universe Example.mesh false) false 1
      (Example.volume 102 6 "Graveyard" None) 1 0 Example.csg_model
    = (Ok r, m')
    ∧ cells m' = cells Example.csg_model ++ [c]
    ∧ material_ c = [-1] ∧ sqrtkT_ c = [].
Proof.
  intros H.
  destruct (void_cell_invariant (H := H) (Example.universe Example.mesh false)
              false 1 (Example.volume 102 6 "Graveyard" None) 1 0
              Example.csg_model) as [Hinv Hruns].
  destruct Hruns as ([next' graveyard'] & m' & Hrun).
  - do 2 apply list_elem_of_further. apply list_elem_of_here.
  - reflexivity.
  - destruct (Hinv _ _ _ Hrun) as (c & mid & Hc & Hmat & Hvoid & Hnone & _).
    assert (mid = -1) as ->.
    { apply Hvoid. do 2 apply list_elem_of_further. apply list_elem_of_here. }
    exists (next', graveyard'), m', c.
    split; [exact Hrun|]. split; [exact Hc|]. split; [exact Hmat|].
    by apply Hnone.
Defined.

(** C6 as stated fails for a volume whose tag is not one of the three
    but resolves to the void sentinel: in legacy mode the tag "-1" names
    no material, [std::stoi] reads it as -1, and the cell is void, with
    no temperature. *)
Lemma minus_one_tag_is_void :
  let H := Example.env 7 Example.mesh in
  ∃ r m' c,
    init_cell (H := H) (Example.universe Example.mesh false) false 0
      (Example.volume 101 5 "-1" None) 1 0 Example.csg_model
    = (Ok r, m')
    ∧ cells m' = cells Example.csg_model ++ [c]
    ∧ (to_lower "-1" ∉ void_tags)
    ∧ material_ c = [MATERIAL_VOID]
    ∧ length (sqrtkT_ c) ≠ 1%nat.
Proof.
  intros H. eexists _, _, _. split; [vm_compute; reflexivity|].
  split; [reflexivity|]. split; [|split; [reflexivity|simpl; lia]].
  unfold void_tags. rewrite !elem_of_cons, elem_of_nil. simpl.
  intros [?|[?|[?|[]]]]; discriminate.
Qed.

(** C8.  A cell built with a material other than the void sentinel
    stores the single value [sqrt (K_BOLTZMANN * T)], where [T] is the
    volume's "temp" property when it has one, else the temperature of
    the resolved material when that is positive, else the default of
    the settings; and with the material found in the map and the
    property readable, the assignment returns that value. *)
Theorem cell_temperature `{Env} (u : DAGUniverse) (using_uwuw : bool)
    (i : nat) (vol : Volume) (next_cell_id graveyard : Z) (m : Model) :
  (∀ next' graveyard' m',
     init_cell u using_uwuw i vol next_cell_id graveyard m
     = (Ok (next', graveyard'), m') →
     ∃ c mid,
       cells m' = cells m ++ [c] ∧ material_ c = [mid]
       ∧ (mid ≠ MATERIAL_VOID →
          ∃ k mat T,
            material_map m !! mid = Some k ∧ materials m !! k = Some mat
            ∧ chosen_temperature vol mat T
            ∧ sqrtkT_ c = [PrimFloat.sqrt (K_BOLTZMANN * T)]))
  ∧ (∀ c mid k mat T,
       material_ c !! 0%nat = Some mid → material_map m !! mid = Some k →
       materials m !! k = Some mat → chosen_temperature vol mat T →
       assign_temperature vol c m
       = (Ok (push_sqrtkT c (PrimFloat.sqrt (K_BOLTZMANN * T))), m)).
Proof.
  split.
  - intros next' graveyard' m' Hrun.
    apply init_cell_ok_inv in Hrun
      as (c & mid & Hc & _ & _ & _ & _ & _ & _ & Hmat & _ & _ & Hone).
    exists c, mid. by repeat split.
  - intros c mid k mat T. apply assign_temperature_run.
Qed.

Lemma cell_temperature_witness :
  let H := Example.env 7 Example.mesh in
  ∃ r m' c,
    init_cell (H := H) (Example.universe Example.mesh false) false 0
      (Example.volume 101 5 "Steel" (Some "300")) 1 0 Example.csg_model
    = (Ok r, m')
    ∧ cells m' = cells Example.csg_model ++ [c]
    ∧ material_ c = [40]
    ∧ sqrtkT_ c = [PrimFloat.sqrt (K_BOLTZMANN * 300)%float].
Proof.
  intros H.
  destruct (init_cell (H := H) (Example.universe Example.mesh false) false 0
              (Example.volume 101 5 "Steel" (Some "300")) 1 0
              Example.csg_model) as [[[next' graveyard']|f] m'] eqn:Hrun;
    [|vm_compute in Hrun; discriminate].
  destruct (cell_temperature (H := H) (Example.universe Example.mesh false)
              false 0 (Example.volume 101 5 "Steel" (Some "300")) 1 0
              Example.csg_model) as [Hinv _].
  destruct (Hinv _ _ _ Hrun) as (c & mid & Hc & Hmat & Htemp).
  exists (next', graveyard'), m', c.
  assert (mid = 40) as ->.
  { vm_compute in Hrun. injection Hrun as _ _ <-.
    apply (f_equal (λ l, material_ <$> l)) in Hc. simpl in Hc.
    rewrite Hmat in Hc. by injection Hc as <-. }
  destruct Htemp as (k & mat & T & _ & _ & HT & Hs); [discriminate|].
  injection HT as <-.
  split; [reflexivity|]. split; [exact Hc|]. split; [exact Hmat|exact Hs].
Defined.

(** ** The loops *)

#[local] Instance same_geometry_refl : Reflexive same_geometry.
Proof. by split. Qed.

#[local] Instance same_geometry_trans : Transitive same_geometry.
Proof.
  unfold same_geometry. intros m1 m2 m3 [??] [??]. split; congruence.
Qed.

Lemma same_collections_geometry (m m' : Model) :
  same_collections m m' → same_geometry m m'.
Proof. intros (?&?&_). by split. Qed.

Lemma keeps_weaken {A} (P Q : Model → Model → Prop) (c : M A) :
  (∀ m m', P m m' → Q m m') → keeps P c → keeps Q c.
Proof. intros HPQ Hc m r m' Hrun. eapply HPQ, Hc, Hrun. Qed.

Lemma highest_id_spec {A} (id : A → Z) (l : list A) :
  0 ≤ highest_id id l
  ∧ (∀ x, x ∈ l → id x ≤ highest_id id l)
  ∧ (highest_id id l = 0 ∨ ∃ x, x ∈ l ∧ id x = highest_id id l).
Proof.
  unfold highest_id.
  assert (∀ acc, 0 ≤ acc →
    let h := fold_left (λ next x, if decide (id x > next) then id x else next)
               l acc in
    acc ≤ h ∧ (∀ x, x ∈ l → id x ≤ h) ∧ (h = acc ∨ ∃ x, x ∈ l ∧ id x = h))
    as Hgen.
  { induction l as [|y l IH]; intros acc Hacc; simpl.
    - split; [lia|]. split; [|by left]. intros x Hx. by apply elem_of_nil in Hx.
    - destruct (decide (id y > acc)) as [Hgt|Hle].
      + destruct (IH (id y)) as (Hge & Hall & Hmax); [lia|].
        split; [lia|]. split.
        * intros x [->|Hx]%elem_of_cons; [done|by apply Hall].
        * right. destruct Hmax as [->|(x & Hx & <-)].
          -- exists y. split; [apply list_elem_of_here|done].
          -- exists x. split; [by apply list_elem_of_further|done].
      + destruct (IH acc Hacc) as (Hge & Hall & Hmax).
        split; [done|]. split.
        * intros x [->|Hx]%elem_of_cons; [lia|by apply Hall].
        * destruct Hmax as [->|(x & Hx & <-)]; [by left|].
          right. exists x. split; [by apply list_elem_of_further|done]. }
  destruct (Hgen 0) as (Hge & Hall & Hmax); [lia|]. done.
Qed.

Lemma highest_id_attained {A} (id : A → Z) (l : list A) :
  l ≠ [] → Forall (λ x, 0 ≤ id x) l →
  ∃ x, x ∈ l ∧ id x = highest_id id l.
Proof.
  intros Hne Hpos.
  destruct (highest_id_spec id l) as (_ & Hall & [Hzero|Hmax]); [|done].
  destruct l as [|x l]; [done|]. exists x. split; [apply list_elem_of_here|].
  apply Forall_cons in Hpos as [Hx _].
  specialize (Hall x (list_elem_of_here _ _)). lia.
Qed.

Section LoopFacts.
Context `{Env}.

Lemma init_cells_ids (u : DAGUniverse) (using_uwuw : bool)
    (vols : list Volume) (i : nat) (next_cell_id graveyard : Z)
    (m m' : Model) (r : result (Z * Z)) :
  adjust_geometry_ids_ u = true →
  INT_MIN ≤ next_cell_id → next_cell_id + Z.of_nat (length vols) ≤ INT_MAX →
  init_cells u using_uwuw i vols next_cell_id graveyard m = (r, m') →
  ∃ new,
    cells m' = cells m ++ new ∧ surfaces m' = surfaces m
    ∧ id_ <$> new = seqZ next_cell_id (Z.of_nat (length new))
    ∧ dag_index_ <$> new = seqZ (Z.of_nat i + 1) (Z.of_nat (length new))
    ∧ (length new ≤ length vols)%nat
    ∧ (∀ x, r = Ok x → length new = length vols).
Proof.
  intros Hadj. revert i next_cell_id graveyard m.
  induction vols as [|vol vols IH]; intros i next graveyard m Hlo Hhi Hrun.
  { apply ret_inv' in Hrun as [-> ->]. exists []. rewrite app_nil_r. done. }
  cbn [init_cells] in Hrun. rewrite bind_eq in Hrun.
  destruct (init_cell u using_uwuw i vol next graveyard m)
    as [[[next1 graveyard1]|f] m1] eqn:Hstep.
  - apply init_cell_ok_inv in Hstep
      as (c & mid & Hc & Hs & _ & _ & Hid & Hnext & Hdag & _).
    rewrite Hadj in Hid, Hnext. simpl in Hhi.
    rewrite wrap32_id in Hnext
      by (unfold in_int, INT_MIN, INT_MAX in *; lia).
    subst next1.
    apply IH in Hrun as (new & Hc' & Hs' & Hids & Hdags & Hlen & Hall);
      [|lia..].
    exists (c :: new). rewrite Hc', Hc, <-app_assoc. simpl.
    split; [done|]. split; [congruence|].
    split; [|split; [|split; [lia|]]].
    + change (id_ c :: (id_ <$> new) = seqZ next (Z.of_nat (S (length new)))).
      rewrite Hids, Hid.
      rewrite (seqZ_cons next) by lia. f_equal. f_equal; lia.
    + change (dag_index_ c :: (dag_index_ <$> new)
              = seqZ (Z.of_nat i + 1) (Z.of_nat (S (length new)))).
      rewrite Hdags, Hdag.
      rewrite (seqZ_cons (Z.of_nat i + 1)) by lia. f_equal. f_equal; lia.
    + intros x Hx. by rewrite (Hall x Hx).
  - injection Hrun as <- <-.
    apply init_cell_stop, same_collections_geometry in Hstep as [Hc Hs].
    exists []. rewrite app_nil_r. simpl. split; [done|].
    split; [done|]. split; [done|]. split; [done|]. split; [lia|].
    discriminate.
Qed.

Lemma init_surface_inv (u : DAGUniverse) (i : nat) (surf : Surface)
    (next_surf_id graveyard : Z) (m m' : Model) (r : result Z) :
  init_surface u i surf next_surf_id graveyard m = (r, m') →
  match r with
  | Ok next' =>
      ∃ s, surfaces m' = surfaces m ++ [s] ∧ cells m' = cells m
           ∧ surf_id_ s = (if adjust_geometry_ids_ u then next_surf_id
                           else surf_id surf)
           ∧ next' = (if adjust_geometry_ids_ u
                      then wrap32 (next_surf_id + 1) else next_surf_id)
           ∧ surf_dag_index_ s = Z.of_nat i + 1
  | Stop _ => same_geometry m m'
  end.
Proof.
  unfold init_surface. rewrite bind_eq.
  destruct (classify_bc _ _ m) as [[s1|f1] m1] eqn:Hcl;
    pose proof (keeps_classify_bc _ _ _ _ _ Hcl) as Hm1%same_collections_geometry;
    [|by intros [= <- <-]].
  apply classify_bc_ok_inv in Hcl as (_ & Hid & Hdag). simpl in Hid, Hdag.
  rewrite bind_eq.
  destruct (register_surface _ _ m1) as [[[]|f2] m2] eqn:Hreg;
    pose proof (keeps_register_surface _ _ _ _ _ Hreg)
      as Hm2%same_collections_geometry;
    [|intros [= <- <-]; by etrans].
  intros [= <- <-]. destruct Hm1 as [Hc1 Hs1], Hm2 as [Hc2 Hs2].
  eexists. simpl. rewrite Hs2, Hs1, Hc2, Hc1.
  split; [reflexivity|]. split; [done|]. split; [|split; [done|]].
  - by rewrite graveyard_check_id, Hid.
  - rewrite <-Hdag. unfold graveyard_check. destruct (_ && _); reflexivity.
Qed.

Lemma init_surfaces_ids (u : DAGUniverse) (surfs : list Surface) (i : nat)
    (next_surf_id graveyard : Z) (m m' : Model) (r : result Z) :
  adjust_geometry_ids_ u = true →
  INT_MIN ≤ next_surf_id → next_surf_id + Z.of_nat (length surfs) ≤ INT_MAX →
  init_surfaces u i surfs next_surf_id graveyard m = (r, m') →
  ∃ new,
    surfaces m' = surfaces m ++ new ∧ cells m' = cells m
    ∧ surf_id_ <$> new = seqZ next_surf_id (Z.of_nat (length new))
    ∧ surf_dag_index_ <$> new = seqZ (Z.of_nat i + 1) (Z.of_nat (length new))
    ∧ (length new ≤ length surfs)%nat
    ∧ (∀ x, r = Ok x → length new = length surfs).
Proof.
  intros Hadj. revert i next_surf_id m.
  induction surfs as [|surf surfs IH]; intros i next m Hlo Hhi Hrun.
  { apply ret_inv' in Hrun as [-> ->]. exists []. rewrite app_nil_r. done. }
  cbn [init_surfaces] in Hrun. rewrite bind_eq in Hrun.
  destruct (init_surface u i surf next graveyard m) as [[next1|f] m1] eqn:Hstep;
    apply init_surface_inv in Hstep.
  - destruct Hstep as (s & Hs & Hc & Hid & Hnext & Hdag).
    rewrite Hadj in Hid, Hnext. simpl in Hhi.
    rewrite wrap32_id in Hnext
      by (unfold in_int, INT_MIN, INT_MAX in *; lia).
    subst next1.
    apply IH in Hrun as (new & Hs' & Hc' & Hids & Hdags & Hlen & Hall);
      [|lia..].
    exists (s :: new). rewrite Hs', Hs, <-app_assoc. simpl.
    split; [done|]. split; [congruence|].
    split; [|split; [|split; [lia|]]].
    + change (surf_id_ s :: (surf_id_ <$> new)
              = seqZ next (Z.of_nat (S (length new)))).
      rewrite Hids, Hid.
      rewrite (seqZ_cons next) by lia. f_equal. f_equal; lia.
    + change (surf_dag_index_ s :: (surf_dag_index_ <$> new)
              = seqZ (Z.of_nat i + 1) (Z.of_nat (S (length new)))).
      rewrite Hdags, Hdag.
      rewrite (seqZ_cons (Z.of_nat i + 1)) by lia. f_equal. f_equal; lia.
    + intros x Hx. by rewrite (Hall x Hx).
  - injection Hrun as <- <-. destruct Hstep as [Hc Hs].
    exists []. rewrite app_nil_r. simpl. split; [done|].
    split; [done|]. split; [done|]. split; [done|]. split; [lia|].
    discriminate.
Qed.

Lemma keeps_read_uwuw_materials (u : DAGUniverse) :
  keeps same_geometry (read_uwuw_materials u).
Proof. unfold read_uwuw_materials. keeps_tac. Qed.
End LoopFacts.

Lemma bind_gets {A B} (f : Model → A) (k : A → M B) (m : Model) :
  bind (gets f) k m = k (f m) m.
Proof. reflexivity. Qed.

Lemma keeps_geometry_write_message `{Env} (b : bool) (msg : string) (level : Z) :
  keeps same_geometry (when b (write_message msg level)).
Proof.
  apply keeps_when.
  eapply keeps_weaken; [apply same_collections_geometry|].
  apply keeps_write_message.
Qed.

Lemma keeps_geometry_overlaps `{Env} (b : bool) :
  keeps same_geometry
    (when b (let* n := gets (λ m, length (cells m)) in
             modify (set_overlap_check_count (resize0 n)))).
Proof. keeps_tac. Qed.

Lemma keeps_geometry_warning `{Env} (b : bool) (msg : string) :
  keeps same_geometry (when b (warning msg)).
Proof.
  apply keeps_when.
  eapply keeps_weaken; [apply same_collections_geometry|].
  apply keeps_warning.
Qed.

(** C7.  In renumber mode the cells that [initialize] appends carry the
    ids h+1, h+2, ... in the order of the mesh enumeration (the k-th new
    cell is the volume of index k), where h is the highest id of the
    cells present before (ids are not negative), and 0 when there is
    no cell before, so that the ids are then 1, 2, 3, ...  The surfaces
    likewise.  A run
    that returns has appended one cell per volume and one surface per
    surface of the mesh; a run that stops has appended a prefix. *)
Theorem renumbered_ids `{Env} (u : DAGUniverse) (m m' : Model)
    (r : result DAGUniverse) :
  let vols := h5m_volumes (load_file (filename_ u)) in
  let surfs := h5m_surfaces (load_file (filename_ u)) in
  let h_cell := highest_id id_ (cells m) in
  let h_surf := highest_id surf_id_ (surfaces m) in
  adjust_geometry_ids_ u = true →
  h_cell + Z.of_nat (length vols) < INT_MAX →
  h_surf + Z.of_nat (length surfs) < INT_MAX →
  initialize u m = (r, m') →
  ((∀ c, c ∈ cells m → id_ c ≤ h_cell)
   ∧ (cells m ≠ [] → Forall (λ c, 0 ≤ id_ c) (cells m) →
      ∃ c, c ∈ cells m ∧ id_ c = h_cell)
   ∧ (∀ s, s ∈ surfaces m → surf_id_ s ≤ h_surf)
   ∧ (surfaces m ≠ [] → Forall (λ s, 0 ≤ surf_id_ s) (surfaces m) →
      ∃ s, s ∈ surfaces m ∧ surf_id_ s = h_surf))
  ∧ ∃ new_cells new_surfaces,
      cells m' = cells m ++ new_cells
      ∧ surfaces m' = surfaces m ++ new_surfaces
      ∧ id_ <$> new_cells = seqZ (h_cell + 1) (Z.of_nat (length new_cells))
      ∧ dag_index_ <$> new_cells = seqZ 1 (Z.of_nat (length new_cells))
      ∧ surf_id_ <$> new_surfaces
        = seqZ (h_surf + 1) (Z.of_nat (length new_surfaces))
      ∧ surf_dag_index_ <$> new_surfaces
        = seqZ 1 (Z.of_nat (length new_surfaces))
      ∧ (cells m = [] →
         id_ <$> new_cells = seqZ 1 (Z.of_nat (length new_cells)))
      ∧ (∀ u', r = Ok u' →
         length new_cells = length vols
         ∧ length new_surfaces = length surfs).
Proof.
  intros vols surfs h_cell h_surf Hadj Hcb Hsb Hrun.
  destruct (highest_id_spec id_ (cells m)) as (Hc0 & Hcall & Hcmax).
  destruct (highest_id_spec surf_id_ (surfaces m)) as (Hs0 & Hsall & Hsmax).
  split.
  { split; [done|]. split; [|split; [done|]].
    - by apply highest_id_attained.
    - by apply highest_id_attained. }
  assert (∀ new_cells : list DAGCell,
            id_ <$> new_cells = seqZ (h_cell + 1) (Z.of_nat (length new_cells)) →
            cells m = [] →
            id_ <$> new_cells = seqZ 1 (Z.of_nat (length new_cells))) as Hfirst.
  { intros new Hids Hnil. rewrite Hids. unfold h_cell. by rewrite Hnil. }
  assert (∃ new_cells new_surfaces,
      cells m' = cells m ++ new_cells
      ∧ surfaces m' = surfaces m ++ new_surfaces
      ∧ id_ <$> new_cells = seqZ (h_cell + 1) (Z.of_nat (length new_cells))
      ∧ dag_index_ <$> new_cells = seqZ 1 (Z.of_nat (length new_cells))
      ∧ surf_id_ <$> new_surfaces
        = seqZ (h_surf + 1) (Z.of_nat (length new_surfaces))
      ∧ surf_dag_index_ <$> new_surfaces
        = seqZ 1 (Z.of_nat (length new_surfaces))
      ∧ (∀ u', r = Ok u' →
         length new_cells = length vols
         ∧ length new_surfaces = length surfs)) as Hmain.
  2: { destruct Hmain as (nc & ns & Ha & Hb & Hids & Hd & He & Hf & Hg).
       exists nc, ns. do 6 (split; [done|]). split; [by apply Hfirst|done]. }
  unfold initialize in Hrun. rewrite !bind_gets in Hrun.
  fold h_cell h_surf in Hrun.
  rewrite !wrap32_id in Hrun by (unfold in_int, INT_MIN, INT_MAX in *; lia).
  rewrite bind_eq in Hrun.
  destruct (read_uwuw_materials _ m) as [[u1|f1] m1] eqn:Hread;
    pose proof (keeps_read_uwuw_materials _ _ _ _ Hread) as [Hc1 Hs1].
  2: { injection Hrun as <- <-. exists [], []. rewrite !app_nil_r.
       repeat split; try done. }
  apply read_uwuw_materials_flags in Hread as (Hadj1 & _ & Hfile & _).
  simpl in Hadj1, Hfile.
  rewrite bind_eq in Hrun.
  destruct (when (uses_uwuw u1) _ m1) as [[[]|f2] m2] eqn:Hmsg;
    pose proof (keeps_geometry_write_message _ _ _ _ _ _ Hmsg) as [Hc2 Hs2].
  2: { injection Hrun as <- <-. exists [], []. rewrite !app_nil_r.
       repeat split; try done; congruence. }
  rewrite bind_eq in Hrun. simpl in Hrun. rewrite Hfile in Hrun.
  fold vols surfs in Hrun.
  destruct (init_cells _ _ _ vols _ _ m2) as [[[next graveyard]|f3] m3] eqn:Hcells;
    apply init_cells_ids in Hcells
      as (new_cells & Hc3 & Hs3 & Hids & Hdags & Hlen & Hall);
    try (simpl; congruence);
    try (unfold INT_MIN, INT_MAX in *; lia).
  2: { injection Hrun as <- <-. exists new_cells, [].
       rewrite !app_nil_r, Hc3, Hs3, Hc2, Hs2, Hc1, Hs1.
       repeat split; try done. }
  rewrite bind_eq in Hrun.
  destruct (when settings_check_overlaps _ m3) as [[[]|f4] m4] eqn:Hover;
    pose proof (keeps_geometry_overlaps _ _ _ _ Hover) as [Hc4 Hs4].
  2: { injection Hrun as <- <-. exists new_cells, [].
       rewrite !app_nil_r, Hc4, Hs4, Hc3, Hs3, Hc2, Hs2, Hc1, Hs1.
       repeat split; try done. }
  rewrite bind_eq in Hrun.
  destruct (when (bool_decide (graveyard = 0)) _ m4) as [[[]|f5] m5] eqn:Hwarn;
    pose proof (keeps_geometry_warning _ _ _ _ _ Hwarn) as [Hc5 Hs5].
  2: { injection Hrun as <- <-. exists new_cells, [].
       rewrite !app_nil_r, Hc5, Hs5, Hc4, Hs4, Hc3, Hs3, Hc2, Hs2, Hc1, Hs1.
       repeat split; try done. }
  rewrite bind_eq in Hrun.
  destruct (init_surfaces _ _ surfs _ _ m5) as [[next'|f6] m6] eqn:Hsurfs;
    apply init_surfaces_ids in Hsurfs
      as (new_surfs & Hs6 & Hc6 & Hsids & Hsdags & Hslen & Hsdone);
    try (simpl; congruence);
    try (unfold INT_MIN, INT_MAX in *; lia).
  - apply ret_inv' in Hrun as [-> ->]. exists new_cells, new_surfs.
    rewrite Hc6, Hs6, Hc5, Hs5, Hc4, Hs4, Hc3, Hs3, Hc2, Hs2, Hc1, Hs1.
    repeat split; try done.
    + by eapply Hall.
    + by eapply Hsdone.
  - injection Hrun as <- <-. exists new_cells, new_surfs.
    rewrite Hc6, Hs6, Hc5, Hs5, Hc4, Hs4, Hc3, Hs3, Hc2, Hs2, Hc1, Hs1.
    repeat split; try done.
Qed.

Lemma renumbered_ids_witness :
  let H := Example.env 7 Example.mesh in
  (∃ u' m',
     initialize (H := H) (Example.universe Example.mesh true) Example.csg_model
     = (Ok u', m')
     ∧ id_ <$> cells m' = [42; 43; 44]
     ∧ surf_id_ <$> surfaces m' = [7; 8; 9])
  ∧ (∃ u' m',
       initialize (H := H) (Example.universe Example.mesh true)
         Example.materials_model = (Ok u', m')
       ∧ id_ <$> cells m' = [1; 2]).
Proof.
  intros H. split.
  - destruct (initialize (H := H) (Example.universe Example.mesh true)
                Example.csg_model) as [[u'|f] m'] eqn:Hrun;
      [|vm_compute in Hrun; discriminate].
    exists u', m'. split; [reflexivity|].
    destruct (renumbered_ids (H := H) (Example.universe Example.mesh true)
                Example.csg_model m' (Ok u') eq_refl eq_refl eq_refl Hrun)
      as (_ & nc & ns & Hc & Hs & Hids & _ & Hsids & _ & _ & Hlen).
    destruct (Hlen u' eq_refl) as [Hn Hm].
    rewrite Hc, Hs, !fmap_app, Hids, Hsids, Hn, Hm. split; reflexivity.
  - destruct (initialize (H := H) (Example.universe Example.mesh true)
                Example.materials_model) as [[u'|f] m'] eqn:Hrun;
      [|vm_compute in Hrun; discriminate].
    exists u', m'. split; [reflexivity|].
    destruct (renumbered_ids (H := H) (Example.universe Example.mesh true)
                Example.materials_model m' (Ok u') eq_refl eq_refl eq_refl Hrun)
      as (_ & nc & ns & Hc & _ & _ & _ & _ & _ & Hone & Hlen).
    destruct (Hlen u' eq_refl) as [Hn _].
    rewrite Hc, fmap_app, Hone, Hn by reflexivity. reflexivity.
Defined.

(** ** Decimal text read back *)

Lemma digit_of_pretty_N_char (d : N) :
  (d < 10)%N → digit_of (pretty_N_char d) = Some (Z.of_N d).
Proof.
  intros Hd.
  assert (d = 0 ∨ d = 1 ∨ d = 2 ∨ d = 3 ∨ d = 4 ∨ d = 5 ∨ d = 6 ∨ d = 7
          ∨ d = 8 ∨ d = 9)%N as Hcases by lia.
  repeat (destruct Hcases as [->|Hcases]; [reflexivity|]). by subst.
Qed.

Lemma tolower_pretty_N_char (d : N) :
  tolower (pretty_N_char d) = pretty_N_char d.
Proof. unfold pretty_N_char. by repeat case_match. Qed.

Lemma to_lower_pretty_N_go (x : N) (s : string) :
  to_lower (pretty_N_go x s) = pretty_N_go x (to_lower s).
Proof.
  revert s. induction (N.lt_wf_0 x) as [x _ IH]. intros s.
  destruct (decide (x = 0)%N) as [->|Hx]; [by rewrite !pretty_N_go_0|].
  rewrite (pretty_N_go_step x s), (pretty_N_go_step x (to_lower s)) by lia.
  rewrite IH by (apply N.div_lt; lia). simpl.
  by rewrite tolower_pretty_N_char.
Qed.

(** The digits that [pretty_N_go] writes in front of [s] read back as
    the number. *)
Lemma leading_digits_pretty_N_go (x : N) (s : string) :
  ∃ ds,
    leading_digits (pretty_N_go x s) = ds ++ leading_digits s
    ∧ (∀ acc, fold_left (λ a d, 10 * a + d) ds acc
              = acc * 10 ^ Z.of_nat (length ds) + Z.of_N x)
    ∧ ((0 < x)%N → ds ≠ []).
Proof.
  revert s. induction (N.lt_wf_0 x) as [x _ IH]. intros s.
  destruct (decide (x = 0)%N) as [->|Hx].
  { exists []. rewrite pretty_N_go_0. split; [done|]. split; [|lia].
    intros acc. simpl. lia. }
  rewrite pretty_N_go_step by lia.
  destruct (IH (x `div` 10)%N (N.div_lt x 10 ltac:(lia) ltac:(lia))
              (String (pretty_N_char (x `mod` 10)) s))
    as (ds & Hds & Hval & _).
  exists (ds ++ [Z.of_N (x `mod` 10)]).
  split; [|split].
  - rewrite Hds. cbn [leading_digits].
    rewrite digit_of_pretty_N_char by (apply N.mod_lt; lia).
    by rewrite <-app_assoc.
  - intros acc. rewrite fold_left_app, Hval. simpl.
    rewrite length_app, Nat2Z.inj_add, Z.pow_add_r by lia. simpl.
    pose proof (N.div_mod x 10 ltac:(lia)) as Hdm.
    rewrite Hdm at 3. rewrite N2Z.inj_add, N2Z.inj_mul. simpl. lia.
  - intros _. destruct ds; discriminate.
Qed.

Lemma leading_digit_first (s : string) :
  leading_digits s ≠ [] → skip_space s = s ∧ strip_sign s = (false, s).
Proof.
  destruct s as [|c s]; [done|]. cbn [leading_digits skip_space strip_sign].
  destruct c as [[] [] [] [] [] [] [] []]; by vm_compute.
Qed.

Lemma stoi_pretty_N (p : positive) :
  leading_digits (pretty (N.pos p)) ≠ []
  ∧ digits_value (leading_digits (pretty (N.pos p))) = Z.pos p.
Proof.
  unfold pretty, pretty_N. rewrite decide_False by done.
  destruct (leading_digits_pretty_N_go (N.pos p) "") as (ds & Hds & Hval & Hne).
  rewrite Hds, app_nil_r. split; [apply Hne; lia|].
  unfold digits_value. rewrite Hval. simpl. lia.
Qed.

(** [std::stoi] reads the decimal text of an [int] back as that [int]. *)
Lemma stoi_show_int (z : Z) : in_int z → stoi (show_int z) = conv_value z.
Proof.
  intros Hz. destruct z as [|p|p]; [reflexivity| |].
  - destruct (stoi_pretty_N p) as [Hne Hval].
    unfold show_int, pretty, pretty_Z, pretty, pretty_positive, stoi.
    destruct (leading_digit_first _ Hne) as [-> ->].
    destruct (leading_digits (pretty (N.pos p))) as [|d ds]; [done|].
    rewrite Hval.
    destruct Hz as [Hlo Hhi]. apply Z.leb_le in Hlo, Hhi.
    by rewrite Hlo, Hhi.
  - destruct (stoi_pretty_N p) as [Hne Hval].
    unfold show_int, pretty, pretty_Z, pretty, pretty_positive, stoi.
    rewrite append_cons. cbn [skip_space isspace strip_sign].
    replace (isspace "-") with false by reflexivity.
    cbn [strip_sign]. change ("" +:+ pretty (N.pos p)) with (pretty (N.pos p)).
    destruct (leading_digits (pretty (N.pos p))) as [|d ds]; [done|].
    rewrite Hval.
    destruct Hz as [Hlo Hhi]. apply Z.leb_le in Hlo, Hhi.
    change (- Z.pos p) with (Z.neg p). by rewrite Hlo, Hhi.
Qed.

Lemma to_lower_show_int (z : Z) : to_lower (show_int z) = show_int z.
Proof.
  unfold show_int, pretty, pretty_Z, pretty, pretty_positive, pretty, pretty_N.
  destruct z as [|p|p]; [done| |].
  - rewrite decide_False by done. by rewrite to_lower_pretty_N_go.
  - rewrite decide_False by done. rewrite append_cons. cbn [to_lower].
    change ("" +:+ pretty_N_go (N.pos p) "") with (pretty_N_go (N.pos p) "").
    by rewrite to_lower_pretty_N_go.
Qed.

(** With any value of the void sentinel, the volume whose tag is the
    sentinel's decimal text, read in legacy mode with no material of
    that name, becomes a void cell with no temperature, although its
    tag is not one of the three void tags. *)
Lemma void_sentinel_tag `{Env} (u : DAGUniverse) (i : nat) (vol : Volume)
    (next_cell_id graveyard : Z) (m : Model) :
  in_int MATERIAL_VOID →
  vol_material vol = show_int MATERIAL_VOID →
  Forall (λ mt, to_lower (mat_name mt) ≠ show_int MATERIAL_VOID) (materials m) →
  settings_verbosity < 10 →
  cell_map m !! (if adjust_geometry_ids_ u then next_cell_id else vol_id vol)
  = None →
  (to_lower (vol_material vol) ∉ void_tags)
  ∧ ∃ r m' c,
      init_cell u false i vol next_cell_id graveyard m = (Ok r, m')
      ∧ cells m' = cells m ++ [c]
      ∧ material_ c = [MATERIAL_VOID] ∧ sqrtkT_ c = [].
Proof.
  intros Hint Htag Hnone Hquiet Hfree.
  pose proof (stoi_show_int _ Hint) as Hstoi.
  rewrite Htag, to_lower_show_int.
  assert (show_int MATERIAL_VOID ∉ void_tags) as Hnot.
  { unfold void_tags. rewrite !elem_of_cons, elem_of_nil.
    intros [Heq|[Heq|[Heq|[]]]]; rewrite Heq in Hstoi; discriminate. }
  split; [exact Hnot|].
  assert (show_int MATERIAL_VOID ≠ "") as Hne by apply show_int_nonempty.
  unfold init_cell.
  rewrite bind_eq, register_cell_free by exact Hfree.
  rewrite Htag, (bool_decide_eq_false_2 _ Hne). unfold when. rewrite bind_eq.
  unfold ret at 1. rewrite to_lower_show_int.
  unfold void_tags in Hnot. rewrite !elem_of_cons, elem_of_nil in Hnot.
  unfold assign_material.
  rewrite !bool_decide_eq_false_2 by tauto. simpl.
  rewrite bind_eq, legacy_assign_material_quiet by exact Hquiet.
  rewrite to_lower_show_int.
  rewrite no_name_match by exact Hnone. rewrite Hstoi.
  rewrite bind_eq. unfold index, push_material. simpl. unfold ret at 1.
  rewrite (bool_decide_eq_true_2 (MATERIAL_VOID = MATERIAL_VOID)) by done.
  eexists _, _, _. split; [reflexivity|]. simpl. done.
Qed.

(** ** Further properties of the import *)

(** The tag "periodic", in any case, ends the turn of the surface loop
    with its fatal error and leaves the model as it was, also for a
    surface of the graveyard. *)
Theorem periodic_is_fatal `{Env} (u : DAGUniverse) (i : nat) (surf : Surface)
    (next_surf_id graveyard : Z) (m : Model) :
  to_lower (surf_boundary surf) = "periodic" →
  init_surface u i surf next_surf_id graveyard m
  = (Stop (fatal_error "Periodic boundary condition not supported in DAGMC."),
     m).
Proof. intros Htag. unfold init_surface. rewrite Htag. reflexivity. Qed.

Lemma periodic_is_fatal_witness :
  init_surface (H := Example.env 7 Example.mesh)
    (Example.universe Example.mesh false) 1
    (Example.surface 202 9 "Periodic" [101; 102]) 1 102 Example.csg_model
  = (Stop (fatal_error "Periodic boundary condition not supported in DAGMC."),
     Example.csg_model).
Proof.
  apply (periodic_is_fatal (H := Example.env 7 Example.mesh)). reflexivity.
Defined.

(** The import of one void volume (native id 5) bounded by one untagged
    surface (native id 7), ids preserved, into an empty model: one void
    cell 5 without temperature, one transmissive surface 7, both
    registered at index 0, and the warning that no graveyard was
    found. *)
Theorem one_void_volume_import :
  ∃ u,
    initialize (H := Example.env 7 Example.void_mesh)
      (Example.universe Example.void_mesh false) Example.empty_model
    = (Ok u,
       {| cells := [ {| dag_index_ := 1; id_ := 5; universe_ := 1;
                        fill_ := -1; material_ := [-1]; sqrtkT_ := [] |} ];
          cell_map := {[ 5 := 0%nat ]};
          surfaces := [ {| surf_dag_index_ := 1; surf_id_ := 7;
                           bc_ := None |} ];
          surface_map := {[ 7 := 0%nat ]};
          materials := []; material_map := ∅; overlap_check_count := [];
          output :=
            [ printed_warning
                ("No graveyard volume found in the DagMC model. "
                 +:+ "This may result in lost particles and rapid simulation failure.") ]
       |}).
Proof. eexists. vm_compute. reflexivity. Qed.

(** Legacy resolution with the report switched off, by the number of
    materials whose lowered name equals the lowered tag: one gives its
    id; two or more give the fatal error on ambiguous names; none hands
    the tag to [std::stoi], whose value becomes the material id with no
    look-up, and whose [std::invalid_argument] becomes the fatal error
    that names the tag and the cell. *)
Theorem legacy_resolution_cases `{Env} (tag : string) (c : DAGCell)
    (m : Model) :
  settings_verbosity < 10 →
  let named :=
    filter (λ mt, to_lower tag = to_lower (mat_name mt)) (materials m) in
  (∀ mt, named = [mt] →
     legacy_assign_material tag c m = (Ok (push_material c (mat_id_ mt)), m))
  ∧ ((2 ≤ length named)%nat →
     legacy_assign_material tag c m
     = (Stop (fatal_error
                ("More than one material found with name '" +:+ to_lower tag
                 +:+ "'. Please ensure materials "
                 +:+ "have unique names if using this property to assign materials.")),
        m))
  ∧ (named = [] →
     (∀ id, stoi (to_lower tag) = conv_value id →
        legacy_assign_material tag c m = (Ok (push_material c id), m))
     ∧ (stoi (to_lower tag) = conv_invalid_argument →
        legacy_assign_material tag c m
        = (Stop (fatal_error
                   ("No material '" +:+ to_lower tag
                    +:+ "' found for volume (cell) " +:+ show_int (id_ c))),
           m))).
Proof.
  intros Hquiet named.
  pose proof (legacy_assign_material_quiet tag c m Hquiet) as Hrun.
  fold named in Hrun. split; [|split].
  - intros mt Hone. by rewrite Hrun, Hone.
  - intros Hmany. rewrite Hrun.
    destruct named as [|mt [|mt' l]]; simpl in Hmany; [lia..|done].
  - intros Hnone. rewrite Hrun, Hnone. split.
    + by intros id ->.
    + by intros ->.
Qed.

Lemma legacy_resolution_cases_witness :
  legacy_assign_material (H := Example.env 7 Example.mesh)
    "STEEL" Example.fresh_cell Example.csg_model
  = (Ok (push_material Example.fresh_cell 40), Example.csg_model)
  ∧ legacy_assign_material (H := Example.env 7 Example.mesh)
      "Steel" Example.fresh_cell Example.steel_twice
    = (Stop (fatal_error
               ("More than one material found with name 'steel'. "
                +:+ "Please ensure materials "
                +:+ "have unique names if using this property to assign materials.")),
       Example.steel_twice)
  ∧ legacy_assign_material (H := Example.env 7 Example.mesh)
      "41" Example.fresh_cell Example.csg_model
    = (Ok (push_material Example.fresh_cell 41), Example.csg_model).
Proof.
  split; [|split].
  - destruct (legacy_resolution_cases (H := Example.env 7 Example.mesh)
                "STEEL" Example.fresh_cell Example.csg_model) as (Hone & _ & _).
    + simpl. lia.
    + apply (Hone Example.steel). reflexivity.
  - destruct (legacy_resolution_cases (H := Example.env 7 Example.mesh)
                "Steel" Example.fresh_cell Example.steel_twice)
      as (_ & Hmany & _).
    + simpl. lia.
    + apply Hmany. simpl. lia.
  - destruct (legacy_resolution_cases (H := Example.env 7 Example.mesh)
                "41" Example.fresh_cell Example.csg_model) as (_ & _ & Hnone).
    + simpl. lia.
    + destruct Hnone as [Hid _]; [reflexivity|]. apply Hid. reflexivity.
Defined.

(** ** The registries through one turn of a loop *)

#[local] Instance same_but_output_refl : Reflexive same_but_output.
Proof. by repeat split. Qed.

#[local] Instance same_but_output_trans : Transitive same_but_output.
Proof.
  unfold same_but_output, same_registries.
  intros m1 m2 m3 [(?&?&?&?&?&?) ?] [(?&?&?&?&?&?) ?].
  repeat split; congruence.
Qed.

Lemma output_app_nil (m : Model) :
  ∃ l, output m = output m ++ l ∧ Forall is_message l.
Proof. exists []. by rewrite app_nil_r. Qed.

Section RegistryFacts.
Context `{Env}.

Lemma quiet_write_message (msg : string) (level : Z) :
  keeps same_but_output (write_message msg level).
Proof. unfold write_message. keeps_tac. Qed.

Lemma quiet_match_by_name (mat_string : string) (ms : list Material)
    (found : bool) (c : DAGCell) :
  keeps same_but_output (match_by_name mat_string ms found c).
Proof.
  revert found c. induction ms as [|mt ms IH]; intros found c; simpl;
    keeps_tac.
Qed.

Lemma quiet_legacy_assign_material (tag : string) (c : DAGCell) :
  keeps same_but_output (legacy_assign_material tag c).
Proof.
  unfold legacy_assign_material.
  pose proof quiet_match_by_name. pose proof quiet_write_message.
  keeps_tac.
Qed.

Lemma quiet_assign_material (u : DAGUniverse) (using_uwuw : bool)
    (vol : Volume) (mat_str : string) (c : DAGCell) :
  keeps same_but_output (assign_material u using_uwuw vol mat_str c).
Proof.
  unfold assign_material. pose proof quiet_legacy_assign_material.
  keeps_tac.
Qed.

(** A resolution that returns has written messages only. *)
Lemma legacy_assign_material_ok_output (tag : string) (c c' : DAGCell)
    (m m' : Model) :
  legacy_assign_material tag c m = (Ok c', m') →
  ∃ l, output m' = output m ++ l ∧ Forall is_message l.
Proof.
  unfold legacy_assign_material. intros Hrun.
  bind_inv Hrun as ms m1 Hms. apply gets_inv in Hms as [-> ->].
  bind_inv Hrun as [found c1] m2 Hloop. rewrite match_by_name_spec in Hloop.
  assert (m2 = m) as ->.
  { by destruct (filter _ (materials m)) as [|mt [|mt' l]];
      try discriminate; injection Hloop as _ _ <-. }
  bind_inv Hrun as c2 m3 Hid.
  assert (m3 = m) as ->.
  { destruct (negb found); [|by apply ret_inv in Hid as [_ ->]].
    destruct (stoi (to_lower tag)); try discriminate.
    by apply ret_inv in Hid as [_ ->]. }
  bind_inv Hrun as [] m4 Hrep. apply ret_inv in Hrun as [_ ->].
  case_bool_decide.
  - bind_inv Hrep as m0 m5 Hm0. unfold index in Hm0.
    destruct (material_ c2 !! 0%nat); [|discriminate].
    apply ret_inv in Hm0 as [-> ->].
    bind_inv Hrep as k m6 Hk. unfold map_at in Hk.
    bind_inv Hk as mp m7 Hmp. apply gets_inv in Hmp as [-> ->].
    destruct (material_map m !! _); [|discriminate].
    apply ret_inv in Hk as [-> ->].
    bind_inv Hrep as ms m8 Hms. apply gets_inv in Hms as [-> ->].
    bind_inv Hrep as mt m9 Hmt. unfold index in Hmt.
    destruct (materials m !! _); [|discriminate].
    apply ret_inv in Hmt as [-> ->].
    apply modify_inv in Hrep as ->. simpl.
    eexists. split; [reflexivity|]. by repeat constructor.
  - apply ret_inv in Hrep as [_ ->]. apply output_app_nil.
Qed.

Lemma assign_material_ok_output (u : DAGUniverse) (using_uwuw : bool)
    (vol : Volume) (mat_str : string) (c c' : DAGCell) (m m' : Model) :
  assign_material u using_uwuw vol mat_str c m = (Ok c', m') →
  ∃ l, output m' = output m ++ l ∧ Forall is_message l.
Proof.
  unfold assign_material. intros Hrun.
  destruct (_ || _).
  { apply ret_inv in Hrun as [_ ->]. apply output_app_nil. }
  destruct using_uwuw.
  - destruct (library_number _ _); [|discriminate].
    apply ret_inv in Hrun as [_ ->]. apply output_app_nil.
  - by eapply legacy_assign_material_ok_output.
Qed.

(** One turn of the volume loop that returns: the cell is appended
    and registered at its position, under an id that was free; the
    other collections stay, and only messages are written. *)
Lemma init_cell_registers (u : DAGUniverse) (using_uwuw : bool) (i : nat)
    (vol : Volume) (next_cell_id graveyard next' graveyard' : Z)
    (m m' : Model) :
  init_cell u using_uwuw i vol next_cell_id graveyard m
  = (Ok (next', graveyard'), m') →
  ∃ c l,
    cells m' = cells m ++ [c]
    ∧ cell_map m !! id_ c = None
    ∧ cell_map m' = <[id_ c := length (cells m)]> (cell_map m)
    ∧ surfaces m' = surfaces m ∧ surface_map m' = surface_map m
    ∧ materials m' = materials m ∧ material_map m' = material_map m
    ∧ overlap_check_count m' = overlap_check_count m
    ∧ output m' = output m ++ l ∧ Forall is_message l
    ∧ id_ c = (if adjust_geometry_ids_ u then next_cell_id else vol_id vol)
    ∧ universe_ c = univ_id_ u ∧ fill_ c = C_NONE
    ∧ dag_index_ c = Z.of_nat i + 1
    ∧ next' = (if adjust_geometry_ids_ u then wrap32 (next_cell_id + 1)
               else next_cell_id)
    ∧ graveyard' = (if bool_decide (to_lower (vol_material vol) = "graveyard")
                    then vol_handle vol else graveyard).
Proof.
  unfold init_cell. intros Hrun.
  set (c0 := {| dag_index_ := Z.of_nat i + 1;
                id_ := if adjust_geometry_ids_ u then next_cell_id
                       else vol_id vol;
                universe_ := univ_id_ u; fill_ := C_NONE;
                material_ := []; sqrtkT_ := [] |}) in *.
  bind_inv Hrun as [] m1 Hreg.
  destruct (cell_map m !! id_ c0) as [k|] eqn:Hfree.
  { rewrite register_cell_taken in Hreg by eauto. discriminate. }
  rewrite register_cell_free in Hreg by done.
  injection Hreg as Hm1. subst m1.
  bind_inv Hrun as [] m2 Hempty.
  assert (m2 = set_cell_map <[id_ c0 := length (cells m)]> m) as ->.
  { unfold when, fatal, stop in Hempty.
    destruct (bool_decide (vol_material vol = "")); [discriminate|].
    by apply ret_inv in Hempty as [_ ->]. }
  bind_inv Hrun as c1 m3 Hmat.
  pose proof (quiet_assign_material _ _ _ _ _ _ _ _ Hmat)
    as [(Hc & Hcm & Hs & Hsm & Hms & Hmm) Hov].
  destruct (assign_material_ok_output _ _ _ _ _ _ _ _ Hmat) as (l & Hout & Hl).
  apply assign_material_ok_inv in Hmat as (mid & -> & _).
  bind_inv Hrun as mid' m4 Hidx. apply ret_inv in Hidx as [-> ->].
  simpl in Hc, Hcm, Hs, Hsm, Hms, Hmm, Hov, Hout.
  destruct (bool_decide (mid = MATERIAL_VOID)).
  - bind_inv Hrun as [] m5 Hmod. apply modify_inv in Hmod as ->.
    apply ret_inv in Hrun as [[= -> ->] ->].
    exists (push_material c0 mid), l. simpl.
    rewrite Hc, Hcm, Hs, Hsm, Hms, Hmm, Hov, Hout. by repeat split.
  - bind_inv Hrun as c2 m5 Htemp.
    apply assign_temperature_ok_inv in Htemp
      as (-> & mid' & k & mat & T & _ & _ & _ & _ & ->).
    bind_inv Hrun as [] m6 Hmod. apply modify_inv in Hmod as ->.
    apply ret_inv in Hrun as [[= -> ->] ->].
    eexists (push_sqrtkT (push_material c0 mid) _), l. simpl.
    rewrite Hc, Hcm, Hs, Hsm, Hms, Hmm, Hov, Hout. by repeat split.
Qed.

(** The classification of a tag, by [tag_condition]. *)
Lemma classify_bc_tag (bc_value : string) (s : DAGSurface) (m : Model) :
  match tag_condition bc_value with
  | Some None => classify_bc bc_value s m = (Ok s, m)
  | Some (Some bc) => classify_bc bc_value s m = (Ok (set_bc s bc), m)
  | None => ∃ msg, classify_bc bc_value s m = (Stop (fatal_error msg), m)
  end.
Proof.
  unfold tag_condition, classify_bc.
  destruct (decide (bc_value ∈ [""; "transmit"; "transmission"])) as [Hin|Hout].
  { revert Hin. rewrite !elem_of_cons, elem_of_nil.
    by intros [->|[->|[->|[]]]]. }
  revert Hout. rewrite !elem_of_cons, elem_of_nil. intros Hout.
  rewrite !(bool_decide_eq_false_2 (bc_value = "")),
    !(bool_decide_eq_false_2 (bc_value = "transmit")),
    !(bool_decide_eq_false_2 (bc_value = "transmission")) by tauto.
  simpl. destruct (decide (bc_value = "vacuum")) as [->|Hv]; [done|].
  rewrite (bool_decide_eq_false_2 (bc_value = "vacuum")) by done.
  destruct (decide (bc_value ∈ ["reflective"; "reflect"; "reflecting"]))
    as [Hin|Hout'].
  { revert Hin. rewrite !elem_of_cons, elem_of_nil.
    by intros [->|[->|[->|[]]]]. }
  revert Hout'. rewrite !elem_of_cons, elem_of_nil. intros Hout'.
  rewrite !(bool_decide_eq_false_2 (bc_value = "reflective")),
    !(bool_decide_eq_false_2 (bc_value = "reflect")),
    !(bool_decide_eq_false_2 (bc_value = "reflecting")) by tauto.
  simpl. case_bool_decide; eexists; reflexivity.
Qed.

(** One turn of the surface loop that returns. *)
Lemma init_surface_registers (u : DAGUniverse) (i : nat) (surf : Surface)
    (next_surf_id graveyard next' : Z) (m m' : Model) :
  init_surface u i surf next_surf_id graveyard m = (Ok next', m') →
  ∃ s bc,
    surfaces m' = surfaces m ++ [s]
    ∧ surface_map m !! surf_id_ s = None
    ∧ surface_map m' = <[surf_id_ s := length (surfaces m)]> (surface_map m)
    ∧ cells m' = cells m ∧ cell_map m' = cell_map m
    ∧ materials m' = materials m ∧ material_map m' = material_map m
    ∧ overlap_check_count m' = overlap_check_count m
    ∧ output m' = output m
    ∧ surf_id_ s = (if adjust_geometry_ids_ u then next_surf_id
                    else surf_id surf)
    ∧ surf_dag_index_ s = Z.of_nat i + 1
    ∧ tag_condition (to_lower (surf_boundary surf)) = Some bc
    ∧ bc_ s = surface_condition graveyard surf bc
    ∧ next' = (if adjust_geometry_ids_ u then wrap32 (next_surf_id + 1)
               else next_surf_id).
Proof.
  unfold init_surface. intros Hrun.
  set (s0 := {| surf_dag_index_ := Z.of_nat i + 1;
                surf_id_ := if adjust_geometry_ids_ u then next_surf_id
                            else surf_id surf;
                bc_ := None |}) in *.
  bind_inv Hrun as s1 m1 Hcl.
  pose proof (classify_bc_tag (to_lower (surf_boundary surf)) s0 m) as Htag.
  assert (∃ bc, tag_condition (to_lower (surf_boundary surf)) = Some bc
                ∧ m1 = m ∧ surf_id_ s1 = surf_id_ s0
                ∧ surf_dag_index_ s1 = surf_dag_index_ s0 ∧ bc_ s1 = bc)
    as (bc & Hbc & -> & Hid & Hdag & Hs1).
  { destruct (tag_condition _) as [[bc|]|].
    - rewrite Htag in Hcl. injection Hcl as <- <-. by exists (Some bc).
    - rewrite Htag in Hcl. injection Hcl as <- <-. by exists None.
    - destruct Htag as [msg Htag]. rewrite Htag in Hcl. discriminate. }
  bind_inv Hrun as [] m2 Hreg.
  set (s2 := graveyard_check graveyard (surf_parent_vols surf) s1) in *.
  destruct (surface_map m !! surf_id_ s2) as [k|] eqn:Hfree.
  { rewrite register_surface_taken in Hreg by eauto. discriminate. }
  rewrite register_surface_free in Hreg by done.
  injection Hreg as Hm1. subst m2.
  bind_inv Hrun as [] m3 Hmod. apply modify_inv in Hmod as ->.
  apply ret_inv in Hrun as [-> ->].
  exists s2, bc. simpl. split; [done|]. split; [done|]. split; [done|].
  do 6 (split; [done|]).
  split; [subst s2; by rewrite graveyard_check_id, Hid|].
  split; [subst s2; unfold graveyard_check; by destruct (_ && _)|].
  split; [done|]. split; [|done].
  subst s2. unfold graveyard_check, surface_condition.
  by destruct (_ && _).
Qed.
End RegistryFacts.

(** ** The registries through the loops *)

Lemma appended_nil (n : nat) (mp : gmap Z nat) : appended n [] mp mp.
Proof.
  split; [constructor|]. split; [by intros id ?%elem_of_nil|].
  split; [by intros j id ?|done].
Qed.

Lemma appended_cons (n : nat) (id : Z) (ids : list Z) (mp mp' : gmap Z nat) :
  mp !! id = None →
  appended (S n) ids (<[id := n]> mp) mp' →
  appended n (id :: ids) mp mp'.
Proof.
  intros Hfree (Hnd & Hnew & Hpos & Hold).
  assert (id ∉ ids) as Hid.
  { intros Hin. specialize (Hnew _ Hin). by rewrite lookup_insert_eq in Hnew. }
  split; [by constructor|]. split; [|split].
  - intros x [->|Hx]%elem_of_cons; [done|].
    specialize (Hnew _ Hx). by apply lookup_insert_None in Hnew as [? _].
  - intros [|j] x Hx; simpl in Hx.
    + injection Hx as <-. rewrite Hold by done.
      rewrite lookup_insert_eq. f_equal. lia.
    + rewrite (Hpos _ _ Hx). f_equal. lia.
  - intros x Hx. apply not_elem_of_cons in Hx as [Hne Hx].
    rewrite Hold by done. by rewrite lookup_insert_ne.
Qed.

(** Appending keeps a registry consistent. *)
Lemma appended_registry_ok (old ids : list Z) (mp mp' : gmap Z nat) :
  registry_ok old mp → appended (length old) ids mp mp' →
  registry_ok (old ++ ids) mp'.
Proof.
  intros Hok (_ & _ & Hpos & Hold) id k Hk.
  destruct (decide (id ∈ ids)) as [Hin|Hout].
  - apply list_elem_of_lookup in Hin as [j Hj].
    rewrite (Hpos _ _ Hj) in Hk. injection Hk as <-.
    by rewrite lookup_app_r, Nat.add_comm, Nat.add_sub by lia.
  - rewrite Hold in Hk by done. apply lookup_app_l_Some. by apply Hok.
Qed.

Section LoopFacts.
Context `{Env}.

Lemma init_cells_registers (u : DAGUniverse) (using_uwuw : bool)
    (vols : list Volume) (i : nat) (next_cell_id graveyard next' graveyard' : Z)
    (m m' : Model) :
  init_cells u using_uwuw i vols next_cell_id graveyard m
  = (Ok (next', graveyard'), m') →
  ∃ new l,
    cells m' = cells m ++ new ∧ length new = length vols
    ∧ appended (length (cells m)) (id_ <$> new) (cell_map m) (cell_map m')
    ∧ surfaces m' = surfaces m ∧ surface_map m' = surface_map m
    ∧ materials m' = materials m ∧ material_map m' = material_map m
    ∧ overlap_check_count m' = overlap_check_count m
    ∧ output m' = output m ++ l ∧ Forall is_message l
    ∧ graveyard' = tracked_graveyard vols graveyard
    ∧ (∀ j vol, vols !! j = Some vol →
       ∃ c, new !! j = Some c
            ∧ dag_index_ c = Z.of_nat (i + j) + 1
            ∧ universe_ c = univ_id_ u ∧ fill_ c = C_NONE
            ∧ (adjust_geometry_ids_ u = false → id_ c = vol_id vol)).
Proof.
  revert i next_cell_id graveyard m.
  induction vols as [|vol vols IH]; intros i next graveyard m Hrun.
  { apply ret_inv in Hrun as [[= -> ->] ->]. exists [], [].
    rewrite !app_nil_r. split_and!; try done. apply appended_nil. }
  cbn [init_cells] in Hrun. bind_inv Hrun as [next1 graveyard1] m1 Hstep.
  apply init_cell_registers in Hstep
    as (c & l1 & Hc & Hfree & Hcm & Hs & Hsm & Hms & Hmm & Hov & Hout & Hl1
        & Hid & Huniv & Hfill & Hdag & -> & ->).
  apply IH in Hrun
    as (new & l2 & Hc' & Hlen & Happ & Hs' & Hsm' & Hms' & Hmm' & Hov' & Hout'
        & Hl2 & Hg & Hvols).
  exists (c :: new), (l1 ++ l2).
  rewrite Hc, length_app, Hcm in Happ. simpl in Happ.
  rewrite Nat.add_1_r in Happ.
  split; [by rewrite Hc', Hc, <-app_assoc|].
  split; [simpl; by rewrite Hlen|].
  split; [rewrite fmap_cons; by apply appended_cons|].
  do 5 (split; [congruence|]).
  split; [by rewrite Hout', Hout, <-app_assoc|].
  split; [by apply Forall_app|]. split; [done|].
  intros [|j] vol' Hj; simpl in Hj.
  - injection Hj as <-. exists c. rewrite Nat.add_0_r.
    repeat split; try done. intros Hadj. by rewrite Hadj in Hid.
  - destruct (Hvols _ _ Hj) as (c' & Hc'' & Hdag' & Hrest).
    exists c'. split; [done|]. split; [|done].
    rewrite Hdag'. f_equal. lia.
Qed.

Lemma init_surfaces_registers (u : DAGUniverse) (surfs : list Surface)
    (i : nat) (next_surf_id graveyard next' : Z) (m m' : Model) :
  init_surfaces u i surfs next_surf_id graveyard m = (Ok next', m') →
  ∃ new,
    surfaces m' = surfaces m ++ new ∧ length new = length surfs
    ∧ appended (length (surfaces m)) (surf_id_ <$> new)
        (surface_map m) (surface_map m')
    ∧ cells m' = cells m ∧ cell_map m' = cell_map m
    ∧ materials m' = materials m ∧ material_map m' = material_map m
    ∧ overlap_check_count m' = overlap_check_count m
    ∧ output m' = output m
    ∧ (∀ j surf, surfs !! j = Some surf →
       ∃ s bc, new !! j = Some s
               ∧ surf_dag_index_ s = Z.of_nat (i + j) + 1
               ∧ tag_condition (to_lower (surf_boundary surf)) = Some bc
               ∧ bc_ s = surface_condition graveyard surf bc
               ∧ (adjust_geometry_ids_ u = false → surf_id_ s = surf_id surf)).
Proof.
  revert i next_surf_id m.
  induction surfs as [|surf surfs IH]; intros i next m Hrun.
  { apply ret_inv in Hrun as [_ ->]. exists [].
    rewrite !app_nil_r. split_and!; try done. apply appended_nil. }
  cbn [init_surfaces] in Hrun. bind_inv Hrun as next1 m1 Hstep.
  apply init_surface_registers in Hstep
    as (s & bc & Hs & Hfree & Hsm & Hc & Hcm & Hms & Hmm & Hov & Hout
        & Hid & Hdag & Hbc & Hcond & ->).
  apply IH in Hrun
    as (new & Hs' & Hlen & Happ & Hc' & Hcm' & Hms' & Hmm' & Hov' & Hout'
        & Hsurfs).
  exists (s :: new).
  rewrite Hs, length_app, Hsm in Happ. simpl in Happ.
  rewrite Nat.add_1_r in Happ.
  split; [by rewrite Hs', Hs, <-app_assoc|].
  split; [simpl; by rewrite Hlen|].
  split; [rewrite fmap_cons; by apply appended_cons|].
  do 6 (split; [congruence|]).
  intros [|j] surf' Hj; simpl in Hj.
  - injection Hj as <-. exists s, bc. rewrite Nat.add_0_r.
    repeat split; try done. intros Hadj. by rewrite Hadj in Hid.
  - destruct (Hsurfs _ _ Hj) as (s' & bc' & Hs'' & Hdag' & Hrest).
    exists s', bc'. split; [done|]. split; [|done].
    rewrite Hdag'. f_equal. lia.
Qed.
End LoopFacts.

(** ** The whole import, when it returns *)

Section ImportFacts.
Context `{Env}.

Lemma read_uwuw_materials_ok_inv (u u' : DAGUniverse) (m m' : Model) :
  read_uwuw_materials u m = (Ok u', m') →
  let lib0 := h5m_library (load_file (filename_ u)) in
  let next := wrap32 (fold_left (λ n mt, Z.max (mat_id_ mt) n) (materials m) 0
                      + 1) in
  let lib := if adjust_material_ids_ u then renumber next lib0 else lib0 in
  (lib0 = [] ∧ u' = set_uwuw u [] ∧ m' = m)
  ∨ (lib0 ≠ [] ∧ ∃ new, uwuw_materials lib = Some new ∧ u' = set_uwuw u lib
                        ∧ m' = set_materials (λ ms, ms ++ new) m).
Proof.
  unfold read_uwuw_materials. intros Hrun.
  bind_inv Hrun as ms m1 Hms. apply gets_inv in Hms as [-> ->].
  case_bool_decide as Hlen.
  - apply ret_inv in Hrun as [-> ->]. left.
    apply nil_length_inv in Hlen. by rewrite Hlen.
  - right. split; [intros Hnil; by rewrite Hnil in Hlen|].
    destruct (uwuw_materials _) as [new|] eqn:Hnew; [|discriminate].
    bind_inv Hrun as [] m2 Hmod. apply modify_inv in Hmod as ->.
    apply ret_inv in Hrun as [-> ->]. by exists new.
Qed.

Lemma initialize_ok_inv (u u' : DAGUniverse) (m m' : Model) :
  initialize u m = (Ok u', m') →
  let vols := h5m_volumes (load_file (filename_ u)) in
  let surfs := h5m_surfaces (load_file (filename_ u)) in
  let graveyard := tracked_graveyard vols 0 in
  (univ_id_ u' = univ_id_ u ∧ filename_ u' = filename_ u
   ∧ adjust_geometry_ids_ u' = adjust_geometry_ids_ u
   ∧ adjust_material_ids_ u' = adjust_material_ids_ u
   ∧ cell_idx_offset_ u' = length (cells m)
   ∧ surf_idx_offset_ u' = length (surfaces m)
   ∧ dagmc_instance_ u' = load_file (filename_ u))
  ∧ ∃ new_mats new_cells new_surfs l,
      (materials m' = materials m ++ new_mats
       ∧ material_map m' = material_map m
       ∧ overlap_check_count m'
         = (if settings_check_overlaps
            then resize0 (length (cells m')) (overlap_check_count m)
            else overlap_check_count m)
       ∧ output m'
         = output m ++ l
           ++ (if bool_decide (graveyard = 0) then [no_graveyard_warning]
               else [])
       ∧ Forall is_message l)
      ∧ (cells m' = cells m ++ new_cells ∧ length new_cells = length vols
         ∧ appended (length (cells m)) (id_ <$> new_cells)
             (cell_map m) (cell_map m')
         ∧ ∀ j vol, vols !! j = Some vol →
           ∃ c, new_cells !! j = Some c
                ∧ dag_index_ c = Z.of_nat j + 1
                ∧ universe_ c = univ_id_ u ∧ fill_ c = C_NONE
                ∧ (adjust_geometry_ids_ u = false → id_ c = vol_id vol))
      ∧ (surfaces m' = surfaces m ++ new_surfs
         ∧ length new_surfs = length surfs
         ∧ appended (length (surfaces m)) (surf_id_ <$> new_surfs)
             (surface_map m) (surface_map m')
         ∧ ∀ j surf, surfs !! j = Some surf →
           ∃ s bc, new_surfs !! j = Some s
                   ∧ surf_dag_index_ s = Z.of_nat j + 1
                   ∧ tag_condition (to_lower (surf_boundary surf)) = Some bc
                   ∧ bc_ s = surface_condition graveyard surf bc
                   ∧ (adjust_geometry_ids_ u = false →
                      surf_id_ s = surf_id surf)).
Proof.
  unfold initialize. intros Hrun.
  bind_inv Hrun as cs m0 Hcs. apply gets_inv in Hcs as [-> ->].
  bind_inv Hrun as ss m0 Hss. apply gets_inv in Hss as [-> ->].
  bind_inv Hrun as u1 m1 Hread.
  assert (∃ lib new_mats, u1 = set_uwuw (set_offsets u (length (cells m))
                                           (length (surfaces m))) lib
            ∧ m1 = set_materials (λ ms, ms ++ new_mats) m)
    as (lib & new_mats & -> & ->).
  { apply read_uwuw_materials_ok_inv in Hread
      as [(_ & -> & ->)|(_ & new & _ & -> & ->)].
    - exists [], []. split; [done|]. destruct m. unfold set_materials. simpl.
      by rewrite app_nil_r.
    - by eexists _, new. }
  bind_inv Hrun as [] m2 Hmsg.
  assert (∃ l0, m2 = set_output (λ o, o ++ l0)
                       (set_materials (λ ms, ms ++ new_mats) m)
                ∧ Forall is_message l0) as (l0 & -> & Hl0).
  { unfold when in Hmsg. destruct (uses_uwuw _).
    - apply modify_inv in Hmsg as ->. eexists. split; [reflexivity|].
      by repeat constructor.
    - apply ret_inv in Hmsg as [_ ->]. exists []. split; [|constructor].
      destruct m. unfold set_output, set_materials. simpl.
      by rewrite app_nil_r. }
  bind_inv Hrun as [next1 graveyard1] m3 Hcells. simpl in Hcells.
  apply init_cells_registers in Hcells
    as (new_cells & l1 & Hc & Hclen & Hcapp & Hs & Hsm & Hms & Hmm & Hov
        & Hout & Hl1 & -> & Hvols).
  simpl in Hc, Hcapp, Hs, Hsm, Hms, Hmm, Hov, Hout, Hvols.
  bind_inv Hrun as [] m4 Hresize.
  assert (cells m4 = cells m3 ∧ cell_map m4 = cell_map m3
          ∧ surfaces m4 = surfaces m3 ∧ surface_map m4 = surface_map m3
          ∧ materials m4 = materials m3 ∧ material_map m4 = material_map m3
          ∧ output m4 = output m3
          ∧ overlap_check_count m4
            = (if settings_check_overlaps
               then resize0 (length (cells m3)) (overlap_check_count m3)
               else overlap_check_count m3))
    as (Hc4 & Hcm4 & Hs4 & Hsm4 & Hms4 & Hmm4 & Hout4 & Hov4).
  { unfold when in Hresize. destruct settings_check_overlaps.
    - bind_inv Hresize as n m5 Hn. apply gets_inv in Hn as [-> ->].
      by apply modify_inv in Hresize as ->.
    - by apply ret_inv in Hresize as [_ ->]. }
  bind_inv Hrun as [] m5 Hwarn.
  assert (cells m5 = cells m4 ∧ cell_map m5 = cell_map m4
          ∧ surfaces m5 = surfaces m4 ∧ surface_map m5 = surface_map m4
          ∧ materials m5 = materials m4 ∧ material_map m5 = material_map m4
          ∧ overlap_check_count m5 = overlap_check_count m4
          ∧ output m5
            = output m4
              ++ (if bool_decide
                       (tracked_graveyard
                          (h5m_volumes (load_file (filename_ u))) 0 = 0)
                  then [no_graveyard_warning] else []))
    as (Hc5 & Hcm5 & Hs5 & Hsm5 & Hms5 & Hmm5 & Hov5 & Hout5).
  { unfold when in Hwarn. destruct (bool_decide _).
    - by apply modify_inv in Hwarn as ->.
    - apply ret_inv in Hwarn as [_ ->]. by rewrite app_nil_r. }
  bind_inv Hrun as next2 m6 Hsurfs. apply ret_inv in Hrun as [-> ->].
  simpl in Hsurfs.
  apply init_surfaces_registers in Hsurfs
    as (new_surfs & Hs6 & Hslen & Hsapp & Hc6 & Hcm6 & Hms6 & Hmm6 & Hov6
        & Hout6 & Hsurfs).
  simpl in Hsurfs.
  split; [done|]. exists new_mats, new_cells, new_surfs, (l0 ++ l1).
  split; [|split].
  - split; [congruence|]. split; [congruence|].
    split; [rewrite Hov6, Hov5, Hov4, Hov, Hc6, Hc5, Hc4; done|].
    split; [|by apply Forall_app].
    by rewrite Hout6, Hout5, Hout4, Hout, <-!app_assoc.
  - split; [congruence|]. split; [done|].
    split; [by rewrite Hcm6, Hcm5, Hcm4|].
    exact Hvols.
  - rewrite Hs5, Hs4, Hs, Hsm5, Hsm4, Hsm in *.
    split; [done|]. split; [done|]. split; [done|]. exact Hsurfs.
Qed.
End ImportFacts.

Lemma registry_ok_csg_model :
  registry_ok (id_ <$> cells Example.csg_model) (cell_map Example.csg_model)
  ∧ registry_ok (surf_id_ <$> surfaces Example.csg_model)
      (surface_map Example.csg_model).
Proof.
  split; intros id k; simpl; intros [<- <-]%lookup_singleton_Some;
    reflexivity.
Qed.

Lemma fmap_eq_by_lookup {A B} (f : A → Z) (g : B → Z) (l1 : list A)
    (l2 : list B) :
  length l1 = length l2 →
  (∀ j b, l2 !! j = Some b → ∃ a, l1 !! j = Some a ∧ f a = g b) →
  f <$> l1 = g <$> l2.
Proof.
  intros Hlen Hall. apply list_eq. intros j. rewrite !list_lookup_fmap.
  destruct (l2 !! j) as [b|] eqn:Hb.
  - destruct (Hall _ _ Hb) as (a & -> & Hab). simpl. by rewrite Hab.
  - apply lookup_ge_None in Hb. rewrite <-Hlen in Hb.
    apply lookup_ge_None in Hb. by rewrite Hb.
Qed.

Lemma appended_keeps_old (n : nat) (ids : list Z) (mp mp' : gmap Z nat)
    (id : Z) (k : nat) :
  appended n ids mp mp' → mp !! id = Some k → mp' !! id = Some k.
Proof.
  intros (_ & Hnew & _ & Hold) Hk. rewrite Hold; [done|].
  intros Hin. specialize (Hnew _ Hin). congruence.
Qed.

(** An import that returns keeps the id maps consistent with the
    collections: if every entry of [cell_map] pointed at a cell with
    that id before, it does so after, and the entries present before
    are unchanged; the surfaces likewise. *)
Theorem import_keeps_registries `{Env} (u u' : DAGUniverse) (m m' : Model) :
  registry_ok (id_ <$> cells m) (cell_map m) →
  registry_ok (surf_id_ <$> surfaces m) (surface_map m) →
  initialize u m = (Ok u', m') →
  registry_ok (id_ <$> cells m') (cell_map m')
  ∧ registry_ok (surf_id_ <$> surfaces m') (surface_map m')
  ∧ (∀ id k, cell_map m !! id = Some k → cell_map m' !! id = Some k)
  ∧ (∀ id k, surface_map m !! id = Some k → surface_map m' !! id = Some k).
Proof.
  intros Hcells Hsurfs Hrun.
  apply initialize_ok_inv in Hrun
    as (_ & new_mats & new_cells & new_surfs & l & _
        & (Hc & _ & Hcapp & _) & (Hs & _ & Hsapp & _)).
  rewrite <-(length_fmap id_ (cells m)) in Hcapp.
  rewrite <-(length_fmap surf_id_ (surfaces m)) in Hsapp.
  rewrite Hc, Hs, !fmap_app. split_and!.
  - eapply appended_registry_ok; [exact Hcells|exact Hcapp].
  - eapply appended_registry_ok; [exact Hsurfs|exact Hsapp].
  - intros id k. by eapply appended_keeps_old.
  - intros id k. by eapply appended_keeps_old.
Qed.

Lemma import_keeps_registries_witness :
  let H := Example.env 7 Example.mesh in
  ∃ u' m',
    initialize (H := H) (Example.universe Example.mesh false)
      Example.csg_model = (Ok u', m')
    ∧ registry_ok (id_ <$> cells m') (cell_map m')
    ∧ cell_map m' !! 42 = Some 0%nat.
Proof.
  intros H. eexists _, _. split; [vm_compute; reflexivity|].
  destruct (import_keeps_registries (H := H)
              (Example.universe Example.mesh false) _ Example.csg_model _
              (proj1 registry_ok_csg_model) (proj2 registry_ok_csg_model)
              ltac:(vm_compute; reflexivity)) as (Hc & _ & Hold & _).
  split; [exact Hc|]. apply Hold. reflexivity.
Defined.

(** The offsets that [initialize] stores are the positions of the
    universe's first cell and first surface: the cell of the volume of
    index j stands at [cell_idx_offset_ + j] in [model::cells], has
    DAGMC index j + 1, belongs to the universe, is not filled, and
    [cell_map] sends its id back to that position; the surfaces
    likewise. *)
Theorem imported_positions `{Env} (u u' : DAGUniverse) (m m' : Model) :
  initialize u m = (Ok u', m') →
  (∀ j vol, h5m_volumes (dagmc_instance_ u') !! j = Some vol →
     ∃ c, cells m' !! (cell_idx_offset_ u' + j)%nat = Some c
          ∧ dag_index_ c = Z.of_nat j + 1
          ∧ universe_ c = univ_id_ u' ∧ fill_ c = C_NONE
          ∧ cell_map m' !! id_ c = Some (cell_idx_offset_ u' + j)%nat)
  ∧ (∀ j surf, h5m_surfaces (dagmc_instance_ u') !! j = Some surf →
       ∃ s, surfaces m' !! (surf_idx_offset_ u' + j)%nat = Some s
            ∧ surf_dag_index_ s = Z.of_nat j + 1
            ∧ surface_map m' !! surf_id_ s
              = Some (surf_idx_offset_ u' + j)%nat)
  ∧ length (cells m')
    = (cell_idx_offset_ u' + length (h5m_volumes (dagmc_instance_ u')))%nat
  ∧ length (surfaces m')
    = (surf_idx_offset_ u' + length (h5m_surfaces (dagmc_instance_ u')))%nat.
Proof.
  intros Hrun.
  apply initialize_ok_inv in Hrun
    as ((Hid & _ & _ & _ & -> & -> & ->) & new_mats & new_cells & new_surfs
        & l & _ & (Hc & Hclen & (_ & _ & Hcpos & _) & Hvols)
        & (Hs & Hslen & (_ & _ & Hspos & _) & Hsurfs)).
  split_and!.
  - intros j vol Hj. destruct (Hvols _ _ Hj) as (c & Hc' & Hdag & Hu & Hf & _).
    exists c. rewrite Hc, lookup_app_r by lia.
    replace (length (cells m) + j - length (cells m))%nat with j by lia.
    split_and!; try done; [congruence|].
    apply Hcpos. by rewrite list_lookup_fmap, Hc'.
  - intros j surf Hj. destruct (Hsurfs _ _ Hj) as (s & bc & Hs' & Hdag & _).
    exists s. rewrite Hs, lookup_app_r by lia.
    replace (length (surfaces m) + j - length (surfaces m))%nat with j by lia.
    split_and!; try done.
    apply Hspos. by rewrite list_lookup_fmap, Hs'.
  - by rewrite Hc, length_app, Hclen.
  - by rewrite Hs, length_app, Hslen.
Qed.

Lemma imported_positions_witness :
  let H := Example.env 7 Example.mesh in
  ∃ u' m' c,
    initialize (H := H) (Example.universe Example.mesh false)
      Example.csg_model = (Ok u', m')
    ∧ cell_idx_offset_ u' = 1%nat
    ∧ cells m' !! 2%nat = Some c ∧ id_ c = 6
    ∧ cell_map m' !! 6 = Some 2%nat.
Proof.
  intros H.
  pose proof (imported_positions (H := H)
                (Example.universe Example.mesh false) _ Example.csg_model _
                ltac:(vm_compute; reflexivity)) as (Hcells & _).
  destruct (Hcells 1%nat (Example.volume 102 6 "Graveyard" None) eq_refl)
    as (c & Hc & _).
  eexists _, _, c. split; [vm_compute; reflexivity|].
  split; [reflexivity|]. split; [exact Hc|].
  vm_compute in Hc. injection Hc as <-. split; reflexivity.
Defined.

(** An import that keeps the ids of the file gives the new cells the
    ids of the volumes in the order of the enumeration, and returns
    only if these ids are pairwise distinct and none of them was a key
    of [cell_map]; the surfaces likewise.  Two volumes of one file
    with the same id therefore end the import. *)
Theorem preserved_ids `{Env} (u u' : DAGUniverse) (m m' : Model) :
  let vols := h5m_volumes (load_file (filename_ u)) in
  let surfs := h5m_surfaces (load_file (filename_ u)) in
  adjust_geometry_ids_ u = false →
  initialize u m = (Ok u', m') →
  (id_ <$> drop (length (cells m)) (cells m') = vol_id <$> vols
   ∧ NoDup (vol_id <$> vols)
   ∧ ∀ vol, vol ∈ vols → cell_map m !! vol_id vol = None)
  ∧ (surf_id_ <$> drop (length (surfaces m)) (surfaces m') = surf_id <$> surfs
     ∧ NoDup (surf_id <$> surfs)
     ∧ ∀ surf, surf ∈ surfs → surface_map m !! surf_id surf = None).
Proof.
  intros vols surfs Hadj Hrun.
  apply initialize_ok_inv in Hrun
    as (_ & new_mats & new_cells & new_surfs & l & _
        & (Hc & Hclen & (Hcnd & Hcfree & _) & Hvols)
        & (Hs & Hslen & (Hsnd & Hsfree & _) & Hsurfs)).
  assert (id_ <$> new_cells = vol_id <$> vols) as Hcids.
  { apply fmap_eq_by_lookup; [done|]. intros j vol Hj.
    destruct (Hvols _ _ Hj) as (c & Hc' & _ & _ & _ & Hid). eauto. }
  assert (surf_id_ <$> new_surfs = surf_id <$> surfs) as Hsids.
  { apply fmap_eq_by_lookup; [done|]. intros j surf Hj.
    destruct (Hsurfs _ _ Hj) as (s & bc & Hs' & _ & _ & _ & Hid). eauto. }
  rewrite Hc, Hs, !drop_app_length. rewrite Hcids in Hcnd, Hcfree.
  rewrite Hsids in Hsnd, Hsfree. split_and!; try done.
  - intros vol Hvol. apply Hcfree. by apply list_elem_of_fmap_2.
  - intros surf Hsurf. apply Hsfree. by apply list_elem_of_fmap_2.
Qed.

Lemma preserved_ids_witness :
  let H := Example.env 7 Example.mesh in
  ∃ u' m',
    initialize (H := H) (Example.universe Example.mesh false)
      Example.csg_model = (Ok u', m')
    ∧ id_ <$> drop 1 (cells m') = [5; 6]
    ∧ surf_id_ <$> drop 1 (surfaces m') = [8; 9].
Proof.
  intros H. eexists _, _. split; [vm_compute; reflexivity|].
  destruct (preserved_ids (H := H) (Example.universe Example.mesh false) _
              Example.csg_model _ eq_refl ltac:(vm_compute; reflexivity))
    as ((Hc & _) & (Hs & _)).
  split; [exact Hc|exact Hs].
Defined.

(** ** The graveyard that the volume loop tracks *)

Lemma tracked_graveyard_app (a b : list Volume) (g : Z) :
  tracked_graveyard (a ++ b) g = tracked_graveyard b (tracked_graveyard a g).
Proof. apply fold_left_app. Qed.

Lemma tracked_graveyard_none (vols : list Volume) (g : Z) :
  Forall (λ v, to_lower (vol_material v) ≠ "graveyard") vols →
  tracked_graveyard vols g = g.
Proof.
  induction 1 as [|v vols Hv _ IH]; [done|].
  unfold tracked_graveyard in *. simpl.
  by rewrite bool_decide_eq_false_2.
Qed.

(** The last volume tagged as graveyard is the one tracked. *)
Lemma tracked_graveyard_last (before after : list Volume) (gy : Volume)
    (g : Z) :
  to_lower (vol_material gy) = "graveyard" →
  Forall (λ v, to_lower (vol_material v) ≠ "graveyard") after →
  tracked_graveyard (before ++ gy :: after) g = vol_handle gy.
Proof.
  intros Hgy Hafter. rewrite tracked_graveyard_app.
  change (tracked_graveyard (gy :: after) ?g0)
    with (tracked_graveyard after
            (if bool_decide (to_lower (vol_material gy) = "graveyard")
             then vol_handle gy else g0)).
  rewrite bool_decide_eq_true_2 by done. by apply tracked_graveyard_none.
Qed.

Lemma tracked_graveyard_zero (vols : list Volume) :
  Forall (λ v, vol_handle v ≠ 0) vols →
  tracked_graveyard vols 0 = 0
  ↔ Forall (λ v, to_lower (vol_material v) ≠ "graveyard") vols.
Proof.
  induction vols as [|v vols IH] using rev_ind; intros Hh.
  { split; [constructor|done]. }
  apply Forall_app in Hh as [Hh Hv]. rewrite Forall_singleton in Hv.
  rewrite tracked_graveyard_app, Forall_app, Forall_singleton.
  unfold tracked_graveyard at 1. simpl. case_bool_decide as Hgy.
  - split; [done|]. by intros [_ ?].
  - rewrite (IH Hh). tauto.
Qed.

(** Only the last volume tagged as graveyard makes its surfaces
    vacuum.  When the volumes of the file are [before ++ gy :: after]
    with [gy] tagged as graveyard (in any case) and no volume of
    [after] so tagged, every surface of an import that returns carries
    the vacuum condition if [gy] is among its parent volumes, and the
    condition of its own tag otherwise: a surface that bounds only an
    earlier graveyard volume is not made vacuum. *)
Theorem last_graveyard_surfaces `{Env} (u u' : DAGUniverse) (m m' : Model)
    (before after : list Volume) (gy : Volume) :
  h5m_volumes (load_file (filename_ u)) = before ++ gy :: after →
  to_lower (vol_material gy) = "graveyard" →
  Forall (λ v, to_lower (vol_material v) ≠ "graveyard") after →
  vol_handle gy ≠ 0 →
  initialize u m = (Ok u', m') →
  ∀ j surf, h5m_surfaces (load_file (filename_ u)) !! j = Some surf →
    ∃ s bc,
      surfaces m' !! (length (surfaces m) + j)%nat = Some s
      ∧ tag_condition (to_lower (surf_boundary surf)) = Some bc
      ∧ bc_ s = (if bool_decide (vol_handle gy ∈ surf_parent_vols surf)
                 then Some VacuumBC else bc).
Proof.
  intros Hvols Hgy Hafter Hhandle Hrun j surf Hj.
  apply initialize_ok_inv in Hrun
    as (_ & new_mats & new_cells & new_surfs & l & _ & _
        & (Hs & _ & _ & Hsurfs)).
  destruct (Hsurfs _ _ Hj) as (s & bc & Hs' & _ & Hbc & Hcond & _).
  exists s, bc. rewrite Hs, lookup_app_r by lia.
  replace (length (surfaces m) + j - length (surfaces m))%nat with j by lia.
  split; [done|]. split; [done|].
  rewrite Hcond, Hvols, tracked_graveyard_last by done.
  unfold surface_condition. by rewrite bool_decide_eq_false_2.
Qed.

Lemma last_graveyard_surfaces_witness :
  let H := Example.env 7 Example.two_graveyards in
  ∃ u' m' s1 s2,
    initialize (H := H) (Example.universe Example.two_graveyards false)
      Example.empty_model = (Ok u', m')
    ∧ surfaces m' = [s1; s2]
    ∧ bc_ s1 = Some ReflectiveBC ∧ bc_ s2 = Some VacuumBC.
Proof.
  intros H.
  pose proof (last_graveyard_surfaces (H := H)
                (Example.universe Example.two_graveyards false) _
                Example.empty_model _
                [Example.volume 101 1 "graveyard" None;
                 Example.volume 102 2 "void" None]
                [] (Example.volume 103 3 "Graveyard" None)
                eq_refl eq_refl (Forall_nil_2 _) ltac:(done)
                ltac:(vm_compute; reflexivity))
    as Hsurfs.
  destruct (Hsurfs 0%nat _ eq_refl) as (s1 & bc1 & Hs1 & Hbc1 & Hc1).
  destruct (Hsurfs 1%nat _ eq_refl) as (s2 & bc2 & Hs2 & Hbc2 & Hc2).
  eexists _, _, s1, s2. split; [vm_compute; reflexivity|].
  vm_compute in Hs1, Hs2. injection Hs1 as <-. injection Hs2 as <-.
  repeat split; reflexivity.
Defined.

(** The lines that an import which returns has written are messages,
    followed by the missing-graveyard warning exactly when no volume is
    tagged as graveyard (volume handles are not 0); no other warning is
    written.  Without a graveyard every new surface carries the
    condition of its own tag. *)
Theorem missing_graveyard_warning `{Env} (u u' : DAGUniverse) (m m' : Model) :
  let vols := h5m_volumes (load_file (filename_ u)) in
  let surfs := h5m_surfaces (load_file (filename_ u)) in
  let untagged :=
    Forall (λ v, to_lower (vol_material v) ≠ "graveyard") vols in
  Forall (λ v, vol_handle v ≠ 0) vols →
  initialize u m = (Ok u', m') →
  ∃ l,
    output m' = output m ++ l
    ∧ Forall (λ p, is_message p ∨ p = no_graveyard_warning) l
    ∧ (no_graveyard_warning ∈ l ↔ untagged)
    ∧ (untagged → last l = Some no_graveyard_warning)
    ∧ (untagged →
       ∀ j surf, surfs !! j = Some surf →
         ∃ s, surfaces m' !! (length (surfaces m) + j)%nat = Some s
              ∧ tag_condition (to_lower (surf_boundary surf))
                = Some (bc_ s)).
Proof.
  intros vols surfs untagged Hhandles Hrun.
  apply initialize_ok_inv in Hrun
    as (_ & new_mats & new_cells & new_surfs & l & (_ & _ & _ & Hout & Hl) & _
        & (Hs & _ & _ & Hsurfs)).
  fold vols in Hout, Hsurfs. fold surfs in Hsurfs.
  pose proof (tracked_graveyard_zero vols Hhandles) as Hzero.
  fold untagged in Hzero.
  assert (no_graveyard_warning ∉ l) as Hnot.
  { intros Hin. by apply (proj1 (Forall_forall _ _) Hl) in Hin. }
  eexists. split; [exact Hout|]. split_and!.
  - apply Forall_app. split; [by eapply Forall_impl; [exact Hl|]; left|].
    case_bool_decide; by repeat constructor.
  - rewrite elem_of_app. case_bool_decide as Hg.
    + split; [tauto|]. intros _. right. apply list_elem_of_here.
    + split; [|tauto]. by intros [?|?%elem_of_nil].
  - intros Hun. rewrite bool_decide_eq_true_2 by tauto. apply last_snoc.
  - intros Hun j surf Hj.
    destruct (Hsurfs _ _ Hj) as (s & bc & Hs' & _ & Hbc & Hcond & _).
    exists s. rewrite Hs, lookup_app_r by lia.
    replace (length (surfaces m) + j - length (surfaces m))%nat with j by lia.
    split; [done|]. rewrite Hcond, (proj2 Hzero Hun). by rewrite Hbc.
Qed.

Lemma missing_graveyard_warning_witness :
  let H := Example.env 7 Example.void_mesh in
  ∃ u' m',
    initialize (H := H) (Example.universe Example.void_mesh false)
      Example.empty_model = (Ok u', m')
    ∧ output m' = [no_graveyard_warning].
Proof.
  intros H. eexists _, _. split; [vm_compute; reflexivity|].
  destruct (missing_graveyard_warning (H := H)
              (Example.universe Example.void_mesh false) _
              Example.empty_model _
              ltac:(by repeat constructor) ltac:(vm_compute; reflexivity))
    as (l & Hout & _).
  reflexivity.
Defined.

Lemma length_resize0 (n : nat) (v : list Z) : length (resize0 n v) = n.
Proof.
  unfold resize0. rewrite length_app, length_take, length_replicate. lia.
Qed.

Lemma resize0_grow (n : nat) (v : list Z) :
  (length v ≤ n)%nat → resize0 n v = v ++ replicate (n - length v) 0.
Proof. intros Hle. unfold resize0. by rewrite take_ge. Qed.

(** With the overlap check switched on, an import that returns leaves
    one overlap counter per cell of the model: the counters present
    before are kept and those of the new cells are 0.  With the check
    off the counters are not touched. *)
Theorem overlap_counters `{Env} (u u' : DAGUniverse) (m m' : Model) :
  initialize u m = (Ok u', m') →
  if settings_check_overlaps then
    length (overlap_check_count m') = length (cells m')
    ∧ ((length (overlap_check_count m) ≤ length (cells m'))%nat →
       overlap_check_count m'
       = overlap_check_count m
         ++ replicate (length (cells m') - length (overlap_check_count m)) 0)
  else overlap_check_count m' = overlap_check_count m.
Proof.
  intros Hrun.
  apply initialize_ok_inv in Hrun
    as (_ & new_mats & new_cells & new_surfs & l & (_ & _ & Hov & _) & _).
  destruct settings_check_overlaps; [|done]. rewrite Hov. split.
  - apply length_resize0.
  - apply resize0_grow.
Qed.

Lemma overlap_counters_witness :
  let H := Example.env_overlaps Example.mesh in
  ∃ u' m',
    initialize (H := H) (Example.universe Example.mesh false)
      Example.csg_model = (Ok u', m')
    ∧ overlap_check_count m' = [0; 0; 0].
Proof.
  intros H. eexists _, _. split; [vm_compute; reflexivity|].
  destruct (overlap_counters (H := H) (Example.universe Example.mesh false) _
              Example.csg_model _ ltac:(vm_compute; reflexivity))
    as [_ Hgrow].
  apply Hgrow. simpl. lia.
Defined.

(** ** Where a computation can stop *)

Section StopsOnly.
Context {Q : failure → Prop}.

Lemma stops_only_ret {A} (a : A) : stops_only Q (ret a).
Proof. intros m f m' Hrun. discriminate. Qed.

Lemma stops_only_stop {A} (f : failure) :
  Q f → stops_only (A := A) Q (stop f).
Proof. by intros Hf m f' m' [= <- _]. Qed.

Lemma stops_only_gets {A} (g : Model → A) : stops_only Q (gets g).
Proof. intros m f m' Hrun. discriminate. Qed.

Lemma stops_only_modify (g : Model → Model) : stops_only Q (modify g).
Proof. intros m f m' Hrun. discriminate. Qed.

Lemma stops_only_bind {A B} (c : M A) (k : A → M B) :
  stops_only Q c → (∀ a, stops_only Q (k a)) → stops_only Q (bind c k).
Proof.
  intros Hc Hk m f m'. rewrite bind_eq.
  destruct (c m) as [[a|f1] m1] eqn:Hrun.
  - apply Hk.
  - intros [= <- _]. eapply Hc, Hrun.
Qed.

Lemma stops_only_when (b : bool) (c : M unit) :
  stops_only Q c → stops_only Q (when b c).
Proof. destruct b; [done|]. intros _. apply stops_only_ret. Qed.

Lemma stops_only_index {A} (v : list A) (k : nat) :
  Q undefined_behaviour → stops_only Q (index v k).
Proof.
  intros HQ. unfold index.
  destruct (v !! k); [apply stops_only_ret|by apply stops_only_stop].
Qed.

Lemma stops_only_map_at (g : Model → gmap Z nat) (k : Z) :
  Q uncaught_out_of_range → stops_only Q (map_at g k).
Proof.
  intros HQ. unfold map_at. apply stops_only_bind; [apply stops_only_gets|].
  intros mp. destruct (mp !! k); [apply stops_only_ret|by apply stops_only_stop].
Qed.
End StopsOnly.

Ltac stops_step :=
  lazymatch goal with
  | |- stops_only _ (ret _) => apply stops_only_ret
  | |- stops_only _ (stop _) => apply stops_only_stop
  | |- stops_only _ (fatal _) => apply stops_only_stop
  | |- stops_only _ (gets _) => apply stops_only_gets
  | |- stops_only _ (modify _) => apply stops_only_modify
  | |- stops_only _ (index _ _) => apply stops_only_index
  | |- stops_only _ (map_at _ _) => apply stops_only_map_at
  | |- stops_only _ (bind _ _) => apply stops_only_bind; [|intros ?; cbv beta]
  | |- stops_only _ (when _ _) => apply stops_only_when
  | |- stops_only _ (match ?x with _ => _ end) => destruct x
  | |- stops_only _ _ => solve [eauto]
  end.

(** A failure other than the two collision errors: it is not a fatal
    error, or its message starts with another letter. *)
Ltac not_collision :=
  let u := fresh "u" in
  let id := fresh "id" in
  let Heq := fresh "Heq" in
  intros (u & id & [Heq|Heq]); discriminate Heq.

Ltac stops_tac := repeat stops_step; try not_collision.

Section CollisionFacts.
Context `{Env}.

Lemma match_by_name_no_collision (mat_string : string) (ms : list Material)
    (found : bool) (c : DAGCell) :
  stops_only (λ f, ¬ is_collision f) (match_by_name mat_string ms found c).
Proof.
  revert found c. induction ms as [|mt ms IH]; intros found c; simpl;
    stops_tac.
Qed.

Lemma legacy_assign_material_no_collision (tag : string) (c : DAGCell) :
  stops_only (λ f, ¬ is_collision f) (legacy_assign_material tag c).
Proof.
  unfold legacy_assign_material, write_message.
  pose proof match_by_name_no_collision. stops_tac.
Qed.

Lemma assign_material_no_collision (u : DAGUniverse) (using_uwuw : bool)
    (vol : Volume) (mat_str : string) (c : DAGCell) :
  stops_only (λ f, ¬ is_collision f)
    (assign_material u using_uwuw vol mat_str c).
Proof.
  unfold assign_material. pose proof legacy_assign_material_no_collision.
  stops_tac.
Qed.

Lemma assign_temperature_no_collision (vol : Volume) (c : DAGCell) :
  stops_only (λ f, ¬ is_collision f) (assign_temperature vol c).
Proof. unfold assign_temperature. stops_tac. Qed.

Lemma classify_bc_no_collision (bc_value : string) (s : DAGSurface) :
  stops_only (λ f, ¬ is_collision f) (classify_bc bc_value s).
Proof. unfold classify_bc. stops_tac. Qed.

Lemma read_uwuw_materials_no_collision (u : DAGUniverse) :
  stops_only (λ f, ¬ is_collision f) (read_uwuw_materials u).
Proof. unfold read_uwuw_materials. stops_tac. Qed.

(** A turn of the volume loop whose candidate id is free does not end
    in a collision error. *)
Lemma init_cell_no_collision (u : DAGUniverse) (using_uwuw : bool) (i : nat)
    (vol : Volume) (next_cell_id graveyard : Z) (f : failure) (m m' : Model) :
  cell_map m !! (if adjust_geometry_ids_ u then next_cell_id else vol_id vol)
  = None →
  init_cell u using_uwuw i vol next_cell_id graveyard m = (Stop f, m') →
  ¬ is_collision f.
Proof.
  intros Hfree. unfold init_cell.
  rewrite bind_eq, register_cell_free by exact Hfree.
  lazymatch goal with
  | |- ?c ?m1 = _ → _ =>
      cut (stops_only (λ f, ¬ is_collision f) c);
      [intros Hs Hrun; exact (Hs _ _ _ Hrun)|]
  end.
  pose proof assign_material_no_collision.
  pose proof assign_temperature_no_collision.
  stops_tac.
Qed.

Lemma init_surface_no_collision (u : DAGUniverse) (i : nat) (surf : Surface)
    (next_surf_id graveyard : Z) (f : failure) (m m' : Model) :
  surface_map m !! (if adjust_geometry_ids_ u then next_surf_id
                    else surf_id surf) = None →
  init_surface u i surf next_surf_id graveyard m = (Stop f, m') →
  ¬ is_collision f.
Proof.
  intros Hfree. unfold init_surface. rewrite bind_eq.
  destruct (classify_bc _ _ m) as [[s1|f1] m1] eqn:Hcl.
  - apply classify_bc_ok_inv in Hcl as (-> & Hid & _). simpl in Hid.
    rewrite bind_eq, register_surface_free
      by (by rewrite graveyard_check_id, Hid).
    discriminate.
  - intros [= <- _]. by eapply classify_bc_no_collision.
Qed.
End CollisionFacts.

Section RenumberFacts.
Context `{Env}.

Lemma init_cells_no_collision (u : DAGUniverse) (using_uwuw : bool)
    (vols : list Volume) (i : nat) (next_cell_id graveyard : Z)
    (f : failure) (m m' : Model) :
  adjust_geometry_ids_ u = true →
  (∀ id k, cell_map m !! id = Some k → id < next_cell_id) →
  INT_MIN ≤ next_cell_id → next_cell_id + Z.of_nat (length vols) ≤ INT_MAX →
  init_cells u using_uwuw i vols next_cell_id graveyard m = (Stop f, m') →
  ¬ is_collision f.
Proof.
  intros Hadj. revert i next_cell_id graveyard m.
  induction vols as [|vol vols IH]; intros i next graveyard m Hkeys Hlo Hhi Hrun;
    [discriminate|].
  assert (cell_map m !! next = None) as Hfree.
  { destruct (cell_map m !! next) as [k|] eqn:Hk; [|done].
    apply Hkeys in Hk. lia. }
  cbn [init_cells] in Hrun. rewrite bind_eq in Hrun. simpl in Hhi.
  destruct (init_cell u using_uwuw i vol next graveyard m)
    as [[[next1 graveyard1]|f1] m1] eqn:Hstep.
  - apply init_cell_registers in Hstep
      as (c & l & _ & _ & Hcm & _ & _ & _ & _ & _ & _ & _ & Hid & _ & _ & _
          & -> & _).
    rewrite Hadj in Hid, Hrun.
    rewrite wrap32_id in Hrun by (unfold in_int, INT_MIN, INT_MAX in *; lia).
    eapply IH; [| | |exact Hrun]; [|lia..].
    intros id k. rewrite Hcm, Hid.
    intros [[<- _]|[_ Hk]]%lookup_insert_Some; [lia|].
    apply Hkeys in Hk. lia.
  - injection Hrun as <- _. eapply init_cell_no_collision; [|exact Hstep].
    by rewrite Hadj.
Qed.

Lemma init_surfaces_no_collision (u : DAGUniverse) (surfs : list Surface)
    (i : nat) (next_surf_id graveyard : Z) (f : failure) (m m' : Model) :
  adjust_geometry_ids_ u = true →
  (∀ id k, surface_map m !! id = Some k → id < next_surf_id) →
  INT_MIN ≤ next_surf_id → next_surf_id + Z.of_nat (length surfs) ≤ INT_MAX →
  init_surfaces u i surfs next_surf_id graveyard m = (Stop f, m') →
  ¬ is_collision f.
Proof.
  intros Hadj. revert i next_surf_id m.
  induction surfs as [|surf surfs IH]; intros i next m Hkeys Hlo Hhi Hrun;
    [discriminate|].
  assert (surface_map m !! next = None) as Hfree.
  { destruct (surface_map m !! next) as [k|] eqn:Hk; [|done].
    apply Hkeys in Hk. lia. }
  cbn [init_surfaces] in Hrun. rewrite bind_eq in Hrun. simpl in Hhi.
  destruct (init_surface u i surf next graveyard m) as [[next1|f1] m1]
    eqn:Hstep.
  - apply init_surface_registers in Hstep
      as (s & bc & _ & _ & Hsm & _ & _ & _ & _ & _ & _ & Hid & _ & _ & _ & ->).
    rewrite Hadj in Hid, Hrun.
    rewrite wrap32_id in Hrun by (unfold in_int, INT_MIN, INT_MAX in *; lia).
    eapply IH; [| | |exact Hrun]; [|lia..].
    intros id k. rewrite Hsm, Hid.
    intros [[<- _]|[_ Hk]]%lookup_insert_Some; [lia|].
    apply Hkeys in Hk. lia.
  - injection Hrun as <- _. eapply init_surface_no_collision; [|exact Hstep].
    by rewrite Hadj.
Qed.

(** A consistent id map has no key above the highest id. *)
Lemma registry_ok_below {A} (id : A → Z) (l : list A) (mp : gmap Z nat)
    (x : Z) (k : nat) :
  registry_ok (id <$> l) mp → mp !! x = Some k → x ≤ highest_id id l.
Proof.
  intros Hok Hk. apply Hok in Hk. rewrite list_lookup_fmap in Hk.
  destruct (l !! k) as [a|] eqn:Ha; [|discriminate]. injection Hk as <-.
  apply highest_id_spec. by eapply list_elem_of_lookup_2.
Qed.
End RenumberFacts.

(** With automatic ids and id maps that are consistent with the
    collections, the import never ends in the collision error of a cell
    or of a surface: the ids it hands out lie above every id present
    (short of the overflow of [int32_t]). *)
Theorem renumbering_never_collides `{Env} (u : DAGUniverse) (m m' : Model)
    (f : failure) :
  let vols := h5m_volumes (load_file (filename_ u)) in
  let surfs := h5m_surfaces (load_file (filename_ u)) in
  adjust_geometry_ids_ u = true →
  registry_ok (id_ <$> cells m) (cell_map m) →
  registry_ok (surf_id_ <$> surfaces m) (surface_map m) →
  highest_id id_ (cells m) + Z.of_nat (length vols) < INT_MAX →
  highest_id surf_id_ (surfaces m) + Z.of_nat (length surfs) < INT_MAX →
  initialize u m = (Stop f, m') →
  ¬ is_collision f.
Proof.
  intros vols surfs Hadj Hcells Hsurfs Hcmax Hsmax Hrun.
  pose proof (highest_id_spec id_ (cells m)) as (Hc0 & _).
  pose proof (highest_id_spec surf_id_ (surfaces m)) as (Hs0 & _).
  unfold initialize in Hrun. rewrite !bind_gets, bind_eq in Hrun.
  destruct (read_uwuw_materials _ m) as [[u1|f1] m1] eqn:Hread.
  2: { injection Hrun as <- _. by eapply read_uwuw_materials_no_collision. }
  assert (cell_map m1 = cell_map m ∧ surface_map m1 = surface_map m)
    as [Hcm1 Hsm1].
  { by apply read_uwuw_materials_ok_inv in Hread
      as [(_ & _ & ->)|(_ & new & _ & _ & ->)]. }
  apply read_uwuw_materials_flags in Hread as (Hadj1 & _ & Hfile & _).
  simpl in Hadj1, Hfile.
  rewrite bind_eq in Hrun.
  destruct (when (uses_uwuw u1) _ m1) as [[[]|f2] m2] eqn:Hmsg.
  2: { unfold when, write_message, modify, ret in Hmsg.
       destruct (uses_uwuw u1); discriminate. }
  assert (cell_map m2 = cell_map m1 ∧ surface_map m2 = surface_map m1)
    as [Hcm2 Hsm2].
  { unfold when in Hmsg. destruct (uses_uwuw u1).
    - by apply modify_inv in Hmsg as ->.
    - by apply ret_inv in Hmsg as [_ ->]. }
  rewrite bind_eq in Hrun. simpl in Hrun. rewrite Hfile in Hrun.
  fold vols surfs in Hrun.
  destruct (init_cells _ _ _ vols _ _ m2) as [[[next1 graveyard]|f3] m3]
    eqn:Hloop.
  2: { injection Hrun as <- _.
       eapply init_cells_no_collision; [..|exact Hloop].
       - simpl. congruence.
       - intros id k. rewrite Hcm2, Hcm1. intros Hk.
         apply (registry_ok_below _ _ _ _ _ Hcells) in Hk.
         rewrite wrap32_id by (unfold in_int, INT_MIN, INT_MAX in *; lia). lia.
       - rewrite wrap32_id; unfold in_int, INT_MIN, INT_MAX in *; lia.
       - rewrite wrap32_id; unfold in_int, INT_MIN, INT_MAX in *; lia. }
  apply init_cells_registers in Hloop
    as (new & l & _ & _ & _ & _ & Hsm3 & _).
  rewrite bind_eq in Hrun.
  destruct (when settings_check_overlaps _ m3) as [[[]|f4] m4] eqn:Hover.
  2: { unfold when in Hover. destruct settings_check_overlaps; discriminate. }
  assert (surface_map m4 = surface_map m3) as Hsm4.
  { unfold when in Hover. destruct settings_check_overlaps.
    - bind_inv Hover as n m5 Hn. apply gets_inv in Hn as [-> ->].
      by apply modify_inv in Hover as ->.
    - by apply ret_inv in Hover as [_ ->]. }
  rewrite bind_eq in Hrun.
  destruct (when (bool_decide (graveyard = 0)) _ m4) as [[[]|f5] m5]
    eqn:Hwarn.
  2: { unfold when in Hwarn. destruct (bool_decide _); discriminate. }
  assert (surface_map m5 = surface_map m4) as Hsm5.
  { unfold when in Hwarn. destruct (bool_decide _).
    - by apply modify_inv in Hwarn as ->.
    - by apply ret_inv in Hwarn as [_ ->]. }
  rewrite bind_eq in Hrun.
  destruct (init_surfaces _ _ surfs _ _ m5) as [[next2|f6] m6] eqn:Hsloop;
    [discriminate|].
  injection Hrun as <- _.
  eapply init_surfaces_no_collision; [..|exact Hsloop].
  - simpl. congruence.
  - intros id k. rewrite Hsm5, Hsm4, Hsm3, Hsm2, Hsm1. intros Hk.
    apply (registry_ok_below _ _ _ _ _ Hsurfs) in Hk.
    rewrite wrap32_id by (unfold in_int, INT_MIN, INT_MAX in *; lia). lia.
  - rewrite wrap32_id; unfold in_int, INT_MIN, INT_MAX in *; lia.
  - rewrite wrap32_id; unfold in_int, INT_MIN, INT_MAX in *; lia.
Qed.

Lemma renumbering_never_collides_witness :
  let H := Example.env 7 Example.periodic_mesh in
  ∃ m',
    initialize (H := H) (Example.universe Example.periodic_mesh true)
      Example.csg_model
    = (Stop (fatal_error "Periodic boundary condition not supported in DAGMC."),
       m')
    ∧ ¬ is_collision
          (fatal_error "Periodic boundary condition not supported in DAGMC.").
Proof.
  intros H. eexists. split; [vm_compute; reflexivity|].
  apply (renumbering_never_collides (H := H)
           (Example.universe Example.periodic_mesh true) Example.csg_model _ _
           eq_refl (proj1 registry_ok_csg_model) (proj2 registry_ok_csg_model)
           ltac:(vm_compute; reflexivity) ltac:(vm_compute; reflexivity)
           ltac:(vm_compute; reflexivity)).
Defined.

(** ** The material library *)

Lemma highest_material_id_spec (ms : list Material) :
  0 ≤ highest_material_id ms
  ∧ ∀ mt, mt ∈ ms → mat_id_ mt ≤ highest_material_id ms.
Proof.
  unfold highest_material_id.
  assert (∀ acc,
    let h := fold_left (λ n mt, Z.max (mat_id_ mt) n) ms acc in
    acc ≤ h ∧ ∀ mt, mt ∈ ms → mat_id_ mt ≤ h) as Hgen.
  { induction ms as [|mt0 ms IH]; intros acc; simpl.
    - split; [lia|]. by intros mt ?%elem_of_nil.
    - destruct (IH (Z.max (mat_id_ mt0) acc)) as [Hacc Hall].
      split; [lia|]. intros mt [->|Hin]%elem_of_cons; [lia|by apply Hall]. }
  apply Hgen.
Qed.

Lemma renumber_keys (next : Z) (lib : list (string * Z)) :
  fst <$> renumber next lib = fst <$> lib.
Proof.
  revert next. induction lib as [|[k v] lib IH]; intros next; [done|].
  simpl. by rewrite IH.
Qed.

Lemma renumber_numbers (next : Z) (lib : list (string * Z)) :
  INT_MIN ≤ next → next + Z.of_nat (length lib) ≤ INT_MAX + 1 →
  snd <$> renumber next lib = seqZ next (Z.of_nat (length lib)).
Proof.
  revert next. induction lib as [|[k v] lib IH]; intros next Hlo Hhi; [done|].
  cbn [renumber fmap list_fmap snd length] in *.
  rewrite (seqZ_cons next) by lia.
  replace (Z.pred (Z.of_nat (S (length lib)))) with (Z.of_nat (length lib))
    by lia.
  f_equal. destruct lib as [|e lib]; [done|].
  rewrite wrap32_id by (simpl in Hhi; unfold in_int, INT_MIN, INT_MAX in *; lia).
  apply IH; lia.
Qed.

(** What [read_uwuw_materials] leaves when it returns.  An empty
    library leaves the model as it was.  Without automatic material
    ids the library is the file's.  With them its keys are the file's,
    in order, and its numbers are h+1, h+2, ... for h the highest
    material id present (0 if there is none or all are negative), so
    that each is above the id of every material present.  The materials
    built from the library are appended to [model::materials]; the
    cells, the surfaces and their id maps are not touched. *)
Theorem uwuw_library_numbers `{Env} (u u' : DAGUniverse) (m m' : Model) :
  let lib0 := h5m_library (load_file (filename_ u)) in
  let h := highest_material_id (materials m) in
  read_uwuw_materials u m = (Ok u', m') →
  (lib0 = [] → uwuw_library u' = [] ∧ m' = m)
  ∧ (adjust_material_ids_ u = false → uwuw_library u' = lib0)
  ∧ (adjust_material_ids_ u = true →
     h + Z.of_nat (length lib0) ≤ INT_MAX →
     fst <$> uwuw_library u' = fst <$> lib0
     ∧ snd <$> uwuw_library u' = seqZ (h + 1) (Z.of_nat (length lib0))
     ∧ ∀ mt e, mt ∈ materials m → e ∈ uwuw_library u' → mat_id_ mt < e.2)
  ∧ (∃ new, materials m' = materials m ++ new
            ∧ (lib0 ≠ [] → uwuw_materials (uwuw_library u') = Some new))
  ∧ same_geometry m m' ∧ cell_map m' = cell_map m
  ∧ surface_map m' = surface_map m.
Proof.
  intros lib0 h Hrun.
  pose proof (highest_material_id_spec (materials m)) as [Hh0 Hhmax].
  fold h in Hh0, Hhmax.
  apply read_uwuw_materials_ok_inv in Hrun. fold lib0 in Hrun.
  change (fold_left _ (materials m) 0) with h in Hrun.
  assert (adjust_material_ids_ u = true →
          h + Z.of_nat (length lib0) ≤ INT_MAX →
          let lib := renumber (wrap32 (h + 1)) lib0 in
          fst <$> lib = fst <$> lib0
          ∧ snd <$> lib = seqZ (h + 1) (Z.of_nat (length lib0))
          ∧ ∀ mt e, mt ∈ materials m → e ∈ lib → mat_id_ mt < e.2) as Hnum.
  { intros _ Hmax lib. subst lib.
    destruct (decide (lib0 = [])) as [Hnil|Hne].
    { rewrite Hnil. split; [done|]. split; [done|].
      by intros mt e _ ?%elem_of_nil. }
    assert (0 < Z.of_nat (length lib0)) as Hlen
      by (destruct lib0; [done|simpl; lia]).
    rewrite wrap32_id by (unfold in_int, INT_MIN, INT_MAX in *; lia).
    pose proof (renumber_numbers (h + 1) lib0) as Hsnd.
    rewrite renumber_keys, Hsnd by (unfold INT_MIN, INT_MAX in *; lia).
    split; [done|]. split; [done|]. intros mt e Hmt He.
    apply (list_elem_of_fmap_2 snd) in He. rewrite Hsnd in He
      by (unfold INT_MIN, INT_MAX in *; lia).
    apply elem_of_seqZ in He. apply Hhmax in Hmt. lia. }
  destruct Hrun as [(Hnil & -> & ->)|(Hne & new & Hnew & -> & ->)]; simpl.
  - split; [done|]. split; [by rewrite Hnil|]. split.
    { intros _ _. rewrite Hnil. split; [done|]. split; [done|].
      by intros mt e _ ?%elem_of_nil. }
    split; [|done]. exists []. by rewrite app_nil_r.
  - split; [done|]. split; [by intros ->|]. split.
    { intros Hadj Hmax. rewrite Hadj. by apply Hnum. }
    split; [|done]. by exists new.
Qed.

Lemma uwuw_library_numbers_witness :
  let H := Example.env 7 Example.uwuw_mesh in
  ∃ u' m',
    read_uwuw_materials (H := H) Example.uwuw_universe Example.csg_model
    = (Ok u', m')
    ∧ fst <$> uwuw_library u' = ["Fuel"; "Water"]
    ∧ snd <$> uwuw_library u' = [42; 43].
Proof.
  intros H. eexists _, _. split; [vm_compute; reflexivity|].
  destruct (uwuw_library_numbers (H := H) Example.uwuw_universe _
              Example.csg_model _ ltac:(vm_compute; reflexivity))
    as (_ & _ & Hnum & _).
  destruct (Hnum eq_refl ltac:(vm_compute; discriminate)) as (Hk & Hn & _).
  split; [exact Hk|exact Hn].
Defined.

(** ** The universes *)

Lemma entered_notin (n : nat) (ids : list Z) (mp : gmap Z nat) (id : Z) :
  id ∉ ids → entered n ids mp !! id = mp !! id.
Proof.
  revert n mp. induction ids as [|x ids IH]; intros n mp Hid; [done|].
  apply not_elem_of_cons in Hid as [Hne Hid]. simpl.
  rewrite IH by done. by rewrite lookup_insert_ne.
Qed.

(** The last entry of an id is the one found. *)
Lemma entered_last (n j : nat) (ids : list Z) (mp : gmap Z nat) (id : Z) :
  ids !! j = Some id → id ∉ drop (S j) ids →
  entered n ids mp !! id = Some (n + j)%nat.
Proof.
  revert n j mp. induction ids as [|x ids IH]; intros n j mp Hj Hlast;
    [done|].
  destruct j as [|j]; simpl in *.
  - injection Hj as ->. rewrite drop_0 in Hlast.
    rewrite entered_notin by done. rewrite lookup_insert_eq. f_equal. lia.
  - rewrite (IH (S n) j) by done. f_equal. lia.
Qed.

Section UniversesFacts.
Context `{Env} `{XmlInterface xml_node}.

Lemma configure_ok_inv (node : xml_node) (u : DAGUniverse) (m m' : Model) :
  configure node m = (Ok u, m') →
  m' = m
  ∧ check_for_node node "id" = true
  ∧ stoi (get_node_value node "id") = conv_value (univ_id_ u)
  ∧ check_for_node node "filename" = true
  ∧ filename_ u = get_node_value node "filename".
Proof.
  unfold configure. intros Hrun.
  bind_inv Hrun as id m1 Hid. bind_inv Hrun as file m2 Hfile.
  apply ret_inv in Hrun as [-> ->]. simpl.
  destruct (check_for_node node "id"); [|discriminate].
  destruct (stoi (get_node_value node "id")) as [v| |]; try discriminate.
  apply ret_inv in Hid as [-> ->].
  destruct (check_for_node node "filename"); [|discriminate].
  by apply ret_inv in Hfile as [-> ->].
Qed.

Lemma DAGUniverse_xml_ok_inv (node : xml_node) (u : DAGUniverse)
    (m m' : Model) :
  DAGUniverse_xml node m = (Ok u, m') →
  stoi (get_node_value node "id") = conv_value (univ_id_ u)
  ∧ filename_ u = get_node_value node "filename"
  ∧ dagmc_instance_ u = load_file (filename_ u)
  ∧ cell_idx_offset_ u = length (cells m)
  ∧ surf_idx_offset_ u = length (surfaces m)
  ∧ length (cells m') = (length (cells m) + n_volumes u)%nat
  ∧ length (surfaces m') = (length (surfaces m) + n_surfaces u)%nat.
Proof.
  unfold DAGUniverse_xml. intros Hrun. bind_inv Hrun as u0 m0 Hconf.
  apply configure_ok_inv in Hconf as (-> & _ & Hid & _ & Hfile).
  apply initialize_ok_inv in Hrun
    as ((Hid' & Hfile' & _ & _ & Hco & Hso & Hinst) & new_mats & new_cells
        & new_surfs & l & _ & (Hc & Hclen & _) & (Hs & Hslen & _)).
  unfold n_volumes, n_surfaces.
  rewrite Hid', Hfile', Hinst, Hc, Hs, !length_app, Hclen, Hslen.
  by split_and!.
Qed.

Lemma read_dagmc_universes_ok_inv (dag_nodes : list xml_node)
    (us us' : Universes) (m m' : Model) :
  read_dagmc_universes dag_nodes us m = (Ok us', m') →
  ∃ new,
    universes us' = universes us ++ (DAG_universe <$> new)
    ∧ universe_map us'
      = entered (length (universes us)) (univ_id_ <$> new) (universe_map us)
    ∧ Forall2 (λ node u,
                 stoi (get_node_value node "id") = conv_value (univ_id_ u)
                 ∧ filename_ u = get_node_value node "filename"
                 ∧ dagmc_instance_ u = load_file (filename_ u))
        dag_nodes new
    ∧ (∀ j u, new !! j = Some u →
         cell_idx_offset_ u
         = (length (cells m) + sum_list (n_volumes <$> take j new))%nat
         ∧ surf_idx_offset_ u
           = (length (surfaces m) + sum_list (n_surfaces <$> take j new))%nat)
    ∧ length (cells m')
      = (length (cells m) + sum_list (n_volumes <$> new))%nat
    ∧ length (surfaces m')
      = (length (surfaces m) + sum_list (n_surfaces <$> new))%nat.
Proof.
  revert us m. induction dag_nodes as [|node rest IH]; intros us m Hrun.
  { apply ret_inv in Hrun as [-> ->]. exists []. simpl.
    rewrite app_nil_r, !Nat.add_0_r. by split_and!. }
  cbn [read_dagmc_universes] in Hrun. bind_inv Hrun as u m1 Hu.
  apply DAGUniverse_xml_ok_inv in Hu
    as (Hid & Hfile & Hinst & Hco & Hso & Hc & Hs).
  apply IH in Hrun as (new & Hus & Hmap & Hall & Hoff & Hc' & Hs').
  simpl in Hus, Hmap. rewrite length_app in Hmap. simpl in Hmap.
  replace (length (universes us) + 1 - 1)%nat with (length (universes us))
    in Hmap by lia.
  rewrite Nat.add_1_r in Hmap.
  exists (u :: new). split_and!.
  - by rewrite Hus, <-app_assoc.
  - done.
  - by constructor.
  - intros [|j] u' Hj; simpl in Hj.
    + injection Hj as <-. simpl. lia.
    + destruct (Hoff _ _ Hj) as [Hco' Hso'].
      rewrite Hco', Hso', Hc, Hs. csimpl. split; lia.
  - rewrite Hc', Hc. csimpl. lia.
  - rewrite Hs', Hs. csimpl. lia.
Qed.
End UniversesFacts.

(** [read_dagmc_universes], when it returns, has appended one universe
    per node, in document order, each with the id and the file of its
    node.  It does not reject an id that occurs twice, or that the map
    held before: [universe_map] then points at the last universe with
    that id, and the earlier one stays in [model::universes] without
    an entry. *)
Theorem universes_last_id_wins `{Env} `{XmlInterface xml_node}
    (dag_nodes : list xml_node) (us us' : Universes) (m m' : Model) :
  read_dagmc_universes dag_nodes us m = (Ok us', m') →
  ∃ new,
    universes us' = universes us ++ (DAG_universe <$> new)
    ∧ Forall2 (λ node u,
                 stoi (get_node_value node "id") = conv_value (univ_id_ u)
                 ∧ filename_ u = get_node_value node "filename")
        dag_nodes new
    ∧ (∀ j u, new !! j = Some u →
         univ_id_ u ∉ univ_id_ <$> drop (S j) new →
         universe_map us' !! univ_id_ u
         = Some (length (universes us) + j)%nat)
    ∧ (∀ id, id ∉ univ_id_ <$> new →
         universe_map us' !! id = universe_map us !! id).
Proof.
  intros Hrun.
  apply read_dagmc_universes_ok_inv in Hrun as (new & Hus & -> & Hall & _).
  exists new. split_and!.
  - done.
  - eapply Forall2_impl; [exact Hall|]. by intros node u (? & ? & _).
  - intros j u Hj Hlast. apply entered_last.
    + by rewrite list_lookup_fmap, Hj.
    + by rewrite <-fmap_drop.
  - intros id Hid. by apply entered_notin.
Qed.

Lemma universes_last_id_wins_witness :
  let H := Example.env 7 Example.void_mesh in
  let X := Example.attrs in
  ∃ us' m' a b,
    read_dagmc_universes (H := H) (H0 := X) [Example.node_a; Example.node_b]
      Example.no_universes Example.empty_model = (Ok us', m')
    ∧ universes us' = [DAG_universe a; DAG_universe b]
    ∧ univ_id_ a = 3 ∧ univ_id_ b = 3
    ∧ universe_map us' !! 3 = Some 1%nat.
Proof.
  intros H X.
  destruct (universes_last_id_wins (H := H) (H0 := X)
              [Example.node_a; Example.node_b] Example.no_universes _
              Example.empty_model _ ltac:(vm_compute; reflexivity))
    as (new & Hus & Hall & Hlast & _).
  apply Forall2_cons_inv_l in Hall as (a & new1 & [Ha _] & Hall & ->).
  apply Forall2_cons_inv_l in Hall as (b & new2 & [Hb _] & Hall & ->).
  apply Forall2_nil_inv_l in Hall as ->.
  change (conv_value 3 = conv_value (univ_id_ a)) in Ha.
  change (conv_value 3 = conv_value (univ_id_ b)) in Hb.
  injection Ha as Ha. injection Hb as Hb.
  eexists _, _, a, b. split; [vm_compute; reflexivity|].
  split; [exact Hus|]. split; [done|]. split; [done|].
  specialize (Hlast 1%nat b eq_refl). rewrite <-Hb in Hlast.
  apply Hlast. simpl. apply not_elem_of_nil.
Defined.

(** The universes that [read_dagmc_universes] builds share
    [model::cells] and [model::surfaces] without gaps or overlaps: the
    offset of each is the size of the collection before the call plus
    the numbers of volumes (of surfaces) of the universes built before
    it, and the collections end with the last universe. *)
Theorem universes_tile_collections `{Env} `{XmlInterface xml_node}
    (dag_nodes : list xml_node) (us us' : Universes) (m m' : Model) :
  read_dagmc_universes dag_nodes us m = (Ok us', m') →
  ∃ new,
    universes us' = universes us ++ (DAG_universe <$> new)
    ∧ length new = length dag_nodes
    ∧ (∀ j u, new !! j = Some u →
         cell_idx_offset_ u
         = (length (cells m) + sum_list (n_volumes <$> take j new))%nat
         ∧ surf_idx_offset_ u
           = (length (surfaces m) + sum_list (n_surfaces <$> take j new))%nat)
    ∧ length (cells m')
      = (length (cells m) + sum_list (n_volumes <$> new))%nat
    ∧ length (surfaces m')
      = (length (surfaces m) + sum_list (n_surfaces <$> new))%nat.
Proof.
  intros Hrun.
  apply read_dagmc_universes_ok_inv in Hrun
    as (new & Hus & _ & Hall & Hoff & Hc & Hs).
  exists new. split_and!; try done. symmetry. by eapply Forall2_length.
Qed.

Lemma universes_tile_collections_witness :
  let H := Example.env 7 Example.void_mesh in
  let X := Example.attrs in
  ∃ us' m' a b,
    read_dagmc_universes (H := H) (H0 := X) [Example.node_a; Example.node_b]
      Example.no_universes Example.csg_model = (Ok us', m')
    ∧ universes us' = [DAG_universe a; DAG_universe b]
    ∧ cell_idx_offset_ a = 1%nat ∧ cell_idx_offset_ b = 2%nat
    ∧ length (cells m') = 3%nat.
Proof.
  intros H X.
  destruct (universes_tile_collections (H := H) (H0 := X)
              [Example.node_a; Example.node_b] Example.no_universes _
              Example.csg_model _ ltac:(vm_compute; reflexivity))
    as (new & Hus & Hlen & Hoff & Hc & _).
  destruct new as [|a [|b [|? ?]]]; try discriminate.
  eexists _, _, a, b. split; [vm_compute; reflexivity|].
  split; [exact Hus|].
  vm_compute in Hus. injection Hus as <- <-.
  split; [reflexivity|]. split; reflexivity.
Defined.

(** A universe built from a file name gets the id after the highest id
    of the universes present (short of the overflow of [int32_t]): it
    is positive and above the id of every universe present.  Here
    [auto_geom_ids] does go to [adjust_geometry_ids_]. *)
Theorem file_universe_id `{Env} (filename : string)
    (auto_geom_ids declared : bool) (us : list Universe) (u : DAGUniverse)
    (m m' : Model) :
  highest_id universe_id us < INT_MAX →
  DAGUniverse_file filename auto_geom_ids declared us m = (Ok u, m') →
  univ_id_ u = highest_id universe_id us + 1
  ∧ 0 < univ_id_ u
  ∧ (∀ x, x ∈ us → universe_id x < univ_id_ u)
  ∧ filename_ u = filename
  ∧ adjust_geometry_ids_ u = auto_geom_ids
  ∧ adjust_material_ids_ u = declared.
Proof.
  intros Hmax Hrun. unfold DAGUniverse_file in Hrun.
  pose proof (highest_id_spec universe_id us) as (H0 & Hall & _).
  rewrite wrap32_id in Hrun by (unfold in_int, INT_MIN, INT_MAX in *; lia).
  apply initialize_ok_inv in Hrun as ((-> & -> & -> & -> & _) & _).
  simpl. split_and!; try done; [lia|].
  intros x Hx. apply Hall in Hx. lia.
Qed.

Lemma file_universe_id_witness :
  let H := Example.env 7 Example.void_mesh in
  ∃ u m',
    DAGUniverse_file (H := H) "dagmc.h5m" true false
      [CSG_universe 0; CSG_universe 7] Example.empty_model = (Ok u, m')
    ∧ univ_id_ u = 8.
Proof.
  intros H. eexists _, _. split; [vm_compute; reflexivity|].
  destruct (file_universe_id (H := H) "dagmc.h5m" true false
              [CSG_universe 0; CSG_universe 7] _ Example.empty_model _
              ltac:(vm_compute; reflexivity) ltac:(vm_compute; reflexivity))
    as (Hid & _).
  exact Hid.
Defined.

(** ** More on the range formatter *)

Section RangeFormatterBounds.
Variable past_end : nat → Z.

Lemma ids_loop_reads_bound id_vec n_cells i start_id out reads :
  Forall (λ k, k ≤ n_cells)%nat reads →
  Forall (λ k, k ≤ n_cells)%nat
    (ids_loop past_end id_vec n_cells i start_id out reads).2.
Proof.
  remember (n_cells - i)%nat as k eqn:Hk.
  revert i start_id out reads Hk.
  induction k as [k IH] using lt_wf_ind. intros i start_id out reads Hk Hr.
  rewrite ids_loop_eq. destruct (decide (i < n_cells)%nat) as [Hi|Hi]; [|done].
  cbv zeta. destruct (decide _).
  - eapply (IH (n_cells - (i + 1 + 1))%nat); [lia|done|].
    apply Forall_app. split; [done|]. repeat constructor; lia.
  - eapply (IH (n_cells - (i + 1))%nat); [lia|done|].
    apply Forall_app. split; [done|]. repeat constructor; lia.
Qed.

(** A run of consecutive ids, no gap inside: the loop walks to the
    last index without writing, and there the element behind the
    vector decides. *)
Lemma ids_loop_run (a : Z) (n i : nat) (reads : list nat) :
  (0 < n)%nat → (i < n)%nat →
  INT_MIN ≤ a → a + Z.of_nat n ≤ INT_MAX →
  (ids_loop past_end (seqZ a (Z.of_nat n)) n i a "" reads).1
  = if decide (a + Z.of_nat n < past_end n)
    then emit_block "" a (a + Z.of_nat n - 1) (n - 1) n
    else "".
Proof.
  intros Hn Hi Hlo Hhi.
  remember (n - i)%nat as k eqn:Hk.
  revert i reads Hk Hi.
  induction k as [k IH] using lt_wf_ind. intros i reads Hk Hi.
  rewrite ids_loop_eq. destruct (decide (i < n)%nat) as [_|?]; [|lia].
  cbv zeta.
  assert (vec_at past_end (seqZ a (Z.of_nat n)) i = a + Z.of_nat i) as ->.
  { apply vec_at_lookup. apply lookup_seqZ. lia. }
  rewrite wrap32_id by (unfold in_int, INT_MIN, INT_MAX in *; lia).
  destruct (decide (i + 1 < n)%nat) as [Hlt|Hge].
  - assert (vec_at past_end (seqZ a (Z.of_nat n)) (i + 1)
            = a + Z.of_nat (i + 1)) as ->.
    { apply vec_at_lookup. apply lookup_seqZ. lia. }
    destruct (decide (a + Z.of_nat i + 1 < a + Z.of_nat (i + 1)))
      as [?|_]; [lia|].
    by eapply (IH (n - (i + 1))%nat); [lia|..].
  - assert (i + 1 = n)%nat as Hlast by lia. rewrite Hlast.
    rewrite vec_at_past by (rewrite length_seqZ; lia).
    replace (a + Z.of_nat i + 1) with (a + Z.of_nat n) by lia.
    replace (a + Z.of_nat i) with (a + Z.of_nat n - 1) by lia.
    replace i with (n - 1)%nat by lia.
    destruct (decide (a + Z.of_nat n < past_end n)) as [Hgap|Hgap].
    + rewrite ids_loop_eq.
      destruct (decide (_ < n)%nat); [lia|done].
    + rewrite ids_loop_eq.
      destruct (decide (_ < n)%nat); [lia|done].
Qed.
End RangeFormatterBounds.

Lemma Sorted_seqZ_le (a : Z) (n : nat) : Sorted Z.le (seqZ a (Z.of_nat n)).
Proof.
  revert a. induction n as [|n IH]; intros a; [constructor|].
  rewrite (seqZ_cons a) by lia.
  replace (Z.pred (Z.of_nat (S n))) with (Z.of_nat n) by lia.
  constructor; [apply IH|].
  destruct n as [|n]; [constructor|].
  rewrite (seqZ_cons (Z.succ a)) by lia. constructor. lia.
Qed.

(** The function reads no index beyond the size of the vector: the
    only element it can read out of bounds is the one right behind the
    end. *)
Theorem dagmc_ids_reads_at_most_one_past (past_end : nat → Z) (ids : list Z) :
  Forall (λ k, k = length ids) (reads_past_end past_end ids).
Proof.
  unfold reads_past_end, dagmc_ids_trace.
  pose proof (ids_loop_reads_bound past_end (merge_sort Z.le ids) (length ids)
                0 (vec_at past_end (merge_sort Z.le ids) 0) "" [0%nat]) as Hb.
  apply Forall_forall. intros k [Hk Hin]%list_elem_of_filter.
  assert (Forall (λ k, k ≤ length ids)%nat [0%nat]) as H0
    by (repeat constructor; lia).
  specialize (Hb H0). rewrite Forall_forall in Hb.
  specialize (Hb _ Hin). simpl in Hb. lia.
Qed.

(** The ids a, a+1, ..., a+n-1 in any order, the usual numbering of a
    DAGMC file: the text is decided by the element behind the vector.
    If it is above a+n the text is "a-(a+n-1)" ("a" for one id);
    otherwise the text is empty, and the warning that precedes the
    collision error lists no id. *)
Theorem dagmc_ids_of_a_run (past_end : nat → Z) (ids : list Z) (a : Z) :
  ids ≠ [] → ids ≡ₚ seqZ a (Z.of_nat (length ids)) →
  INT_MIN ≤ a → a + Z.of_nat (length ids) ≤ INT_MAX →
  dagmc_ids_for_dim past_end ids
  = if decide (a + Z.of_nat (length ids) < past_end (length ids))
    then if decide (length ids = 1%nat) then show_int a
         else show_int a +:+ "-" +:+ show_int (a + Z.of_nat (length ids) - 1)
    else "".
Proof.
  intros Hne Hperm Hlo Hhi.
  assert (0 < length ids)%nat as Hn by (destruct ids; [done|simpl; lia]).
  assert (merge_sort Z.le ids = seqZ a (Z.of_nat (length ids))) as Hsorted.
  { apply (Sorted_unique Z.le).
    - apply Sorted_merge_sort. intros x y. lia.
    - apply Sorted_seqZ_le.
    - etrans; [apply merge_sort_Permutation|exact Hperm]. }
  unfold dagmc_ids_for_dim, dagmc_ids_trace. rewrite Hsorted.
  assert (vec_at past_end (seqZ a (Z.of_nat (length ids))) 0 = a) as ->.
  { apply vec_at_lookup. rewrite lookup_seqZ. split; [f_equal|]; lia. }
  rewrite ids_loop_run by lia.
  destruct (decide _) as [Hgap|Hgap]; [|done].
  unfold emit_block. destruct (decide (Z.of_nat _ < _)) as [?|_]; [lia|].
  destruct (decide (length ids = 1%nat)) as [Hone|Hmore].
  - destruct (decide _) as [?|_]; [lia|done].
  - destruct (decide _) as [_|Heq]; [done|]. exfalso. apply Heq. lia.
Qed.

Lemma dagmc_ids_of_a_run_witness :
  dagmc_ids_for_dim (λ _, 0) [2; 1; 3] = ""
  ∧ dagmc_ids_for_dim (λ _, 9) [2; 1; 3] = "1-3".
Proof.
  split.
  - apply (dagmc_ids_of_a_run (λ _, 0) [2; 1; 3] 1); [done| |done|done].
    apply perm_swap.
  - apply (dagmc_ids_of_a_run (λ _, 9) [2; 1; 3] 1); [done| |done|done].
    apply perm_swap.
Defined.

(** ** The XML of the material library *)

Lemma append_assoc (a b c : string) : (a +:+ b) +:+ c = a +:+ (b +:+ c).
Proof. induction a as [|x a IH]; [done|]. by rewrite !append_cons, IH. Qed.

Lemma fold_left_append {A} (f : A → string) (l : list A) (s t : string) :
  fold_left (λ ss x, ss +:+ f x) l s +:+ t
  = s +:+ fold_right (λ x text, f x +:+ text) t l.
Proof.
  revert s. induction l as [|x l IH]; intros s; [done|].
  simpl. by rewrite IH, append_assoc.
Qed.

(** The two guards of the writers.  Without a material library both
    functions throw, each its own message (they differ in a capital
    letter and a full stop), so that the exception of
    [get_uwuw_materials_xml] never leaves [write_uwuw_materials_xml].
    With a library [get_uwuw_materials_xml] returns the header, the
    renderings of the entries in key order and the footer, and
    [write_uwuw_materials_xml] makes that text the content of
    [outfile] when the stream opens, replacing what the file held, and
    changes no file otherwise. *)
Theorem uwuw_xml_writers `{UwuwOutput} (u : DAGUniverse) (outfile : string)
    (files : gmap string string) :
  (uwuw_library u = [] →
   get_uwuw_materials_xml u
   = runtime_error "This DAGMC Universe does not use UWUW materials"
   ∧ write_uwuw_materials_xml u outfile files
     = runtime_error "This DAGMC universe does not use UWUW materials.")
  ∧ (uwuw_library u ≠ [] →
     get_uwuw_materials_xml u = returned (materials_xml (uwuw_library u))
     ∧ ∃ files',
         write_uwuw_materials_xml u outfile files = returned files'
         ∧ (∀ path, path ≠ outfile → files' !! path = files !! path)
         ∧ files' !! outfile
           = if ofstream_opens outfile
             then Some (materials_xml (uwuw_library u))
             else files !! outfile).
Proof.
  unfold write_uwuw_materials_xml, get_uwuw_materials_xml, uses_uwuw. split.
  - intros ->. by rewrite bool_decide_eq_true_2.
  - intros Hne. rewrite bool_decide_eq_false_2 by done. simpl.
    assert (∀ s, fold_left (λ ss mat, ss +:+ openmc_atom mat)
                   (uwuw_library u) s +:+ "</materials>"
                 = s +:+ fold_right (λ mat text, openmc_atom mat +:+ text)
                           "</materials>" (uwuw_library u)) as Hfold
      by (intros s; apply fold_left_append).
    rewrite Hfold. unfold materials_xml. rewrite !append_assoc.
    split; [done|]. eexists. split; [reflexivity|].
    destruct (ofstream_opens outfile).
    + split; [|by rewrite lookup_insert_eq].
      intros path Hpath. by rewrite lookup_insert_ne.
    + done.
Qed.

(** ** The entry point *)

Section MainFacts.
Context `{Api}.

(** The switch makes at most one call, and none of the two that
    finalize. *)
Lemma run_mode_switch_calls (err : Z) (calls : list call) :
  ∃ run,
    (run_mode_switch err calls).2 = calls ++ run
    ∧ (call_openmc_finalize ∉ run) ∧ (call_MPI_Finalize ∉ run)
    ∧ (length run ≤ 1)%nat.
Proof.
  unfold run_mode_switch.
  destruct settings_run_mode, settings_solver_type, mpi_master; simpl;
    first [ by (exists []; rewrite app_nil_r; split_and!;
                [done|by intros ?%elem_of_nil|by intros ?%elem_of_nil
                |simpl; lia])
          | by (eexists [_]; split_and!;
                [reflexivity|by intros ?%list_elem_of_singleton
                |by intros ?%list_elem_of_singleton|simpl; lia]) ].
Qed.

Lemma main_eq :
  main
  = if bool_decide (openmc_init = -1) then (exit_status 0, [call_openmc_init])
    else if bool_decide (openmc_init ≠ 0)
    then (fatal_exit (openmc_err_msg [call_openmc_init]), [call_openmc_init])
    else
      let rc := run_mode_switch openmc_init [call_openmc_init] in
      if bool_decide (rc.1 ≠ 0) then (fatal_exit (openmc_err_msg rc.2), rc.2)
      else if bool_decide (openmc_finalize ≠ 0)
      then (fatal_exit (openmc_err_msg (rc.2 ++ [call_openmc_finalize])),
            rc.2 ++ [call_openmc_finalize])
      else (exit_status 0,
            rc.2 ++ [call_openmc_finalize]
            ++ (if OPENMC_MPI then [call_MPI_Finalize] else [])).
Proof.
  unfold main, main_enzyme.
  destruct (run_mode_switch _ _) as [err calls]. simpl.
  repeat case_bool_decide; simpl; try done.
  destruct OPENMC_MPI; by rewrite <-?app_assoc, ?app_nil_r.
Qed.
End MainFacts.

(** [main] returns 0 or does not return: every error leaves through
    [fatal_error].  The first call is [openmc_init].  After the value
    -1 of [openmc_init] (the flags -h and -v) nothing else is called,
    [MPI_Finalize] included.  [openmc_finalize] is called only after
    [openmc_init] returned 0, and [MPI_Finalize] only in a build with
    MPI, as the last call, after [openmc_finalize] returned 0: a run
    that ends in a fatal error does not finalize MPI. *)
Theorem main_endings `{Api} :
  (∀ status, main.1 = exit_status status → status = 0)
  ∧ head main.2 = Some call_openmc_init
  ∧ (openmc_init = -1 → main = (exit_status 0, [call_openmc_init]))
  ∧ (call_openmc_finalize ∈ main.2 → openmc_init = 0)
  ∧ (call_MPI_Finalize ∈ main.2 →
     OPENMC_MPI = true ∧ main.1 = exit_status 0 ∧ openmc_init = 0
     ∧ openmc_finalize = 0 ∧ last main.2 = Some call_MPI_Finalize)
  ∧ (main.1 = exit_status 0 →
     openmc_init = -1 ∨ (openmc_init = 0 ∧ openmc_finalize = 0)).
Proof.
  rewrite main_eq.
  destruct (run_mode_switch_calls openmc_init [call_openmc_init])
    as (run & Hrun & Hfin & Hmpi & _).
  destruct (run_mode_switch openmc_init [call_openmc_init]) as [err calls].
  simpl in Hrun. subst calls. cbv zeta. cbn [fst snd].
  assert (call_openmc_finalize ∉ [call_openmc_init]) as Hfin0
    by (by intros ?%list_elem_of_singleton).
  assert (call_MPI_Finalize ∉ [call_openmc_init]) as Hmpi0
    by (by intros ?%list_elem_of_singleton).
  assert (call_MPI_Finalize ∉ call_openmc_init :: run) as Hmpi1.
  { by intros [?|?]%elem_of_cons. }
  assert (call_MPI_Finalize ∉ (call_openmc_init :: run)
                               ++ [call_openmc_finalize]) as Hmpi2.
  { by intros [?|?%list_elem_of_singleton]%elem_of_app. }
  assert (call_openmc_finalize ∉ call_openmc_init :: run) as Hfin1.
  { by intros [?|?]%elem_of_cons. }
  split_and!.
  - intros status. repeat case_bool_decide; simpl; congruence.
  - by repeat case_bool_decide.
  - intros Hinit. by rewrite bool_decide_eq_true_2.
  - repeat case_bool_decide; simpl; intros Hin; try lia; done.
  - repeat case_bool_decide; simpl; intros Hin; try done.
    destruct OPENMC_MPI.
    + split_and!; try done; try lia.
      rewrite (cons_middle call_openmc_finalize run [call_MPI_Finalize]).
      rewrite app_comm_cons, app_assoc. apply last_snoc.
    + exfalso. exact (Hmpi2 Hin).
  - repeat case_bool_decide; simpl; intros; try congruence; lia.
Qed.

(** The run modes whose errors cannot surface.  A particle restart, a
    random ray run, a run mode that the [switch] does not name and a
    solver type other than the two named all leave [err] at 0: after
    [openmc_init] returned 0, [openmc_finalize] is always reached, its
    value alone decides between the exit status 0 and the fatal error,
    and [openmc_run], [openmc_plot_geometry] and
    [openmc_calculate_volumes] are not called.  On a process that is
    not the master a particle restart calls nothing between
    [openmc_init] and [openmc_finalize]. *)
Theorem modes_without_run_errors `{Api} :
  openmc_init = 0 →
  settings_run_mode = PARTICLE ∨ settings_run_mode = other_run_mode
  ∨ ((settings_run_mode = FIXED_SOURCE ∨ settings_run_mode = EIGENVALUE)
     ∧ settings_solver_type ≠ MONTE_CARLO) →
  call_openmc_finalize ∈ main.2
  ∧ (main.1 = exit_status 0 ↔ openmc_finalize = 0)
  ∧ (call_openmc_run ∉ main.2) ∧ (call_openmc_plot_geometry ∉ main.2)
  ∧ (call_openmc_calculate_volumes ∉ main.2)
  ∧ (settings_run_mode = PARTICLE → mpi_master = false →
     take 2 main.2 = [call_openmc_init; call_openmc_finalize]).
Proof.
  intros Hinit Hmode. rewrite main_eq, Hinit.
  assert (∃ run, run_mode_switch 0 [call_openmc_init]
                 = (0, call_openmc_init :: run)
                 ∧ (run = [] ∨ run = [call_run_particle_restart]
                    ∨ run = [call_openmc_run_random_ray])
                 ∧ (settings_run_mode = PARTICLE → mpi_master = false →
                    run = [])) as (run & -> & Hcases & Hrestart).
  { unfold run_mode_switch.
    destruct settings_run_mode, settings_solver_type, mpi_master;
      try (exfalso; intuition congruence); simpl;
      eexists; (split; [reflexivity|]);
      (split; [first [by left|by right; left|by right; right]
              |intros; first [done|discriminate]]). }
  cbv zeta. cbn [fst snd].
  assert (∀ c, c ≠ call_openmc_init → c ≠ call_run_particle_restart →
               c ≠ call_openmc_run_random_ray → c ≠ call_openmc_finalize →
               c ≠ call_MPI_Finalize →
               c ∉ (call_openmc_init :: run)
                    ++ [call_openmc_finalize]
                    ++ (if OPENMC_MPI then [call_MPI_Finalize] else []))
    as Hnot.
  { intros c ? ? ? ? ?. rewrite !elem_of_app, elem_of_cons.
    intros [[?|Hin]|[Hin|Hin]]; [done| | |].
    - destruct Hcases as [->|[->| ->]].
      + by apply elem_of_nil in Hin.
      + by apply list_elem_of_singleton in Hin.
      + by apply list_elem_of_singleton in Hin.
    - by apply list_elem_of_singleton in Hin.
    - destruct OPENMC_MPI; [by apply list_elem_of_singleton in Hin|].
      by apply elem_of_nil in Hin. }
  assert (∀ c, c ∉ (call_openmc_init :: run)
                    ++ [call_openmc_finalize]
                    ++ (if OPENMC_MPI then [call_MPI_Finalize] else []) →
               c ∉ (call_openmc_init :: run) ++ [call_openmc_finalize])
    as Hshort.
  { intros c Hc Hin. apply Hc. rewrite app_assoc. apply elem_of_app. by left. }
  repeat case_bool_decide; try done; cbn [fst snd]; split_and!.
  all: try (by apply Hshort, Hnot).
  all: try (by apply Hnot).
  all: try (split; intros; first [done|congruence|lia]).
  all: try (apply elem_of_app; right; apply list_elem_of_here).
  all: try (apply elem_of_app; right;
            apply elem_of_app; left; apply list_elem_of_here).
  all: intros Hp Hm; rewrite (Hrestart Hp Hm); done.
Qed.

Lemma modes_without_run_errors_witness :
  let H := Example.restart_api in
  main (H := H)
  = (exit_status 0,
     [call_openmc_init; call_openmc_finalize; call_MPI_Finalize])
  ∧ call_openmc_finalize ∈ (main (H := H)).2.
Proof.
  intros H. split; [reflexivity|].
  apply (modes_without_run_errors (H := H) eq_refl (or_introl eq_refl)).
Defined.

Example main_failing_run :
  main (H := Example.failing_run_api)
  = (fatal_exit "error", [call_openmc_init; call_openmc_run]).
Proof. reflexivity. Qed.

(** ** What a failed turn leaves *)

Section FailedTurn.
Context `{Env}.

Lemma quiet_assign_temperature (vol : Volume) (c : DAGCell) :
  keeps same_but_output (assign_temperature vol c).
Proof. unfold assign_temperature. keeps_tac. Qed.

Lemma init_cell_stop_registry (u : DAGUniverse) (using_uwuw : bool) (i : nat)
    (vol : Volume) (next_cell_id graveyard : Z) (f : failure) (m m' : Model) :
  let id := if adjust_geometry_ids_ u then next_cell_id else vol_id vol in
  cell_map m !! id = None →
  init_cell u using_uwuw i vol next_cell_id graveyard m = (Stop f, m') →
  same_but_output (set_cell_map <[id := length (cells m)]> m) m'.
Proof.
  intros id Hfree. unfold init_cell.
  rewrite bind_eq, register_cell_free by exact Hfree. cbn [id_]. fold id.
  set (m1 := set_cell_map <[id := length (cells m)]> m).
  rewrite bind_eq.
  destruct (when _ _ m1) as [[[]|f2] m2] eqn:Hempty;
    pose proof (keeps_when (P := same_but_output) _ _ (keeps_stop _)
                  _ _ _ Hempty) as Hm2;
    [|by intros [= _ <-]].
  rewrite bind_eq.
  destruct (assign_material _ _ _ _ _ m2) as [[c1|f3] m3] eqn:Hmat;
    pose proof (quiet_assign_material _ _ _ _ _ _ _ _ Hmat) as Hm3;
    [|intros [= _ <-]; by etrans].
  rewrite bind_eq.
  destruct (index (material_ c1) 0 m3) as [[mid|f4] m4] eqn:Hidx;
    pose proof (keeps_index (P := same_but_output) _ _ _ _ _ Hidx) as Hm4;
    [|intros [= _ <-]; etrans; [exact Hm2|by etrans]].
  destruct (bool_decide (mid = MATERIAL_VOID)); [discriminate|].
  rewrite bind_eq.
  destruct (assign_temperature vol c1 m4) as [[c2|f5] m5] eqn:Htemp;
    pose proof (quiet_assign_temperature _ _ _ _ _ Htemp) as Hm5;
    [discriminate|].
  intros [= _ <-].
  etrans; [exact Hm2|]; etrans; [exact Hm3|by etrans].
Qed.
End FailedTurn.

(** The probe of [cell_map] enters the id before the material is
    looked at.  A turn of the volume loop that fails after the probe
    (no material tag, no such material, a temperature that does not
    parse, ...) therefore leaves the id in [cell_map], pointing one
    behind the end of [model::cells], although no cell was appended:
    the map is no longer consistent with the collection.  A volume
    without a material tag is such a case. *)
Theorem failed_cell_turn_leaves_entry `{Env} (u : DAGUniverse)
    (using_uwuw : bool) (i : nat) (vol : Volume) (next_cell_id graveyard : Z)
    (m : Model) :
  let id := if adjust_geometry_ids_ u then next_cell_id else vol_id vol in
  cell_map m !! id = None →
  (∀ f m',
     init_cell u using_uwuw i vol next_cell_id graveyard m = (Stop f, m') →
     cells m' = cells m
     ∧ cell_map m' = <[id := length (cells m)]> (cell_map m)
     ∧ cells m' !! length (cells m) = None
     ∧ ¬ registry_ok (id_ <$> cells m') (cell_map m'))
  ∧ (vol_material vol = "" →
     ∃ m',
       init_cell u using_uwuw i vol next_cell_id graveyard m
       = (Stop (fatal_error ("Volume " +:+ show_int id
                             +:+ " has no material assignment.")), m')).
Proof.
  intros id Hfree. split.
  - intros f m' Hrun.
    apply init_cell_stop_registry in Hrun as [(Hc & Hcm & _) _]; [|done].
    simpl in Hc, Hcm. fold id in Hcm.
    split; [done|]. split; [done|].
    split; [rewrite Hc; by apply lookup_ge_None_2|].
    intros Hok. specialize (Hok id (length (cells m))).
    rewrite Hcm, lookup_insert_eq in Hok. specialize (Hok eq_refl).
    rewrite Hc, list_lookup_fmap, lookup_ge_None_2 in Hok by done.
    discriminate.
  - intros Hempty. unfold init_cell.
    rewrite bind_eq, register_cell_free by exact Hfree.
    rewrite bind_eq, Hempty. eexists. reflexivity.
Qed.

Lemma failed_cell_turn_leaves_entry_witness :
  let H := Example.env 7 Example.mesh in
  ∃ m',
    init_cell (H := H) (Example.universe Example.mesh false) false 0
      (Example.volume 101 5 "" None) 1 0 Example.csg_model
    = (Stop (fatal_error "Volume 5 has no material assignment."), m')
    ∧ cells m' = cells Example.csg_model
    ∧ cell_map m' !! 5 = Some 1%nat.
Proof.
  intros H.
  destruct (failed_cell_turn_leaves_entry (H := H)
              (Example.universe Example.mesh false) false 0
              (Example.volume 101 5 "" None) 1 0 Example.csg_model eq_refl)
    as [Hall Hempty].
  destruct (Hempty eq_refl) as (m' & Hrun).
  exists m'. split; [exact Hrun|].
  destruct (Hall _ _ Hrun) as (Hc & Hcm & _).
  split; [exact Hc|]. rewrite Hcm. reflexivity.
Defined.

(** ** Imports that return *)

Section Returns.
Context `{Env}.

Lemma init_cell_void_ok (u : DAGUniverse) (using_uwuw : bool) (i : nat)
    (vol : Volume) (next_cell_id graveyard : Z) (m : Model) :
  to_lower (vol_material vol) ∈ void_tags →
  cell_map m !! (if adjust_geometry_ids_ u then next_cell_id else vol_id vol)
  = None →
  ∃ r m', init_cell u using_uwuw i vol next_cell_id graveyard m = (Ok r, m').
Proof.
  intros Htag Hfree. unfold init_cell.
  rewrite bind_eq, register_cell_free by exact Hfree.
  assert (vol_material vol ≠ "") as Hne.
  { intros Heq. rewrite Heq in Htag. revert Htag. unfold void_tags.
    rewrite !elem_of_cons, elem_of_nil. simpl.
    intros [?|[?|[?|[]]]]; discriminate. }
  rewrite (bool_decide_eq_false_2 _ Hne). unfold when. rewrite bind_eq.
  unfold ret at 1. rewrite bind_eq, assign_material_void by exact Htag.
  rewrite bind_eq. unfold index, push_material. simpl. unfold ret at 1.
  rewrite bool_decide_eq_true_2 by done. eexists _, _. reflexivity.
Qed.

Lemma init_surface_accepted_ok (u : DAGUniverse) (i : nat) (surf : Surface)
    (next_surf_id graveyard : Z) (m : Model) :
  to_lower (surf_boundary surf) ∈ accepted_bc_tags →
  surface_map m !! (if adjust_geometry_ids_ u then next_surf_id
                    else surf_id surf) = None →
  ∃ next' m', init_surface u i surf next_surf_id graveyard m = (Ok next', m').
Proof.
  intros Htag Hfree. unfold init_surface.
  edestruct classify_bc_accepted as [s' Hs']; [exact Htag|].
  rewrite bind_eq, Hs'.
  apply classify_bc_ok_inv in Hs' as (_ & Hid & _). simpl in Hid.
  rewrite bind_eq, register_surface_free
    by (by rewrite graveyard_check_id, Hid).
  eexists _, _. reflexivity.
Qed.

Lemma init_cells_void_ok (u : DAGUniverse) (using_uwuw : bool)
    (vols : list Volume) (i : nat) (next_cell_id graveyard : Z) (m : Model) :
  adjust_geometry_ids_ u = true →
  (∀ id k, cell_map m !! id = Some k → id < next_cell_id) →
  INT_MIN ≤ next_cell_id → next_cell_id + Z.of_nat (length vols) ≤ INT_MAX →
  Forall (λ vol, to_lower (vol_material vol) ∈ void_tags) vols →
  ∃ r m', init_cells u using_uwuw i vols next_cell_id graveyard m = (Ok r, m').
Proof.
  intros Hadj. revert i next_cell_id graveyard m.
  induction vols as [|vol vols IH];
    intros i next graveyard m Hkeys Hlo Hhi Hvoid.
  { eexists _, _. reflexivity. }
  apply Forall_cons in Hvoid as [Htag Hvoid]. simpl in Hhi.
  assert (cell_map m !! next = None) as Hfree.
  { destruct (cell_map m !! next) as [k|] eqn:Hk; [|done].
    apply Hkeys in Hk. lia. }
  destruct (init_cell_void_ok u using_uwuw i vol next graveyard m Htag)
    as ([next1 graveyard1] & m1 & Hstep); [by rewrite Hadj|].
  cbn [init_cells]. rewrite bind_eq, Hstep.
  apply init_cell_registers in Hstep
    as (c & l & _ & _ & Hcm & _ & _ & _ & _ & _ & _ & _ & Hid & _ & _ & _
        & -> & _).
  rewrite Hadj in Hid |- *.
  rewrite wrap32_id by (unfold in_int, INT_MIN, INT_MAX in *; lia).
  apply IH; [|lia|lia|done].
  intros id k. rewrite Hcm, Hid.
  intros [[<- _]|[_ Hk]]%lookup_insert_Some; [lia|].
  apply Hkeys in Hk. lia.
Qed.

Lemma init_surfaces_accepted_ok (u : DAGUniverse) (surfs : list Surface)
    (i : nat) (next_surf_id graveyard : Z) (m : Model) :
  adjust_geometry_ids_ u = true →
  (∀ id k, surface_map m !! id = Some k → id < next_surf_id) →
  INT_MIN ≤ next_surf_id → next_surf_id + Z.of_nat (length surfs) ≤ INT_MAX →
  Forall (λ surf, to_lower (surf_boundary surf) ∈ accepted_bc_tags) surfs →
  ∃ next' m', init_surfaces u i surfs next_surf_id graveyard m = (Ok next', m').
Proof.
  intros Hadj. revert i next_surf_id m.
  induction surfs as [|surf surfs IH]; intros i next m Hkeys Hlo Hhi Htags.
  { eexists _, _. reflexivity. }
  apply Forall_cons in Htags as [Htag Htags]. simpl in Hhi.
  assert (surface_map m !! next = None) as Hfree.
  { destruct (surface_map m !! next) as [k|] eqn:Hk; [|done].
    apply Hkeys in Hk. lia. }
  destruct (init_surface_accepted_ok u i surf next graveyard m Htag)
    as (next1 & m1 & Hstep); [by rewrite Hadj|].
  cbn [init_surfaces]. rewrite bind_eq, Hstep.
  apply init_surface_registers in Hstep
    as (s & bc & _ & _ & Hsm & _ & _ & _ & _ & _ & _ & Hid & _ & _ & _ & ->).
  rewrite Hadj in Hid |- *.
  rewrite wrap32_id by (unfold in_int, INT_MIN, INT_MAX in *; lia).
  apply IH; [|lia|lia|done].
  intros id k. rewrite Hsm, Hid.
  intros [[<- _]|[_ Hk]]%lookup_insert_Some; [lia|].
  apply Hkeys in Hk. lia.
Qed.
End Returns.

(** An import that is sure to return.  With automatic ids, id maps
    consistent with the collections, no material library in the file,
    every volume tagged "void", "vacuum" or "graveyard" and every
    surface tagged with a condition the import knows (in any case, the
    empty tag included), [initialize] returns a universe: no error is
    raised, short of the overflow of [int32_t]. *)
Theorem void_import_returns `{Env} (u : DAGUniverse) (m : Model) :
  let file := load_file (filename_ u) in
  adjust_geometry_ids_ u = true →
  registry_ok (id_ <$> cells m) (cell_map m) →
  registry_ok (surf_id_ <$> surfaces m) (surface_map m) →
  highest_id id_ (cells m) + Z.of_nat (length (h5m_volumes file)) < INT_MAX →
  highest_id surf_id_ (surfaces m) + Z.of_nat (length (h5m_surfaces file))
  < INT_MAX →
  h5m_library file = [] →
  Forall (λ vol, to_lower (vol_material vol) ∈ void_tags) (h5m_volumes file) →
  Forall (λ surf, to_lower (surf_boundary surf) ∈ accepted_bc_tags)
    (h5m_surfaces file) →
  ∃ u' m', initialize u m = (Ok u', m').
Proof.
  intros file Hadj Hcells Hsurfs Hcmax Hsmax Hlib Hvoid Htags.
  pose proof (highest_id_spec id_ (cells m)) as (Hc0 & _).
  pose proof (highest_id_spec surf_id_ (surfaces m)) as (Hs0 & _).
  unfold initialize. rewrite !bind_gets, bind_eq.
  assert (∀ u0, filename_ u0 = filename_ u →
            read_uwuw_materials u0 m = (Ok (set_uwuw u0 []), m)) as Hread.
  { intros u0 Hfile. unfold read_uwuw_materials.
    rewrite bind_gets, Hfile. fold file. rewrite Hlib. reflexivity. }
  rewrite Hread by done. cbv beta iota.
  set (u1 := set_uwuw (set_offsets u (length (cells m)) (length (surfaces m)))
               []).
  change (uses_uwuw u1) with false.
  change (filename_ u1) with (filename_ u). fold file.
  set (u2 := set_dagmc_instance u1 file).
  change (dagmc_instance_ u2) with file.
  rewrite bind_eq. change (when false ?c m) with (@Ok unit tt, m).
  cbv beta iota. rewrite bind_eq.
  destruct (init_cells_void_ok u2 false (h5m_volumes file) 0
              (wrap32 (highest_id id_ (cells m) + 1)) 0 m)
    as ([next1 graveyard] & m1 & Hloop); [done| | | |done|].
  { intros id k Hk. apply (registry_ok_below _ _ _ _ _ Hcells) in Hk.
    rewrite wrap32_id by (unfold in_int, INT_MIN, INT_MAX in *; lia). lia. }
  { rewrite wrap32_id; unfold in_int, INT_MIN, INT_MAX in *; lia. }
  { rewrite wrap32_id; unfold in_int, INT_MIN, INT_MAX in *; lia. }
  rewrite Hloop. cbv beta iota.
  apply init_cells_registers in Hloop as (new & l & _ & _ & _ & _ & Hsm1 & _).
  rewrite bind_eq.
  destruct (when settings_check_overlaps _ m1) as [[[]|f2] m2] eqn:Hover.
  2: { unfold when in Hover. destruct settings_check_overlaps; discriminate. }
  assert (surface_map m2 = surface_map m1) as Hsm2.
  { unfold when in Hover. destruct settings_check_overlaps.
    - bind_inv Hover as n m3 Hn. apply gets_inv in Hn as [-> ->].
      by apply modify_inv in Hover as ->.
    - by apply ret_inv in Hover as [_ ->]. }
  rewrite bind_eq.
  destruct (when (bool_decide (graveyard = 0)) _ m2) as [[[]|f3] m3]
    eqn:Hwarn.
  2: { unfold when in Hwarn. destruct (bool_decide _); discriminate. }
  assert (surface_map m3 = surface_map m2) as Hsm3.
  { unfold when in Hwarn. destruct (bool_decide _).
    - by apply modify_inv in Hwarn as ->.
    - by apply ret_inv in Hwarn as [_ ->]. }
  rewrite bind_eq.
  destruct (init_surfaces_accepted_ok u2 (h5m_surfaces file) 0
              (wrap32 (highest_id surf_id_ (surfaces m) + 1)) graveyard m3)
    as (next2 & m4 & Hsloop); [done| | | |done|].
  { intros id k. rewrite Hsm3, Hsm2, Hsm1. intros Hk.
    apply (registry_ok_below _ _ _ _ _ Hsurfs) in Hk.
    rewrite wrap32_id by (unfold in_int, INT_MIN, INT_MAX in *; lia). lia. }
  { rewrite wrap32_id; unfold in_int, INT_MIN, INT_MAX in *; lia. }
  { rewrite wrap32_id; unfold in_int, INT_MIN, INT_MAX in *; lia. }
  rewrite Hsloop. eexists _, _. reflexivity.
Qed.

Lemma void_import_returns_witness :
  let H := Example.env 7 Example.two_graveyards in
  ∃ u' m',
    initialize (H := H) (Example.universe Example.two_graveyards true)
      Example.csg_model = (Ok u', m').
Proof.
  intros H.
  apply (void_import_returns (H := H)
           (Example.universe Example.two_graveyards true) Example.csg_model
           eq_refl (proj1 registry_ok_csg_model) (proj2 registry_ok_csg_model)
           ltac:(vm_compute; reflexivity) ltac:(vm_compute; reflexivity)
           eq_refl).
  - repeat constructor; vm_compute;
      rewrite !elem_of_cons; tauto.
  - repeat constructor; vm_compute;
      rewrite !elem_of_cons; tauto.
Defined.

(** ** The errors of the XML constructor *)

(** The constructor fails before it touches the model, and the id is
    looked at first: a node without an id ends in the fatal error on
    the id, whether it names a file or not; an id that [std::stoi]
    does not accept is not reported by [fatal_error] but leaves the
    constructor as the exception of [std::stoi]; with a numeric id, a
    node without file name ends in the fatal error on the file. *)
Theorem constructor_errors `{Env} `{XmlInterface xml_node} (node : xml_node)
    (m : Model) :
  (check_for_node node "id" = false →
   DAGUniverse_xml node m
   = (Stop (fatal_error "Must specify the id of the DAGMC universe"), m))
  ∧ (check_for_node node "id" = true →
     stoi (get_node_value node "id") = conv_invalid_argument →
     DAGUniverse_xml node m = (Stop uncaught_invalid_argument, m))
  ∧ (check_for_node node "id" = true →
     stoi (get_node_value node "id") = conv_out_of_range →
     DAGUniverse_xml node m = (Stop uncaught_out_of_range, m))
  ∧ (check_for_node node "id" = true →
     (∃ v, stoi (get_node_value node "id") = conv_value v) →
     check_for_node node "filename" = false →
     DAGUniverse_xml node m
     = (Stop (fatal_error "Must specify a file for the DAGMC universe"), m)).
Proof.
  unfold DAGUniverse_xml, configure. split_and!.
  - intros Hid. by rewrite !bind_eq, Hid.
  - intros Hid Hstoi. by rewrite !bind_eq, Hid, Hstoi.
  - intros Hid Hstoi. by rewrite !bind_eq, Hid, Hstoi.
  - intros Hid [v Hstoi] Hfile. by rewrite !bind_eq, Hid, Hstoi, Hfile.
Qed.

Example constructor_errors_example :
  let H := Example.env 7 Example.void_mesh in
  let X := Example.attrs in
  DAGUniverse_xml (H := H) (H0 := X) [("id", "one"); ("filename", "a.h5m")]
    Example.empty_model
  = (Stop uncaught_invalid_argument, Example.empty_model)
  ∧ DAGUniverse_xml (H := H) (H0 := X) [("auto_geom_ids", "true")]
      Example.empty_model
    = (Stop (fatal_error "Must specify the id of the DAGMC universe"),
       Example.empty_model).
Proof. split; reflexivity. Qed.

(** ** A material number that names no material *)

(** A numeric material tag is taken as a material id without a look-up
    (legacy mode, no material of that name).  When no material has
    that id, the turn of the volume loop does not end in a fatal error:
    [material_map.at] throws [std::out_of_range], in the report of
    [legacy_assign_material] at verbosity 10 or more and at the
    temperature look-up otherwise, and nothing catches it.  No cell is
    appended. *)
Theorem unknown_material_number `{Env} (u : DAGUniverse) (i : nat)
    (vol : Volume) (next_cell_id graveyard id : Z) (m : Model) :
  cell_map m !! (if adjust_geometry_ids_ u then next_cell_id else vol_id vol)
  = None →
  vol_material vol ≠ "" →
  to_lower (vol_material vol) ∉ void_tags →
  Forall (λ mt, to_lower (mat_name mt) ≠ to_lower (vol_material vol))
    (materials m) →
  stoi (to_lower (vol_material vol)) = conv_value id →
  id ≠ MATERIAL_VOID → material_map m !! id = None →
  ∃ m',
    init_cell u false i vol next_cell_id graveyard m
    = (Stop uncaught_out_of_range, m')
    ∧ cells m' = cells m.
Proof.
  intros Hfree Hne Hvoid Hnone Hstoi Hid Hmap. unfold init_cell.
  rewrite bind_eq, register_cell_free by exact Hfree.
  rewrite (bool_decide_eq_false_2 _ Hne). unfold when. rewrite bind_eq.
  unfold ret at 1. rewrite bind_eq.
  revert Hvoid. unfold void_tags. rewrite !elem_of_cons, elem_of_nil.
  intros Hvoid. unfold assign_material.
  rewrite !(bool_decide_eq_false_2 (to_lower (vol_material vol) = _))
    by tauto.
  cbn [orb]. unfold legacy_assign_material.
  rewrite bind_gets, bind_eq.
  assert (to_lower (to_lower (vol_material vol)) = to_lower (vol_material vol))
    as Hlow.
  { generalize (vol_material vol). intros s.
    induction s as [|a s IH]; [done|]. cbn [to_lower]. rewrite IH. f_equal.
    by destruct a as [[] [] [] [] [] [] [] []]. }
  rewrite Hlow.
  rewrite match_by_name_none by exact Hnone.
  cbn [negb]. rewrite Hstoi, bind_eq. unfold ret at 1.
  set (m1 := set_cell_map _ m).
  assert (map_at material_map id m1 = (Stop uncaught_out_of_range, m1))
    as Hat.
  { unfold map_at. rewrite bind_gets. subst m1. cbn. by rewrite Hmap. }
  assert (cells m1 = cells m) as Hcells by done.
  clearbody m1.
  case_bool_decide.
  - rewrite !bind_eq. unfold index at 1, push_material. cbn.
    rewrite bind_eq, Hat. by eexists.
  - rewrite !bind_eq. unfold ret at 1. unfold ret at 1.
    unfold index at 1, push_material. cbn.
    rewrite (bool_decide_eq_false_2 _ Hid).
    unfold assign_temperature.
    change (index (material_ ?c) 0) with (@ret Z id).
    rewrite !bind_eq. unfold ret at 1. rewrite bind_eq, Hat. by eexists.
Qed.

Lemma unknown_material_number_witness :
  let H := Example.env 7 Example.mesh in
  ∃ m',
    init_cell (H := H) (Example.universe Example.mesh false) false 0
      (Example.volume 101 5 "99" None) 1 0 Example.csg_model
    = (Stop uncaught_out_of_range, m')
    ∧ cells m' = cells Example.csg_model.
Proof.
  intros H.
  apply (unknown_material_number (H := H)
           (Example.universe Example.mesh false) 0
           (Example.volume 101 5 "99" None) 1 0 99 Example.csg_model).
  - reflexivity.
  - discriminate.
  - unfold void_tags. rewrite !elem_of_cons, elem_of_nil.
    intros [?|[?|[?|[]]]]; discriminate.
  - repeat constructor; discriminate.
  - reflexivity.
  - discriminate.
  - vm_compute. reflexivity.
Defined.
